(** * HighPerfOrderBook: a shallow embedding of the matching engine

    The development follows the C++ sources one header at a time:

    - [order_types.h]: the value types [Order], [PriceLevel], [MatchResult]
      and the NEON batch updater [BatchOperations];
    - [lock_free_queue.h]: the sequence-number slot ring [LockFreeQueue];
    - [order_book.h]: the two side books and the public API of [OrderBook].

    Fixed-width integers are integers of [Z] with the wrap-around written
    out.  The engine is a critical section under one readers/writer lock, so
    its methods are functions from book state to book state.
    [Order::operator<] and [operator>] are used by no method of the engine
    and are left out, as are the driver (main.cpp) and the memory-mapped
    array, which the matching path never touches. *)

From Stdlib Require Import ZArith Lia Bool Ascii String.
From stdpp Require Import base tactics option list sorting.

Local Open Scope Z_scope.

(** ** Fixed-width integers *)

(** Conversion to [uint32_t]: reduction modulo 2^32. *)
Definition to_uint32 (z : Z) : Z := z mod 2 ^ 32.

(** Conversion to [int32_t]: the two's complement reading of the low 32 bits. *)
Definition to_int32 (z : Z) : Z := (z + 2 ^ 31) mod 2 ^ 32 - 2 ^ 31.

(** Conversion to [uint64_t]; on a negative [int32_t] this is sign extension. *)
Definition to_uint64 (z : Z) : Z := z mod 2 ^ 64.

Definition is_uint32 (z : Z) : Prop := 0 <= z < 2 ^ 32.
Definition is_int32 (z : Z) : Prop := - 2 ^ 31 <= z < 2 ^ 31.

(** ** order_types.h: enumerations *)

Inductive Side : Type := BUY | SELL.

Inductive OrderType : Type := LIMIT | MARKET | IOC.

Definition Side_eqb (a b : Side) : bool :=
  match a, b with
  | BUY, BUY | SELL, SELL => true
  | _, _ => false
  end.

(** ** order_types.h: identifiers

    [std::array<char, 16>] is a list of sixteen characters; [id{}] fills it
    with NUL. *)

Definition MAX_ID_LENGTH : nat := 16.

Definition NUL : ascii := Ascii.zero.

Definition empty_id : list ascii := replicate MAX_ID_LENGTH NUL.

(** [Order::set_id] and [MatchResult::set_counterparty_id]: copy at most
    fifteen characters over the front of the array, then write the
    terminator behind them. *)
Definition set_id (id_str : string) (id : list ascii) : list ascii :=
  let src := list_ascii_of_string id_str in
  let copy_size := Nat.min (length src) (MAX_ID_LENGTH - 1) in
  <[copy_size := NUL]> (take copy_size src ++ drop copy_size id).

(** [Order::get_id]: the C string that starts the array. *)
Fixpoint c_str (id : list ascii) : string :=
  match id with
  | [] => EmptyString
  | c :: rest => if Ascii.eqb c NUL then EmptyString else String c (c_str rest)
  end.

Definition get_id (id : list ascii) : string := c_str id.

(** ** Prices

    [OrderBook] is a template over [PriceType]; the code only compares
    prices with [operator<], copies them, and converts the literal [0]:
    that is the class [PriceType].  The records of order_types.h store the
    price as [double], which is the instantiation the test-suite uses
    ([OrderBook<double>]); the embedding uses one price type [P] for keys
    and record fields alike.

    [std::map] asks [operator<] to be a strict order whose incomparable
    keys are the same key, which is what the laws of [PriceOrder] say (for
    [double]: no NaN).  The functions below are defined for every
    [PriceType], lawful or not: on a key that breaks the laws, such as NaN,
    they do what a search driven by [operator<] does. *)

Class PriceType (P : Type) : Type := {
  price_zero : P;
  price_lt : P → P → bool
}.

Class PriceOrder (P : Type) : Type := {
  price_type :: PriceType P;
  price_lt_irrefl : ∀ a, price_lt a a = false;
  price_lt_trans : ∀ a b c,
    price_lt a b = true → price_lt b c = true → price_lt a c = true;
  price_lt_connex : ∀ a b,
    price_lt a b = false → price_lt b a = false → a = b
}.

(** ** order_types.h: records *)

Record Order (P : Type) : Type := mkOrder {
  id : list ascii;
  price : P;
  quantity : Z;        (* uint32_t *)
  side : Side;
  type : OrderType;
  timestamp : Z         (* uint64_t *)
}.
Arguments mkOrder {P}.
Arguments id {P}.
Arguments price {P}.
Arguments quantity {P}.
Arguments side {P}.
Arguments type {P}.
Arguments timestamp {P}.

Record PriceLevel (P : Type) : Type := mkPriceLevel {
  level_price : P;
  total_quantity : Z;  (* uint32_t *)
  order_count : Z;     (* uint32_t *)
  padding : Z          (* uint32_t *)
}.
Arguments mkPriceLevel {P}.
Arguments level_price {P}.
Arguments total_quantity {P}.
Arguments order_count {P}.
Arguments padding {P}.

Record MatchResult (P : Type) : Type := mkMatchResult {
  match_quantity : Z;  (* uint32_t *)
  match_price : P;
  counterparty_id : list ascii
}.
Arguments mkMatchResult {P}.
Arguments match_quantity {P}.
Arguments match_price {P}.
Arguments counterparty_id {P}.

(** [PriceLevel::update_quantity(int32_t delta)]: the signed delta is
    converted to [uint32_t] by the compound assignment, so both fields move
    modulo 2^32. *)
Definition update_quantity {P} (delta : Z) (level : PriceLevel P) : PriceLevel P :=
  {| level_price := level_price level;
     total_quantity := to_uint32 (total_quantity level + delta);
     order_count := to_uint32 (order_count level + 1);
     padding := padding level |}.

(** Field stores through a handle. *)
Definition set_total_quantity {P} (q : Z) (level : PriceLevel P) : PriceLevel P :=
  {| level_price := level_price level; total_quantity := q;
     order_count := order_count level; padding := padding level |}.

Definition set_order_count {P} (c : Z) (level : PriceLevel P) : PriceLevel P :=
  {| level_price := level_price level; total_quantity := total_quantity level;
     order_count := c; padding := padding level |}.

(** ** order_types.h: BatchOperations

    The NEON registers are tuples of lanes; every lane operation is the
    scalar operation on [uint32_t].  A handle [PriceLevel*] is [None] for
    the null pointer and [Some p] otherwise; memory is reached through
    [deref] (read the record behind a handle) and [assign] (write it), which
    the two users of the batch updater instantiate: a flat array of levels
    below, the nodes of the two side books in [OrderBook].  Reading through
    a handle that points nowhere, or indexing one of the four-element arrays
    past its end, is undefined behaviour: the functions return [None]. *)

Definition vaddq_u32 (a b : list Z) : list Z :=
  zip_with (λ x y, to_uint32 (x + y)) a b.

Definition vreinterpretq_u32_s32 (v : list Z) : list Z := to_uint32 <$> v.

Definition vdupq_n_u32 (x : Z) : list Z := replicate 4 x.

(** [vcreate_u32]: lane 0 is the low half of the 64-bit value, lane 1 the
    high half. *)
Definition vcreate_u32 (x : Z) : Z * Z := (x mod 2 ^ 32, x / 2 ^ 32).

Definition vadd_u32 (a b : Z * Z) : Z * Z :=
  (to_uint32 (a.1 + b.1), to_uint32 (a.2 + b.2)).

(** [for (size_t i = 0; i < count; ++i) body], with a body that may be
    undefined. *)
Definition for_loop {S : Type} (count : nat) (body : nat → S → option S)
    (s : S) : option S :=
  foldl (λ acc i, acc ≫= body i) (Some s) (seq 0 count).

Section BatchOperations.
Context {P Mem Ptr : Type}.
Variable deref : Ptr → Mem → option (PriceLevel P).
Variable assign : Ptr → PriceLevel P → Mem → Mem.

(** Lines 95-103: load the current values into the two local arrays. *)
Definition load_body (levels : list (option Ptr)) (m : Mem) (i : nat)
    (arrays : list Z * list Z) : option (list Z * list Z) :=
  let '(quantities, counts) := arrays in
  if decide (i < 4)%nat then
    handle ← levels !! i;
    match handle with
    | Some p =>
        level ← deref p m;
        Some (<[i := total_quantity level]> quantities,
              <[i := order_count level]> counts)
    | None => Some (<[i := 0]> quantities, <[i := 0]> counts)
    end
  else None.

(** Lines 120-125: write the lanes back through the non-null handles. *)
Definition store_body (levels : list (option Ptr)) (quantities counts : list Z)
    (i : nat) (m : Mem) : option Mem :=
  if decide (i < 4)%nat then
    handle ← levels !! i;
    match handle with
    | Some p =>
        q ← quantities !! i;
        c ← counts !! i;
        level ← deref p m;
        let m1 := assign p (set_total_quantity q level) m in
        level1 ← deref p m1;
        Some (assign p (set_order_count c level1) m1)
    | None => Some m
    end
  else None.

(** [BatchOperations::process_quantity_updates].  The local arrays are
    not initialised in the source; [junk_q] and [junk_c] are whatever
    they hold on entry. *)
Definition process_quantity_updates_from (junk_q junk_c : list Z)
    (levels : list (option Ptr)) (deltas : list Z) (count : nat)
    (m : Mem) : option Mem :=
  '(quantities, counts) ← for_loop count (load_body levels m) (junk_q, junk_c);
  let q_vec := quantities in
  let c_vec := counts in
  let d_vec := deltas in
  let one_vec := vdupq_n_u32 1 in
  let q_vec := vaddq_u32 q_vec (vreinterpretq_u32_s32 d_vec) in
  let c_vec := vaddq_u32 c_vec one_vec in
  for_loop count (store_body levels q_vec c_vec) m.

(** The lanes at or past [count] are added to and never stored: the
    result does not depend on what the arrays held (see
    [load_loop] and [store_loop] below), and zero stands for it. *)
Definition process_quantity_updates :=
  process_quantity_updates_from (replicate 4 0) (replicate 4 0).

(** [BatchOperations::process_single_update].  [vld1_u32] reads the two
    adjacent words [total_quantity] and [order_count]; the update word is
    [(uint64_t)delta | ((uint64_t)1 << 32)]. *)
Definition process_single_update (level : option Ptr) (delta : Z)
    (m : Mem) : option Mem :=
  match level with
  | None => Some m
  | Some p =>
      l ← deref p m;
      let current := (total_quantity l, order_count l) in
      let update := vcreate_u32 (Z.lor (to_uint64 delta) (Z.shiftl 1 32)) in
      let result := vadd_u32 current update in
      Some (assign p (set_order_count result.2
                        (set_total_quantity result.1 l)) m)
  end.

(** The scalar loop the batch updater stands for:
    [level.update_quantity(delta)] on each non-null handle in turn. *)
Definition scalar_body (levels : list (option Ptr)) (deltas : list Z)
    (i : nat) (m : Mem) : option Mem :=
  handle ← levels !! i;
  delta ← deltas !! i;
  match handle with
  | Some p => level ← deref p m; Some (assign p (update_quantity delta level) m)
  | None => Some m
  end.

Definition scalar_quantity_updates (levels : list (option Ptr))
    (deltas : list Z) (count : nat) (m : Mem) : option Mem :=
  for_loop count (scalar_body levels deltas) m.
End BatchOperations.

(** A flat array of price levels addressed by index. *)
Definition heap_deref {P} (p : nat) (m : list (PriceLevel P)) : option (PriceLevel P) :=
  m !! p.

Definition heap_assign {P} (p : nat) (v : PriceLevel P) (m : list (PriceLevel P))
    : list (PriceLevel P) :=
  <[p := v]> m.

Section HeapHandles.
Context {P : Type}.

(** Every non-null handle among the first [count] points into the array. *)
Definition handles_valid (levels : list (option nat)) (count : nat)
    (m : list (PriceLevel P)) : Prop :=
  ∀ i p, (i < count)%nat → levels !! i = Some (Some p) → is_Some (m !! p).

(** No two of the first [count] handles point to the same level. *)
Definition handles_distinct (levels : list (option nat)) (count : nat) : Prop :=
  ∀ i j p, (i < count)%nat → (j < count)%nat →
    levels !! i = Some (Some p) → levels !! j = Some (Some p) → i = j.

(** The lane the load loop fills for index [i]. *)
Definition lane (f : PriceLevel P → Z) (levels : list (option nat))
    (m : list (PriceLevel P)) (i : nat) : Z :=
  match levels !! i with
  | Some (Some p) => from_option f 0 (m !! p)
  | _ => 0
  end.
End HeapHandles.

(** ** lock_free_queue.h: LockFreeQueue

    One attempt of one thread with no other thread in between: the loads
    return what the state holds and [compare_exchange_strong], whose
    expected value was read from the same variable, succeeds.  [N] is the
    template parameter, [default_data] the value-initialised payload of a
    fresh slot.  [buffer_[i]] past the end of the vector is undefined
    behaviour ([None]). *)

Module LockFreeQueue.
Section Queue.
Context {T : Type}.
Variable N : nat.

Record Node : Type := mkNode {
  data : T;
  sequence : Z          (* std::atomic<uint64_t> *)
  }.

Record t : Type := mkQueue {
  head_ : Z;            (* std::atomic<uint64_t> *)
  tail_ : Z;            (* std::atomic<uint64_t> *)
  buffer_ : list Node
  }.

(** [~0ULL] *)
Definition EMPTY_SEQUENCE : Z := 2 ^ 64 - 1.

(** [N - 1] in [size_t] *)
Definition BUFFER_MASK : Z := to_uint64 (Z.of_nat N - 1).

(** The constructor: [buffer_(N)], then [EMPTY_SEQUENCE] stored into
    every slot. *)
Definition new (default_data : T) : t :=
  {| head_ := 0;
     tail_ := 0;
     buffer_ := (λ node, {| data := data node; sequence := EMPTY_SEQUENCE |})
                  <$> replicate N {| data := default_data; sequence := 0 |} |}.

Definition try_enqueue (x : T) (q : t) : option (bool * t) :=
  let tail := tail_ q in
  let slot := Z.to_nat (Z.land tail BUFFER_MASK) in
  node ← buffer_ q !! slot;
  let seq := sequence node in
  if seq =? tail then
    (* the CAS on tail_, then the payload, then the publishing store *)
    let tail' := to_uint64 (tail + 1) in
    Some (true,
          {| head_ := head_ q;
             tail_ := tail';
             buffer_ := <[slot := {| data := x; sequence := tail' |}]> (buffer_ q) |})
  else Some (false, q).

Definition try_dequeue (q : t) : option (option T * t) :=
  let head := head_ q in
  let slot := Z.to_nat (Z.land head BUFFER_MASK) in
  node ← buffer_ q !! slot;
  let seq := sequence node in
  if seq =? to_uint64 (head + 1) then
    let result := data node in
    Some (Some result,
          {| head_ := to_uint64 (head + 1);
             tail_ := tail_ q;
             buffer_ := <[slot := {| data := data node;
                                     sequence := to_uint64 (head + Z.of_nat N) |}]>
                          (buffer_ q) |})
  else Some (None, q).

(** The number of committed elements, and what full means. *)
Definition occupancy (q : t) : Z := tail_ q - head_ q.
Definition is_full (q : t) : Prop := occupancy q = Z.of_nat N.
End Queue.
End LockFreeQueue.

(** ** order_book.h: the side book

    [std::map<PriceType, PriceLevel>] is the list of its nodes in iteration
    order, which is ascending key order.  Keys are compared with
    [price_lt] only, as the container does. *)

Section SideBook.
Context {P : Type} `{PriceType P}.

Definition SideBook : Type := list (P * PriceLevel P).

(** [PriceLevel{order.price, 0, 0, 0}] *)
Definition fresh_level (k : P) : PriceLevel P :=
  {| level_price := k; total_quantity := 0; order_count := 0; padding := 0 |}.

(** [try_emplace(k, v)]: a node is added at its place in key order unless one
    with an equivalent key is there already. *)
Fixpoint map_try_emplace (k : P) (v : PriceLevel P) (m : SideBook) : SideBook :=
  match m with
  | [] => [(k, v)]
  | (k', v') :: rest =>
      if price_lt k k' then (k, v) :: m
      else if price_lt k' k then (k', v') :: map_try_emplace k v rest
      else m
  end.

(** Reading and writing [it->second] of the node with key [k]. *)
Fixpoint map_find (k : P) (m : SideBook) : option (PriceLevel P) :=
  match m with
  | [] => None
  | (k', v') :: rest =>
      if price_lt k k' then None
      else if price_lt k' k then map_find k rest
      else Some v'
  end.

Fixpoint map_assign (k : P) (v : PriceLevel P) (m : SideBook) : SideBook :=
  match m with
  | [] => []
  | (k', v') :: rest =>
      if price_lt k k' then m
      else if price_lt k' k then (k', v') :: map_assign k v rest
      else (k', v) :: rest
  end.

(** [std::max_element(first, last, comp)] and [std::min_element]: one
    pass that keeps the first extremal node. *)
Fixpoint max_element_from (largest : P * PriceLevel P) (rest : SideBook)
    : P * PriceLevel P :=
  match rest with
  | [] => largest
  | x :: rest' =>
      max_element_from (if price_lt largest.1 x.1 then x else largest) rest'
  end.

Fixpoint min_element_from (smallest : P * PriceLevel P) (rest : SideBook)
    : P * PriceLevel P :=
  match rest with
  | [] => smallest
  | x :: rest' =>
      min_element_from (if price_lt x.1 smallest.1 then x else smallest) rest'
  end.

(** [std::sort(first, last, comp)].  The standard fixes the result, not
    the algorithm; this is insertion sort, and on the pairwise distinct
    keys of a map every sorting algorithm returns the same vector. *)
Fixpoint sort_insert (comp : P * PriceLevel P → P * PriceLevel P → bool)
    (x : P * PriceLevel P) (l : SideBook) : SideBook :=
  match l with
  | [] => [x]
  | y :: rest => if comp x y then x :: l else y :: sort_insert comp x rest
  end.

Definition std_sort (comp : P * PriceLevel P → P * PriceLevel P → bool)
    (l : SideBook) : SideBook :=
  foldr (sort_insert comp) [] l.
End SideBook.

(** ** order_book.h: OrderBook *)

Module OrderBook.
Section OrderBook.
Context {P : Type} `{PriceType P}.

Definition MAX_ORDERS : Z := 1000000.
Definition SIMD_WIDTH : nat := 4.

(** The two side books.  [incoming_orders_] and [next_order_id_] are
    members no method reads or writes, and [mutex_] is the lock every
    method holds from entry to return. *)
Record t : Type := mkBook {
  bids_ : SideBook (P := P);
  asks_ : SideBook (P := P)
}.

(** [OrderBook() = default] *)
Definition empty : t := {| bids_ := []; asks_ := [] |}.

(** [&(it->second)] of a node of [bids_] or [asks_]: the side and the key. *)
Definition Handle : Type := Side * P.

Definition deref (p : Handle) (b : t) : option (PriceLevel P) :=
  match p.1 with
  | BUY => map_find p.2 (bids_ b)
  | SELL => map_find p.2 (asks_ b)
  end.

Definition assign (p : Handle) (v : PriceLevel P) (b : t) : t :=
  match p.1 with
  | BUY => {| bids_ := map_assign p.2 v (bids_ b); asks_ := asks_ b |}
  | SELL => {| bids_ := bids_ b; asks_ := map_assign p.2 v (asks_ b) |}
  end.

(** Lines 44-46: [book.try_emplace(order.price, PriceLevel{order.price, 0, 0, 0})]
    on the book of the order's side. *)
Definition emplace_level (s : Side) (k : P) (b : t) : t :=
  match s with
  | BUY => {| bids_ := map_try_emplace k (fresh_level k) (bids_ b);
              asks_ := asks_ b |}
  | SELL => {| bids_ := bids_ b;
               asks_ := map_try_emplace k (fresh_level k) (asks_ b) |}
  end.

(** The state of the loop of [process_limit_orders_batch]. *)
Record BatchState : Type := mkBatch {
  book : t;
  levels : list (option Handle);
  deltas : list Z;       (* int32_t *)
  batch_size : nat
}.

(** Lines 43-56, one iteration.  The arrays have [SIMD_WIDTH] elements:
    an index past them is undefined ([None]); the loop never reaches one. *)
Definition batch_step (st : BatchState) (order : Order P) : option BatchState :=
  let b := emplace_level (side order) (price order) (book st) in
  if decide (batch_size st < SIMD_WIDTH)%nat then
    let levels' := <[batch_size st := Some (side order, price order)]> (levels st) in
    let deltas' := <[batch_size st := to_int32 (quantity order)]> (deltas st) in
    let batch_size' := S (batch_size st) in
    if decide (batch_size' = SIMD_WIDTH) then
      b' ← process_quantity_updates deref assign levels' deltas' SIMD_WIDTH b;
      Some {| book := b'; levels := levels'; deltas := deltas'; batch_size := 0%nat |}
    else
      Some {| book := b; levels := levels'; deltas := deltas';
              batch_size := batch_size' |}
  else None.

Definition process_limit_orders_batch (orders : list (Order P)) (b : t)
    : option t :=
  let init := {| book := b; levels := replicate SIMD_WIDTH None;
                 deltas := replicate SIMD_WIDTH 0; batch_size := 0%nat |} in
  st ← foldl (λ acc order, acc ≫= λ st, batch_step st order) (Some init) orders;
  if decide (0 < batch_size st)%nat then
    process_quantity_updates deref assign (levels st) (deltas st)
      (batch_size st) (book st)
  else Some (book st).

(** Lines 72-92: the walk over the opposing book from [begin()], with the
    matches pushed so far.  A drained level is erased, the others stay in
    place. *)
Fixpoint match_loop (order_id : string) (levels : SideBook (P := P))
    (remaining : Z) (matches : list (MatchResult P))
    : SideBook (P := P) * list (MatchResult P) :=
  match levels with
  | [] => ([], matches)
  | (k, level) :: rest =>
      if 0 <? remaining then
        let matched := Z.min remaining (total_quantity level) in
        let '(level', remaining', matches') :=
          if 0 <? matched then
            let m := {| match_quantity := matched;
                        match_price := level_price level;
                        counterparty_id := set_id order_id empty_id |} in
            (update_quantity (to_int32 (- to_int32 matched)) level,
             to_uint32 (remaining - matched),
             matches ++ [m])
          else (level, remaining, matches) in
        if total_quantity level' =? 0 then
          match_loop order_id rest remaining' matches'
        else
          let '(rest', out) := match_loop order_id rest remaining' matches' in
          ((k, level') :: rest', out)
      else (levels, matches)
  end.

Definition match_market_order_simd (order : Order P) (b : t)
    : list (MatchResult P) * t :=
  let remaining := quantity order in
  match side order with
  | BUY =>
      let '(asks', matches) :=
        match_loop (get_id (id order)) (asks_ b) remaining [] in
      (matches, {| bids_ := bids_ b; asks_ := asks' |})
  | SELL =>
      let '(bids', matches) :=
        match_loop (get_id (id order)) (bids_ b) remaining [] in
      (matches, {| bids_ := bids'; asks_ := asks_ b |})
  end.

Definition get_best_bid (b : t) : P :=
  match bids_ b with
  | [] => price_zero
  | first :: rest => (max_element_from first rest).1
  end.

Definition get_best_ask (b : t) : P :=
  match asks_ b with
  | [] => price_zero
  | first :: rest => (min_element_from first rest).1
  end.

(** *** Public API.  An integer argument converts to the parameter's
    type, [uint32_t] for quantities; [now] is the reading of the system
    clock. *)

Definition add_limit_order (s : Side) (p : P) (quantity : Z) (id_str : string)
    (now : Z) (b : t) : option (bool * t) :=
  let order := {| id := set_id id_str empty_id;
                  price := p;
                  quantity := to_uint32 quantity;
                  side := s;
                  type := LIMIT;
                  timestamp := to_uint64 now |} in
  b' ← process_limit_orders_batch [order] b;
  Some (true, b').

Definition process_market_order (s : Side) (quantity : Z) (id_str : string)
    (now : Z) (b : t) : list (MatchResult P) * t :=
  let order := {| id := set_id id_str empty_id;
                  price := price_zero;
                  quantity := to_uint32 quantity;
                  side := s;
                  type := MARKET;
                  timestamp := to_uint64 now |} in
  match_market_order_simd order b.

Definition get_best_prices (b : t) : P * P := (get_best_bid b, get_best_ask b).

(** Lines 168-170: the first [levels] records of the sorted copy. *)
Fixpoint depth_loop (levels : nat) (sorted_levels : SideBook (P := P))
    : list (PriceLevel P) :=
  match levels, sorted_levels with
  | S n, x :: rest => x.2 :: depth_loop n rest
  | _, _ => []
  end.

Definition get_depth (s : Side) (levels : nat) (b : t) : list (PriceLevel P) :=
  let sorted_levels :=
    match s with
    | BUY => std_sort (λ x y, price_lt y.1 x.1) (bids_ b)
    | SELL => std_sort (λ x y, price_lt x.1 y.1) (asks_ b)
    end in
  depth_loop levels sorted_levels.
End OrderBook.
End OrderBook.

(** ** What a side book is at rest

    The properties below are stated over the books the API can build.
    Their shape: keys strictly ascending, every level filed under its own
    price, both counters within [uint32_t]. *)

Section BookShape.
Context {P : Type} `{PriceType P}.

Definition keys_ascending (m : SideBook (P := P)) : Prop :=
  StronglySorted (λ x y, price_lt x y = true) (fst <$> m).

Definition level_wf (node : P * PriceLevel P) : Prop :=
  level_price node.2 = node.1
  ∧ is_uint32 (total_quantity node.2)
  ∧ is_uint32 (order_count node.2).

Definition totals_fit (m : SideBook (P := P)) : Prop :=
  Forall (λ node, is_uint32 (total_quantity node.2)) m.

Definition totals_positive (m : SideBook (P := P)) : Prop :=
  Forall (λ node, 0 < total_quantity node.2) m.

Definition side_wf (m : SideBook (P := P)) : Prop :=
  keys_ascending m ∧ Forall level_wf m.

Definition book_wf (b : OrderBook.t (P := P)) : Prop :=
  side_wf (OrderBook.bids_ b) ∧ side_wf (OrderBook.asks_ b).

(** The scalar form of a limit add on one side book: locate or create
    the level at [k], then [update_quantity]. *)
Fixpoint level_add (k : P) (q : Z) (m : SideBook (P := P)) : SideBook (P := P) :=
  match m with
  | [] => [(k, update_quantity q (fresh_level k))]
  | (k', v') :: rest =>
      if price_lt k k' then (k, update_quantity q (fresh_level k)) :: m
      else if price_lt k' k then (k', v') :: level_add k q rest
      else (k', update_quantity q v') :: rest
  end.

Definition add_scalar (s : Side) (k : P) (q : Z) (b : OrderBook.t (P := P))
    : OrderBook.t (P := P) :=
  match s with
  | BUY => {| OrderBook.bids_ := level_add k q (OrderBook.bids_ b);
              OrderBook.asks_ := OrderBook.asks_ b |}
  | SELL => {| OrderBook.bids_ := OrderBook.bids_ b;
               OrderBook.asks_ := level_add k q (OrderBook.asks_ b) |}
  end.

(** [p] is the greatest, respectively the least, key of [m]. *)
Definition is_max_key (p : P) (m : SideBook (P := P)) : Prop :=
  p ∈ fst <$> m ∧ ∀ k, k ∈ fst <$> m → price_lt p k = false.

Definition is_min_key (p : P) (m : SideBook (P := P)) : Prop :=
  p ∈ fst <$> m ∧ ∀ k, k ∈ fst <$> m → price_lt k p = false.

(** [p] is the best key of [m], or 0 when [m] is empty. *)
Definition best_or_zero (is_best : P → SideBook (P := P) → Prop) (p : P)
    (m : SideBook (P := P)) : Prop :=
  match m with
  | [] => p = price_zero
  | _ :: _ => is_best p m
  end.

(** Best first: weakly decreasing for bids, weakly increasing for asks. *)
Definition best_first (s : Side) (prices : list P) : Prop :=
  match s with
  | BUY => StronglySorted (λ x y, price_lt x y = false) prices
  | SELL => StronglySorted (λ x y, price_lt y x = false) prices
  end.

(** What the level at [k] holds (0 when there is none). *)
Definition resting (k : P) (m : SideBook (P := P)) : Z :=
  default 0 (total_quantity <$> map_find k m).

(** The record a fill of [matched] at [level] pushes, and the level it
    leaves. *)
Definition fill_of (order_id : string) (matched : Z) (level : PriceLevel P)
    : MatchResult P :=
  {| match_quantity := matched;
     match_price := level_price level;
     counterparty_id := set_id order_id empty_id |}.

Definition filled (matched : Z) (level : PriceLevel P) : PriceLevel P :=
  update_quantity (to_int32 (- to_int32 matched)) level.

(** The walk of [match_loop] over levels whose quantities are within
    [uint32_t], case by case: [Walk id m r m' fills] when the walk over
    [m] with [r] still to match leaves [m'] and pushes [fills]. *)
Inductive Walk (order_id : string)
    : SideBook (P := P) → Z → SideBook (P := P) → list (MatchResult P) → Prop :=
| Walk_end (r : Z) : Walk order_id [] r [] []
| Walk_stop (m : SideBook (P := P)) (r : Z) : r <= 0 → Walk order_id m r m []
| Walk_erase k level rest r m' fills :
    0 < r → total_quantity level = 0 →
    Walk order_id rest r m' fills →
    Walk order_id ((k, level) :: rest) r m' fills
| Walk_drain k level rest r m' fills :
    0 < total_quantity level <= r →
    Walk order_id rest (r - total_quantity level) m' fills →
    Walk order_id ((k, level) :: rest) r m'
      (fill_of order_id (total_quantity level) level :: fills)
| Walk_partial k level rest r :
    0 < r < total_quantity level →
    Walk order_id ((k, level) :: rest) r ((k, filled r level) :: rest)
      [fill_of order_id r level].
End BookShape.

(** ** Runs of the public API

    The engine linearises its writers, so a history of the book is a list
    of calls.  [run] performs them in order and records what each
    returned. *)

Module Trace.
Section Trace.
Context {P : Type} `{PriceType P}.

Inductive Op : Type :=
| AddLimit (s : Side) (p : P) (quantity : Z) (id_str : string) (now : Z)
| Market (s : Side) (quantity : Z) (id_str : string) (now : Z).

Inductive Reply : Type :=
| Added (ok : bool)
| Matched (matches : list (MatchResult P)).

Definition step (op : Op) (b : OrderBook.t (P := P))
    : option (Reply * OrderBook.t (P := P)) :=
  match op with
  | AddLimit s p quantity id_str now =>
      '(ok, b') ← OrderBook.add_limit_order s p quantity id_str now b;
      Some (Added ok, b')
  | Market s quantity id_str now =>
      let '(matches, b') := OrderBook.process_market_order s quantity id_str now b in
      Some (Matched matches, b')
  end.

Fixpoint run (ops : list Op) (b : OrderBook.t (P := P))
    : option (list (Op * Reply) * OrderBook.t (P := P)) :=
  match ops with
  | [] => Some ([], b)
  | op :: rest =>
      '(reply, b1) ← step op b;
      '(events, b2) ← run rest b1;
      Some ((op, reply) :: events, b2)
  end.

(** The book a side's limit orders rest in, and the side a market
    order consumes. *)
Definition side_book (s : Side) (b : OrderBook.t (P := P)) : SideBook (P := P) :=
  match s with
  | BUY => OrderBook.bids_ b
  | SELL => OrderBook.asks_ b
  end.

Definition opposite (s : Side) : Side :=
  match s with
  | BUY => SELL
  | SELL => BUY
  end.

Definition with_side_book (s : Side) (m : SideBook (P := P))
    (b : OrderBook.t (P := P)) : OrderBook.t (P := P) :=
  match s with
  | BUY => {| OrderBook.bids_ := m; OrderBook.asks_ := OrderBook.asks_ b |}
  | SELL => {| OrderBook.bids_ := OrderBook.bids_ b; OrderBook.asks_ := m |}
  end.

Definition sum_Z (l : list Z) : Z := foldr Z.add 0 l.

(** [sum(total_quantity over all levels)] of a side book. *)
Definition book_total (m : SideBook (P := P)) : Z :=
  sum_Z ((λ node, total_quantity node.2) <$> m).

(** [sum(match.quantity)] of a match list. *)
Definition matched_total (matches : list (MatchResult P)) : Z :=
  sum_Z (match_quantity <$> matches).

(** The limit quantity added on side [s] by a list of calls. *)
Definition added (s : Side) (ops : list Op) : Z :=
  sum_Z ((λ op, match op with
                | AddLimit s' _ quantity _ _ =>
                    if Side_eqb s s' then to_uint32 quantity else 0
                | Market _ _ _ _ => 0
                end) <$> ops).

(** The quantity matched out of the book of side [s]. *)
Definition consumed (s : Side) (events : list (Op * Reply)) : Z :=
  sum_Z ((λ ev, match ev with
                | (Market s' _ _ _, Matched matches) =>
                    if Side_eqb s (opposite s') then matched_total matches else 0
                | _ => 0
                end) <$> events).

(** The resting quantity at one price of one side (0 when there is no
    level). *)
Definition level_total (s : Side) (p : P) (b : OrderBook.t (P := P)) : Z :=
  match OrderBook.deref (s, p) b with
  | Some level => total_quantity level
  | None => 0
  end.

(** No limit order of the run lifts the resting quantity of its level
    to 2^32 or beyond. *)
Fixpoint adds_fit (ops : list Op) (b : OrderBook.t (P := P)) : bool :=
  match ops with
  | [] => true
  | op :: rest =>
      match op with
      | AddLimit s p quantity _ _ =>
          level_total s p b + to_uint32 quantity <? 2 ^ 32
      | Market _ _ _ _ => true
      end
      && match step op b with
         | Some (_, b') => adds_fit rest b'
         | None => false
         end
  end.

(** Every limit order of the run has a quantity above zero. *)
Definition adds_positive (ops : list Op) : bool :=
  forallb (λ op, match op with
                 | AddLimit _ _ quantity _ _ => 0 <? to_uint32 quantity
                 | Market _ _ _ _ => true
                 end) ops.

Definition price_eqb (a b : P) : bool :=
  negb (price_lt a b) && negb (price_lt b a).

(** The life of the level at price [p] of side [s], told from the calls
    and their replies: [None] while there is no level, otherwise the
    number of limit orders added to it since it was created and the
    number of market orders that filled part of it.  A level is created
    by the first limit order at its price and is gone when a market order
    leaves none behind. *)
Definition tally_step (s : Side) (p : P) (op : Op) (reply : Reply)
    (after : OrderBook.t (P := P)) (c : option (Z * Z)) : option (Z * Z) :=
  match op, reply with
  | AddLimit s' p' _ _ _, _ =>
      if Side_eqb s s' && price_eqb p p' then
        match c with
        | None => Some (1, 0)
        | Some (adds, fills) => Some (adds + 1, fills)
        end
      else c
  | Market s' _ _ _, Matched matches =>
      if Side_eqb s (opposite s') then
        match OrderBook.deref (s, p) after with
        | None => None
        | Some _ =>
            if existsb (λ m, price_eqb p (match_price m)) matches then
              (λ '(adds, fills), (adds, fills + 1)) <$> c
            else c
        end
      else c
  | Market _ _ _ _, Added _ => c
  end.

Fixpoint tally (s : Side) (p : P) (ops : list Op) (b : OrderBook.t (P := P))
    (c : option (Z * Z)) : option (Z * Z) :=
  match ops with
  | [] => c
  | op :: rest =>
      match step op b with
      | Some (reply, b') => tally s p rest b' (tally_step s p op reply b' c)
      | None => c
      end
  end.

(** A level and its tally agree: both absent, or the level's
    [order_count] is the sum of the two tallied numbers as a [uint32_t]. *)
Definition count_agrees (level : option (PriceLevel P)) (c : option (Z * Z)) : Prop :=
  match level, c with
  | Some l, Some (adds, fills) => order_count l = to_uint32 (adds + fills)
  | None, None => True
  | _, _ => False
  end.
End Trace.
End Trace.

(** ** What an identifier reads as *)

(** The characters before the first NUL. *)
Fixpoint until_NUL (l : list ascii) : list ascii :=
  match l with
  | [] => []
  | c :: rest => if Ascii.eqb c NUL then [] else c :: until_NUL rest
  end.

(** ** Runs of the ring

    One thread that calls [try_enqueue] and [try_dequeue] in some order,
    and the bounded queue the spec calls the ingress ring. *)

Section RingRuns.
Context {T : Type}.

Inductive RingOp : Type :=
| Enqueue (x : T)
| Dequeue.

Inductive RingReply : Type :=
| Enqueued (ok : bool)
| Dequeued (x : option T).

Definition ring_step (N : nat) (op : RingOp) (q : LockFreeQueue.t (T := T))
    : option (RingReply * LockFreeQueue.t (T := T)) :=
  match op with
  | Enqueue x =>
      '(ok, q') ← LockFreeQueue.try_enqueue N x q; Some (Enqueued ok, q')
  | Dequeue =>
      '(x, q') ← LockFreeQueue.try_dequeue N q; Some (Dequeued x, q')
  end.

Fixpoint ring_run (N : nat) (ops : list RingOp) (q : LockFreeQueue.t (T := T))
    : option (list RingReply * LockFreeQueue.t (T := T)) :=
  match ops with
  | [] => Some ([], q)
  | op :: rest =>
      '(reply, q1) ← ring_step N op q;
      '(replies, q2) ← ring_run N rest q1;
      Some (reply :: replies, q2)
  end.

(** The reply of an attempt that did nothing. *)
Definition refusal (op : RingOp) : RingReply :=
  match op with
  | Enqueue _ => Enqueued false
  | Dequeue => Dequeued None
  end.

(** The slot of a ticket. *)
Definition slot_of (N : nat) (ticket : Z) : nat :=
  Z.to_nat (Z.land ticket (LockFreeQueue.BUFFER_MASK N)).

(** The shape of a ring of [N] slots: the vector has [N] elements and
    the two counters are [uint64_t] values. *)
Definition ring_shape (N : nat) (q : LockFreeQueue.t (T := T)) : Prop :=
  length (LockFreeQueue.buffer_ q) = N
  ∧ 0 <= LockFreeQueue.head_ q < 2 ^ 64
  ∧ 0 <= LockFreeQueue.tail_ q < 2 ^ 64.

(** A first-in first-out queue of at most [N] elements. *)
Definition fifo_step (N : nat) (op : RingOp) (l : list T) : RingReply * list T :=
  match op with
  | Enqueue x =>
      if decide (length l < N)%nat then (Enqueued true, l ++ [x])
      else (Enqueued false, l)
  | Dequeue =>
      match l with
      | [] => (Dequeued None, [])
      | y :: rest => (Dequeued (Some y), rest)
      end
  end.

Fixpoint fifo_run (N : nat) (ops : list RingOp) (l : list T)
    : list RingReply * list T :=
  match ops with
  | [] => ([], l)
  | op :: rest =>
      let '(reply, l1) := fifo_step N op l in
      let '(replies, l2) := fifo_run N rest l1 in
      (reply :: replies, l2)
  end.

(** The ring [q] holds the queue [l]: the tickets from [head_] up to
    [tail_] are the elements of [l] in order, each in its slot and
    published (sequence = ticket + 1); the slots of the next tickets, up
    to one lap from [head_], are free for them (sequence = ticket). *)
Definition ring_holds (N : nat) (q : LockFreeQueue.t (T := T)) (l : list T) : Prop :=
  length (LockFreeQueue.buffer_ q) = N
  ∧ 0 <= LockFreeQueue.head_ q
  ∧ LockFreeQueue.tail_ q = LockFreeQueue.head_ q + Z.of_nat (length l)
  ∧ (length l ≤ N)%nat
  ∧ (∀ j : nat, (j < length l)%nat →
       ∃ node,
         LockFreeQueue.buffer_ q !! slot_of N (LockFreeQueue.head_ q + Z.of_nat j)
           = Some node
         ∧ LockFreeQueue.sequence node = LockFreeQueue.head_ q + Z.of_nat j + 1
         ∧ l !! j = Some (LockFreeQueue.data node))
  ∧ (∀ j : nat, (length l ≤ j < N)%nat →
       ∃ node,
         LockFreeQueue.buffer_ q !! slot_of N (LockFreeQueue.head_ q + Z.of_nat j)
           = Some node
         ∧ LockFreeQueue.sequence node = LockFreeQueue.head_ q + Z.of_nat j).
End RingRuns.

(** ** The batch updater against a snapshot

    [process_quantity_updates] reads every level before it writes any.
    The loop below is the scalar loop with that one difference: the record
    it updates for pair [i] is the one handle [i] pointed to on entry. *)

Section Snapshot.
Context {P Mem Ptr : Type}.
Variable deref : Ptr → Mem → option (PriceLevel P).
Variable assign : Ptr → PriceLevel P → Mem → Mem.

Definition snapshot_body (levels : list (option Ptr)) (deltas : list Z)
    (entry : Mem) (i : nat) (m : Mem) : option Mem :=
  handle ← levels !! i;
  delta ← deltas !! i;
  match handle with
  | Some p =>
      level ← deref p entry; Some (assign p (update_quantity delta level) m)
  | None => Some m
  end.

Definition snapshot_quantity_updates (levels : list (option Ptr))
    (deltas : list Z) (count : nat) (m : Mem) : option Mem :=
  for_loop count (snapshot_body levels deltas m) m.
End Snapshot.

(** ** Batches of limit orders

    The handle [process_limit_orders_batch] takes for an order, the
    [try_emplace] of its level, and the scalar add of the order. *)

Section Batches.
Context {P : Type} `{PriceType P}.

Definition handle_of (order : Order P) : OrderBook.Handle (P := P) :=
  (side order, price order).

Definition emplace_order (b : OrderBook.t (P := P)) (order : Order P)
    : OrderBook.t (P := P) :=
  OrderBook.emplace_level (side order) (price order) b.

Definition add_order (b : OrderBook.t (P := P)) (order : Order P)
    : OrderBook.t (P := P) :=
  add_scalar (side order) (price order) (quantity order) b.
End Batches.

(** ** Integer-valued prices and concrete runs

    The concrete runs use prices such as 100.0 and 101.0, which compare as
    the integers 100 and 101 do. *)

Definition Z_ltb_trans (a b c : Z) (Hab : (a <? b) = true) (Hbc : (b <? c) = true)
    : (a <? c) = true :=
  proj2 (Z.ltb_lt a c)
    (Z.lt_trans a b c (proj1 (Z.ltb_lt a b) Hab) (proj1 (Z.ltb_lt b c) Hbc)).

Definition Z_ltb_connex (a b : Z) (Hab : (a <? b) = false) (Hba : (b <? a) = false)
    : a = b :=
  Z.le_antisymm a b (proj1 (Z.ltb_ge b a) Hba) (proj1 (Z.ltb_ge a b) Hab).

#[export] Instance Z_PriceOrder : PriceOrder Z := {|
  price_type := {| price_zero := 0; price_lt := Z.ltb |};
  price_lt_irrefl := Z.ltb_irrefl;
  price_lt_trans := Z_ltb_trans;
  price_lt_connex := Z_ltb_connex
|}.

(** Prices with a NaN: integer-valued prices and one more value, for which
    every comparison is false, as [operator<] on [double] has it. *)
Inductive NanPrice : Type := Num (z : Z) | NaN.

Definition NanPrice_lt (a b : NanPrice) : bool :=
  match a, b with
  | Num x, Num y => x <? y
  | _, _ => false
  end.

#[export] Instance NanPrice_PriceType : PriceType NanPrice := {|
  price_zero := Num 0;
  price_lt := NanPrice_lt
|}.

(** Three asks and a bid, a market buy that sweeps a level and a half,
    and a market sell. *)
Definition sweep_run : list (Trace.Op (P := Z)) :=
  [Trace.AddLimit SELL 100 500 "A" 1; Trace.AddLimit SELL 101 500 "B" 2;
   Trace.AddLimit SELL 102 500 "C" 3; Trace.AddLimit BUY 99 250 "D" 4;
   Trace.Market BUY 800 "M" 5; Trace.Market SELL 100 "N" 6].

(** Two limit buys of 2^31 at one price. *)
Definition overflow_run : list (Trace.Op (P := Z)) :=
  [Trace.AddLimit BUY 100 2147483648 "A" 1; Trace.AddLimit BUY 100 2147483648 "B" 2].

(** [n] limit buys of quantity 1 at one price, and the book they build. *)
Definition many_adds (n : nat) : list (Trace.Op (P := Z)) :=
  replicate n (Trace.AddLimit BUY 100 1 "A" 0).

Definition book_after_adds (n : Z) : OrderBook.t (P := Z) :=
  {| OrderBook.bids_ := [(100, mkPriceLevel 100 (to_uint32 n) (to_uint32 n) 0)];
     OrderBook.asks_ := [] |}.

(** A ring of four slots sequenced 0, 1, 2, 3, and a run that fills it,
    overfills it and drains it. *)
Definition ready_ring : LockFreeQueue.t (T := nat) :=
  {| LockFreeQueue.head_ := 0; LockFreeQueue.tail_ := 0;
     LockFreeQueue.buffer_ :=
       [LockFreeQueue.mkNode 0%nat 0; LockFreeQueue.mkNode 0%nat 1;
        LockFreeQueue.mkNode 0%nat 2; LockFreeQueue.mkNode 0%nat 3] |}.

Definition ring_ops : list (RingOp (T := nat)) :=
  [Dequeue; Enqueue 1%nat; Enqueue 2%nat; Dequeue; Enqueue 3%nat; Enqueue 4%nat;
   Enqueue 5%nat; Enqueue 6%nat; Dequeue; Dequeue; Dequeue; Dequeue; Dequeue].

(** * Properties *)

(** ** Fixed-width arithmetic *)

Lemma to_uint32_range (z : Z) : is_uint32 (to_uint32 z).
Proof. unfold is_uint32, to_uint32. apply Z.mod_pos_bound. lia. Qed.

Lemma to_uint32_id (z : Z) : is_uint32 z → to_uint32 z = z.
Proof. unfold is_uint32, to_uint32. intros Hz. apply Z.mod_small. lia. Qed.

Lemma to_uint32_idemp (z : Z) : to_uint32 (to_uint32 z) = to_uint32 z.
Proof. apply to_uint32_id, to_uint32_range. Qed.

Lemma to_uint32_of_int32 (z : Z) : to_uint32 (to_int32 z) = to_uint32 z.
Proof.
  unfold to_uint32, to_int32.
  rewrite <- Zminus_mod_idemp_l, <- Z.add_mod_idemp_l by lia.
  rewrite Z.mod_mod by lia.
  rewrite Z.add_mod_idemp_l, Zminus_mod_idemp_l by lia.
  f_equal. lia.
Qed.

Lemma to_uint32_add_l (a d : Z) : to_uint32 (to_uint32 a + d) = to_uint32 (a + d).
Proof. unfold to_uint32. apply Z.add_mod_idemp_l. lia. Qed.

Lemma to_uint32_add_r (a d : Z) : to_uint32 (a + to_uint32 d) = to_uint32 (a + d).
Proof. unfold to_uint32. apply Z.add_mod_idemp_r. lia. Qed.

Lemma to_uint32_add_int32 (a d : Z) : to_uint32 (a + to_int32 d) = to_uint32 (a + d).
Proof. rewrite <- to_uint32_add_r, to_uint32_of_int32. apply to_uint32_add_r. Qed.

(** The delta of a fill: [total_quantity += -static_cast<int32_t>(matched)]
    takes [matched] off the level, for every [matched] the level holds. *)
Lemma to_uint32_sub_matched (total matched : Z) :
  0 <= matched <= total → total < 2 ^ 32 →
  to_uint32 (total + to_int32 (- to_int32 matched)) = total - matched.
Proof.
  intros Hm Ht.
  rewrite to_uint32_add_int32.
  unfold to_uint32.
  rewrite <- Z.add_mod_idemp_r by lia.
  replace ((- to_int32 matched) mod 2 ^ 32) with ((- matched) mod 2 ^ 32).
  - rewrite Z.add_mod_idemp_r by lia. apply Z.mod_small. lia.
  - unfold to_int32.
    replace (- ((matched + 2 ^ 31) mod 2 ^ 32 - 2 ^ 31))
      with (2 ^ 31 - (matched + 2 ^ 31) mod 2 ^ 32) by lia.
    rewrite Zminus_mod_idemp_r. f_equal. lia.
Qed.

(** ** lock_free_queue.h *)

Section QueueFacts.
Context {T : Type}.
Import LockFreeQueue.

Lemma new_buffer (N : nat) (d : T) :
  buffer_ (new N d) = replicate N {| data := d; sequence := EMPTY_SEQUENCE |}.
Proof. unfold new. simpl. by rewrite fmap_replicate. Qed.

(** The protocol of [try_enqueue] itself is sound: a slot whose sequence
    is the producer's ticket is claimed and published. *)
Lemma try_enqueue_ready_slot (N : nat) (x : T) (q : t) (node : Node) :
  buffer_ q !! Z.to_nat (Z.land (tail_ q) (BUFFER_MASK N)) = Some node →
  sequence node = tail_ q →
  ∃ q', try_enqueue N x q = Some (true, q')
        ∧ tail_ q' = to_uint64 (tail_ q + 1).
Proof.
  intros Hslot Hseq. unfold try_enqueue. rewrite Hslot. simpl.
  rewrite Hseq, Z.eqb_refl. eauto.
Qed.
End QueueFacts.

(** C2 (code bug).  The constructor stores [EMPTY_SEQUENCE] (2^64 - 1) in
    every slot instead of the slot's index, so on a freshly constructed
    ring of any capacity [N >= 1], which holds nothing and is not full,
    [try_enqueue] finds sequence 2^64 - 1 where it expects ticket 0: it
    returns false and leaves the ring as it was. *)
Theorem try_enqueue_fresh_ring_returns_false :
  ∀ (T : Type) (n : nat) (d x : T),
    let N := S n in
    LockFreeQueue.occupancy (LockFreeQueue.new N d) = 0
    ∧ ¬ LockFreeQueue.is_full N (LockFreeQueue.new N d)
    ∧ LockFreeQueue.sequence <$> LockFreeQueue.buffer_ (LockFreeQueue.new N d) !! 0%nat
      = Some (2 ^ 64 - 1)
    ∧ LockFreeQueue.try_enqueue N x (LockFreeQueue.new N d)
      = Some (false, LockFreeQueue.new N d).
Proof.
  intros T n d x N. subst N.
  split; [reflexivity|].
  split; [unfold LockFreeQueue.is_full, LockFreeQueue.occupancy; simpl; lia|].
  split; [rewrite new_buffer; reflexivity|].
  unfold LockFreeQueue.try_enqueue.
  rewrite new_buffer.
  change (LockFreeQueue.tail_ (LockFreeQueue.new (S n) d)) with 0.
  rewrite Z.land_0_l. simpl. reflexivity.
Qed.

(** A fresh ring stays as it is: no later attempt to enqueue or dequeue
    succeeds either. *)
Lemma fresh_ring_try_dequeue (T : Type) (n : nat) (d : T) :
  LockFreeQueue.try_dequeue (S n) (LockFreeQueue.new (S n) d)
  = Some (None, LockFreeQueue.new (S n) d).
Proof.
  unfold LockFreeQueue.try_dequeue. rewrite new_buffer.
  change (LockFreeQueue.head_ (LockFreeQueue.new (S n) d)) with 0.
  rewrite Z.land_0_l. simpl. reflexivity.
Qed.

(** On a ring of four slots. *)
Example try_enqueue_fresh_ring_of_four :
  LockFreeQueue.try_enqueue 4 7 (LockFreeQueue.new 4 0)
  = Some (false, LockFreeQueue.new 4 0).
Proof. reflexivity. Qed.

(** ** order_types.h: BatchOperations *)

Lemma lor_high_word (hi lo k : Z) :
  0 <= lo < 2 ^ 32 →
  Z.lor (hi * 2 ^ 32 + lo) (k * 2 ^ 32) = Z.lor hi k * 2 ^ 32 + lo.
Proof.
  intros Hlo.
  assert (Hland : ∀ h, Z.land (Z.shiftl h 32) lo = 0).
  { intros h. apply Z.bits_inj'. intros n Hn.
    rewrite Z.land_spec, Z.bits_0.
    destruct (Z.lt_ge_cases n 32) as [Hlt|Hge].
    - rewrite Z.shiftl_spec_low by lia. reflexivity.
    - rewrite (Z.bits_above_log2 lo n); [apply andb_false_r | lia |].
      destruct (Z.eq_dec lo 0) as [->|Hne]; [simpl; lia|].
      apply Z.log2_lt_pow2; try lia.
      apply Z.lt_le_trans with (2 ^ 32); [lia|].
      apply Z.pow_le_mono_r; lia. }
  assert (Hsplit : ∀ h, h * 2 ^ 32 + lo = Z.lor (Z.shiftl h 32) lo).
  { intros h. rewrite <- Z.lxor_lor by apply Hland.
    rewrite <- Z.add_nocarry_lxor by apply Hland.
    rewrite Z.shiftl_mul_pow2 by lia. reflexivity. }
  rewrite !Hsplit.
  rewrite <- (Z.shiftl_mul_pow2 k 32) by lia.
  rewrite Z.shiftl_lor.
  rewrite <- !Z.lor_assoc. f_equal. apply Z.lor_comm.
Qed.

Lemma update_word_nonneg (delta : Z) :
  0 <= delta < 2 ^ 31 →
  vcreate_u32 (Z.lor (to_uint64 delta) (Z.shiftl 1 32)) = (delta, 1).
Proof.
  intros Hd. unfold vcreate_u32, to_uint64.
  rewrite (Z.mod_small delta) by lia.
  change (Z.shiftl 1 32) with (1 * 2 ^ 32).
  replace delta with (0 * 2 ^ 32 + delta) at 1 2 by lia.
  rewrite lor_high_word by lia.
  change (Z.lor 0 1) with 1.
  f_equal.
  - rewrite Z.add_comm, Z.mod_add by lia. apply Z.mod_small. lia.
  - rewrite Z.add_comm, Z.div_add by lia. rewrite Z.div_small by lia. lia.
Qed.

Lemma update_word_neg (delta : Z) :
  - 2 ^ 31 <= delta < 0 →
  vcreate_u32 (Z.lor (to_uint64 delta) (Z.shiftl 1 32)) = (2 ^ 32 + delta, 2 ^ 32 - 1).
Proof.
  intros Hd. unfold vcreate_u32, to_uint64.
  replace (delta mod 2 ^ 64) with ((2 ^ 32 - 1) * 2 ^ 32 + (2 ^ 32 + delta)).
  2:{ apply Z.mod_unique with (q := -1); lia. }
  change (Z.shiftl 1 32) with (1 * 2 ^ 32).
  rewrite lor_high_word by lia.
  change (Z.lor (2 ^ 32 - 1) 1) with (2 ^ 32 - 1).
  f_equal.
  - rewrite Z.add_comm, Z.mod_add by lia. apply Z.mod_small. lia.
  - rewrite Z.add_comm, Z.div_add by lia. rewrite Z.div_small by lia. lia.
Qed.

Lemma for_loop_S {S : Type} (k : nat) (body : nat → S → option S) (s : S) :
  for_loop (Datatypes.S k) body s = for_loop k body s ≫= body k.
Proof. unfold for_loop. rewrite seq_S, foldl_app. reflexivity. Qed.

Section HeapBatch.
Context {P : Type}.
Implicit Types (m : list (PriceLevel P)) (levels : list (option nat)).

Lemma load_loop levels m (junk_q junk_c : list Z) (count : nat) :
  length levels = 4%nat → length junk_q = 4%nat → length junk_c = 4%nat →
  (count ≤ 4)%nat → handles_valid levels count m →
  ∃ quantities counts,
    for_loop count (load_body heap_deref levels m) (junk_q, junk_c)
      = Some (quantities, counts)
    ∧ length quantities = 4%nat ∧ length counts = 4%nat
    ∧ ∀ i, (i < count)%nat →
        quantities !! i = Some (lane total_quantity levels m i)
        ∧ counts !! i = Some (lane order_count levels m i).
Proof.
  intros Hlev Hq Hc Hle Hvalid.
  induction count as [|k IH].
  { exists junk_q, junk_c. repeat split; try done; lia. }
  destruct IH as (Q & C & Hrun & HQ & HC & Hlanes); [lia | |].
  { intros i p Hi. apply Hvalid. lia. }
  rewrite for_loop_S, Hrun. simpl.
  destruct (decide (k < 4)%nat) as [_|]; [|lia].
  destruct (lookup_lt_is_Some_2 levels k) as [h Hh]; [lia|].
  rewrite Hh. simpl.
  assert (Hother : ∀ (l : list Z) (x : Z) i, (i < k)%nat → <[k := x]> l !! i = l !! i).
  { intros l x i Hi. apply list_lookup_insert_ne. lia. }
  destruct h as [p|].
  - destruct (Hvalid k p) as [level Hlevel]; [lia | done |].
    unfold heap_deref. rewrite Hlevel. simpl.
    eexists _, _. split; [reflexivity|].
    rewrite !length_insert. repeat split; try done.
    + destruct (decide (i = k)) as [->|Hne].
      * rewrite list_lookup_insert_eq by lia. unfold lane. by rewrite Hh, Hlevel.
      * rewrite Hother by lia. apply Hlanes. lia.
    + destruct (decide (i = k)) as [->|Hne].
      * rewrite list_lookup_insert_eq by lia. unfold lane. by rewrite Hh, Hlevel.
      * rewrite Hother by lia. apply Hlanes. lia.
  - eexists _, _. split; [reflexivity|].
    rewrite !length_insert. repeat split; try done.
    + destruct (decide (i = k)) as [->|Hne].
      * rewrite list_lookup_insert_eq by lia. unfold lane. by rewrite Hh.
      * rewrite Hother by lia. apply Hlanes. lia.
    + destruct (decide (i = k)) as [->|Hne].
      * rewrite list_lookup_insert_eq by lia. unfold lane. by rewrite Hh.
      * rewrite Hother by lia. apply Hlanes. lia.
Qed.

Lemma update_quantity_lanes (delta q c : Z) (level : PriceLevel P) :
  q = to_uint32 (total_quantity level + to_uint32 delta) →
  c = to_uint32 (order_count level + 1) →
  set_order_count c (set_total_quantity q level) = update_quantity delta level.
Proof.
  intros -> ->. unfold update_quantity, set_order_count, set_total_quantity. simpl.
  by rewrite to_uint32_add_r.
Qed.

Lemma store_loop levels (deltas quantities counts : list Z) m (count : nat) :
  length levels = 4%nat → length deltas = 4%nat →
  length quantities = 4%nat → length counts = 4%nat →
  (count ≤ 4)%nat → handles_valid levels count m → handles_distinct levels count →
  (∀ i, (i < count)%nat →
     quantities !! i = Some (lane total_quantity levels m i)
     ∧ counts !! i = Some (lane order_count levels m i)) →
  ∃ m',
    for_loop count
      (store_body heap_deref heap_assign levels
         (vaddq_u32 quantities (vreinterpretq_u32_s32 deltas))
         (vaddq_u32 counts (vdupq_n_u32 1))) m = Some m'
    ∧ scalar_quantity_updates heap_deref heap_assign levels deltas count m = Some m'
    ∧ length m' = length m
    ∧ ∀ p, (∀ i, (i < count)%nat → levels !! i ≠ Some (Some p)) → m' !! p = m !! p.
Proof.
  intros Hlev Hdel HQ HC Hle Hvalid Hdistinct Hlanes.
  unfold scalar_quantity_updates.
  induction count as [|k IH].
  { exists m. repeat split; done. }
  destruct IH as (mk & Hstore & Hscalar & Hlen & Hframe); [lia | | | |].
  { intros i p Hi. apply Hvalid. lia. }
  { intros i j p Hi Hj. apply Hdistinct; lia. }
  { intros i Hi. apply Hlanes. lia. }
  rewrite !for_loop_S, Hstore, Hscalar. simpl.
  unfold store_body, scalar_body.
  destruct (decide (k < 4)%nat) as [_|]; [|lia].
  destruct (lookup_lt_is_Some_2 levels k) as [h Hh]; [lia|].
  destruct (lookup_lt_is_Some_2 deltas k) as [d Hd]; [lia|].
  rewrite Hh, Hd. simpl.
  destruct h as [p|]; simpl.
  2:{ exists mk. repeat split; try done. intros p Hp. apply Hframe.
      intros i Hi. apply Hp. lia. }
  destruct (Hvalid k p) as [level Hlevel]; [lia | done |].
  assert (Hmk : mk !! p = Some level).
  { rewrite Hframe; [done|]. intros i Hi Hip.
    assert (i = k) by (apply (Hdistinct i k p); [lia | lia | done | done]). lia. }
  assert (Hp : (p < length mk)%nat) by (apply lookup_lt_is_Some; eauto).
  destruct (Hlanes k) as [Hqk Hck]; [lia|].
  unfold vaddq_u32, vreinterpretq_u32_s32, vdupq_n_u32.
  rewrite !lookup_zip_with, Hqk, Hck, list_lookup_fmap, Hd.
  rewrite lookup_replicate_2 by lia. simpl.
  unfold heap_deref, heap_assign. rewrite Hmk. simpl.
  rewrite list_lookup_insert_eq by done. simpl.
  rewrite list_insert_insert_eq.
  unfold lane. rewrite Hh, Hlevel. simpl.
  rewrite (update_quantity_lanes d) by reflexivity.
  eexists. split; [reflexivity|]. split; [reflexivity|].
  split; [by rewrite length_insert|].
  intros p' Hp'.
  rewrite list_lookup_insert_ne.
  - apply Hframe. intros i Hi. apply Hp'. lia.
  - intros ->. by apply (Hp' k); [lia|].
Qed.

(** On pairwise distinct, valid handles the four-wide path and the
    scalar loop agree, for every int32 delta and whatever the local
    arrays held on entry. *)
Lemma process_quantity_updates_distinct levels (deltas junk_q junk_c : list Z)
    m (count : nat) :
  length levels = 4%nat → length deltas = 4%nat →
  length junk_q = 4%nat → length junk_c = 4%nat →
  (count ≤ 4)%nat → handles_valid levels count m → handles_distinct levels count →
  ∃ m',
    process_quantity_updates_from heap_deref heap_assign junk_q junk_c
      levels deltas count m = Some m'
    ∧ scalar_quantity_updates heap_deref heap_assign levels deltas count m = Some m'.
Proof.
  intros Hlev Hdel Hq Hc Hle Hvalid Hdistinct.
  destruct (load_loop levels m junk_q junk_c count) as (Q & C & Hload & HQ & HC & Hlanes);
    try done.
  destruct (store_loop levels deltas Q C m count) as (m' & Hstore & Hscalar & _);
    try done.
  exists m'. split; [|done].
  unfold process_quantity_updates_from. rewrite Hload. simpl. exact Hstore.
Qed.
End HeapBatch.

Section HeapSingle.
Context {P : Type}.
Implicit Types (m : list (PriceLevel P)).

(** [process_single_update] with a delta that is not negative is the
    scalar update. *)
Lemma process_single_update_nonneg (p : nat) (delta : Z) m (level : PriceLevel P) :
  m !! p = Some level → 0 <= delta < 2 ^ 31 →
  process_single_update heap_deref heap_assign (Some p) delta m
  = Some (<[p := update_quantity delta level]> m).
Proof.
  intros Hlevel Hdelta. unfold process_single_update, heap_deref, heap_assign.
  rewrite Hlevel. cbn [mbind option_bind].
  rewrite update_word_nonneg by done. reflexivity.
Qed.

(** With a negative delta the cast to [uint64_t] sign-extends: the high
    lane of the update word is 2^32 - 1 instead of 1, and [order_count]
    goes down by one where the scalar update takes it up by one. *)
Lemma process_single_update_neg (p : nat) (delta : Z) m (level : PriceLevel P) :
  m !! p = Some level → - 2 ^ 31 <= delta < 0 →
  process_single_update heap_deref heap_assign (Some p) delta m
  = Some (<[p := {| level_price := level_price level;
                    total_quantity := to_uint32 (total_quantity level + delta);
                    order_count := to_uint32 (order_count level - 1);
                    padding := padding level |}]> m).
Proof.
  intros Hlevel Hdelta. unfold process_single_update, heap_deref, heap_assign.
  rewrite Hlevel. cbn [mbind option_bind].
  rewrite update_word_neg by done.
  unfold vadd_u32, set_order_count, set_total_quantity. simpl.
  assert (Hq : to_uint32 (total_quantity level + (2 ^ 32 + delta))
               = to_uint32 (total_quantity level + delta)).
  { unfold to_uint32.
    replace (total_quantity level + (2 ^ 32 + delta))
      with (total_quantity level + delta + 1 * 2 ^ 32) by lia.
    apply Z.mod_add. lia. }
  assert (Hc : to_uint32 (order_count level + (2 ^ 32 - 1))
               = to_uint32 (order_count level - 1)).
  { unfold to_uint32.
    replace (order_count level + (2 ^ 32 - 1))
      with (order_count level - 1 + 1 * 2 ^ 32) by lia.
    apply Z.mod_add. lia. }
  change (4294967296 + delta) with (2 ^ 32 + delta) in *.
  change 4294967295 with (2 ^ 32 - 1) in *.
  rewrite ?Hq, ?Hc. reflexivity.
Qed.
End HeapSingle.

(** C9 (code bug).  One level with 10 resting and one order counted, and a
    delta of -1: the scalar definition gives quantity 9 and count 2;
    [process_single_update] gives quantity 9 and count 0, because
    [(uint64_t)delta] sign-extends into the lane that should hold 1.  The
    four-wide path agrees with the scalar definition here. *)
Theorem process_single_update_negative_delta_count :
  let level := mkPriceLevel 100 10 1 0 in
  scalar_quantity_updates heap_deref heap_assign [Some 0%nat] [-1] 1 [level]
  = Some [mkPriceLevel 100 9 2 0]
  ∧ process_quantity_updates heap_deref heap_assign
      [Some 0%nat; None; None; None] [-1; 0; 0; 0] 1 [level]
    = Some [mkPriceLevel 100 9 2 0]
  ∧ process_single_update heap_deref heap_assign (Some 0%nat) (-1) [level]
    = Some [mkPriceLevel 100 9 0 0].
Proof. repeat split; reflexivity. Qed.

(** Two handles of one batch on the same level: the four-wide path loads
    the old quantity into both lanes and the second store overwrites the
    first, so one delta and one count are lost against the scalar loop. *)
Example process_quantity_updates_aliased_handles :
  let level := mkPriceLevel 100 10 1 0 in
  scalar_quantity_updates heap_deref heap_assign
    [Some 0%nat; Some 0%nat; None; None] [5; 7; 0; 0] 2 [level]
  = Some [mkPriceLevel 100 22 3 0]
  ∧ process_quantity_updates heap_deref heap_assign
      [Some 0%nat; Some 0%nat; None; None] [5; 7; 0; 0] 2 [level]
    = Some [mkPriceLevel 100 17 2 0].
Proof. split; reflexivity. Qed.

(** X2.  On valid handles no two of which point to the same level, the
    four-wide path returns, and returns what the scalar loop returns, for
    every batch of up to four pairs and every delta. *)
Theorem four_wide_update_is_scalar_on_distinct_handles :
  ∀ (P : Type) (levels : list (option nat)) (deltas : list Z)
    (m : list (PriceLevel P)) (count : nat),
    length levels = 4%nat → length deltas = 4%nat → (count ≤ 4)%nat →
    handles_valid levels count m → handles_distinct levels count →
    is_Some (process_quantity_updates heap_deref heap_assign levels deltas count m)
    ∧ process_quantity_updates heap_deref heap_assign levels deltas count m
      = scalar_quantity_updates heap_deref heap_assign levels deltas count m.
Proof.
  intros P levels deltas m count Hlev Hdel Hle Hvalid Hdistinct.
  destruct (process_quantity_updates_distinct levels deltas
              (replicate 4 0) (replicate 4 0) m count)
    as (m' & Hwide & Hscalar); try done.
  unfold process_quantity_updates. rewrite Hwide, Hscalar. eauto.
Qed.

Lemma four_wide_update_is_scalar_witness :
  let levels := [Some 1%nat; None; Some 0%nat; Some 2%nat] in
  let deltas := [500; 7; -3; 2147483647] in
  let m := [mkPriceLevel 100 10 1 0; mkPriceLevel 101 20 2 0;
            mkPriceLevel 102 4294967295 3 0] in
  is_Some (process_quantity_updates heap_deref heap_assign levels deltas 4 m)
  ∧ process_quantity_updates heap_deref heap_assign levels deltas 4 m
    = scalar_quantity_updates heap_deref heap_assign levels deltas 4 m.
Proof.
  apply (four_wide_update_is_scalar_on_distinct_handles Z); try reflexivity.
  - intros i p Hi. destruct i as [|[|[|[|i]]]]; simpl; intros [= <-]; eauto; lia.
  - intros i j p Hi Hj.
    destruct i as [|[|[|[|i]]]], j as [|[|[|[|j]]]]; simpl;
      try lia; try done; intros [= <-]; done.
Defined.

(** X5.  [process_single_update] on a level: with a delta from 0 to
    2^31 - 1 it is [update_quantity]; with a negative delta the quantity is
    the one [update_quantity] gives and the count goes down by one. *)
Theorem process_single_update_by_sign :
  ∀ (P : Type) (p : nat) (delta : Z) (m : list (PriceLevel P)) (level : PriceLevel P),
    m !! p = Some level → is_int32 delta →
    process_single_update heap_deref heap_assign (Some p) delta m
    = Some (<[p := if delta <? 0
                   then set_order_count (to_uint32 (order_count level - 1))
                          (update_quantity delta level)
                   else update_quantity delta level]> m).
Proof.
  intros P p delta m level Hlevel Hdelta. unfold is_int32 in Hdelta.
  destruct (delta <? 0) eqn:Hsign.
  - apply Z.ltb_lt in Hsign. by rewrite (process_single_update_neg p delta m level) by (done || lia).
  - apply Z.ltb_ge in Hsign. by rewrite (process_single_update_nonneg p delta m level) by (done || lia).
Qed.

Lemma process_single_update_by_sign_witness :
  process_single_update heap_deref heap_assign (Some 1%nat) (-300)
    [mkPriceLevel 100 10 1 0; mkPriceLevel 101 500 2 0]
  = Some (<[1%nat := set_order_count (to_uint32 (2 - 1))
                       (update_quantity (-300) (mkPriceLevel 101 500 2 0))]>
            [mkPriceLevel 100 10 1 0; mkPriceLevel 101 500 2 0]).
Proof.
  apply (process_single_update_by_sign Z 1%nat (-300)
           [mkPriceLevel 100 10 1 0; mkPriceLevel 101 500 2 0]
           (mkPriceLevel 101 500 2 0)).
  - reflexivity.
  - unfold is_int32. lia.
Defined.

(** ** order_book.h: the side book and the limit add *)

Section SideBookFacts.
Context {P : Type} `{PriceOrder P}.
Implicit Types (m : SideBook (P := P)) (k : P) (v : PriceLevel P).

Lemma price_lt_asym (a b : P) : price_lt a b = true → price_lt b a = false.
Proof.
  intros Hab. destruct (price_lt b a) eqn:Hba; [|done].
  by rewrite <- (price_lt_irrefl a), (price_lt_trans a b a).
Qed.

(** Three-way comparison of two keys, as the container sees them. *)
Lemma price_cases (a b : P) :
  (price_lt a b = true ∧ price_lt b a = false)
  ∨ (price_lt a b = false ∧ price_lt b a = true)
  ∨ (a = b ∧ price_lt a b = false ∧ price_lt b a = false).
Proof.
  destruct (price_lt a b) eqn:Hab, (price_lt b a) eqn:Hba.
  - apply price_lt_asym in Hab. congruence.
  - by left.
  - right; by left.
  - right; right. split; [by apply price_lt_connex|done].
Qed.

Lemma map_find_try_emplace k v m :
  map_find k (map_try_emplace k v m) = Some (default v (map_find k m)).
Proof.
  induction m as [|[k' v'] rest IH]; simpl.
  - by rewrite price_lt_irrefl.
  - destruct (price_lt k k') eqn:Hlt; simpl.
    + by rewrite price_lt_irrefl.
    + destruct (price_lt k' k) eqn:Hgt; simpl; rewrite Hlt, Hgt; done.
Qed.

Lemma map_find_assign k v m :
  is_Some (map_find k m) → map_find k (map_assign k v m) = Some v.
Proof.
  induction m as [|[k' v'] rest IH]; simpl; intros [w Hw]; [done|].
  destruct (price_lt k k') eqn:Hlt; [done|].
  destruct (price_lt k' k) eqn:Hgt; simpl; rewrite Hlt, Hgt; eauto.
Qed.

Lemma map_assign_assign k v w m :
  map_assign k v (map_assign k w m) = map_assign k v m.
Proof.
  induction m as [|[k' v'] rest IH]; simpl; [done|].
  destruct (price_lt k k') eqn:Hlt; simpl; [by rewrite Hlt|].
  destruct (price_lt k' k) eqn:Hgt; simpl; rewrite Hlt, Hgt; [by rewrite IH|done].
Qed.

(** The add as the code performs it, on one side book: emplace, read the
    node, write the updated record back. *)
Lemma map_assign_try_emplace k q m :
  map_assign k (update_quantity q (default (fresh_level k) (map_find k m)))
    (map_try_emplace k (fresh_level k) m)
  = level_add k q m.
Proof.
  induction m as [|[k' v'] rest IH]; simpl.
  - by rewrite price_lt_irrefl.
  - destruct (price_lt k k') eqn:Hlt; simpl.
    + by rewrite price_lt_irrefl.
    + destruct (price_lt k' k) eqn:Hgt; simpl; rewrite Hlt, Hgt; [|done].
      f_equal. apply IH.
Qed.

Lemma deref_emplace_level (s : Side) k (b : OrderBook.t (P := P)) :
  OrderBook.deref (s, k) (OrderBook.emplace_level s k b)
  = Some (default (fresh_level k) (map_find k (Trace.side_book s b))).
Proof. destruct s; apply map_find_try_emplace. Qed.

Lemma deref_assign (s : Side) k v (b : OrderBook.t (P := P)) :
  is_Some (OrderBook.deref (s, k) b) →
  OrderBook.deref (s, k) (OrderBook.assign (s, k) v b) = Some v.
Proof. destruct s; apply map_find_assign. Qed.

Lemma assign_assign (s : Side) k v w (b : OrderBook.t (P := P)) :
  OrderBook.assign (s, k) v (OrderBook.assign (s, k) w b)
  = OrderBook.assign (s, k) v b.
Proof.
  destruct s; unfold OrderBook.assign; simpl; by rewrite map_assign_assign.
Qed.

Lemma assign_emplace_level (s : Side) k q (b : OrderBook.t (P := P)) :
  OrderBook.assign (s, k)
    (update_quantity q (default (fresh_level k) (map_find k (Trace.side_book s b))))
    (OrderBook.emplace_level s k b)
  = add_scalar s k q b.
Proof.
  destruct s; unfold OrderBook.assign, OrderBook.emplace_level, add_scalar; simpl;
    by rewrite map_assign_try_emplace.
Qed.

(** A batch of one order through the four-wide path is the scalar add. *)
Lemma process_limit_orders_batch_single (order : Order P) (b : OrderBook.t (P := P)) :
  OrderBook.process_limit_orders_batch [order] b
  = Some (add_scalar (side order) (price order) (quantity order) b).
Proof.
  unfold OrderBook.process_limit_orders_batch, OrderBook.batch_step. simpl.
  unfold process_quantity_updates, process_quantity_updates_from, for_loop. simpl.
  unfold load_body, store_body. simpl.
  rewrite !(deref_emplace_level (side order) (price order) b). simpl.
  rewrite deref_assign by (rewrite deref_emplace_level; eauto). simpl.
  rewrite assign_assign, to_uint32_of_int32.
  rewrite (update_quantity_lanes (quantity order)) by reflexivity.
  by rewrite <- assign_emplace_level.
Qed.

(** [add_limit_order] always returns true, and the book it leaves is the
    scalar add of the converted quantity. *)
Lemma add_limit_order_scalar (s : Side) k (quantity : Z) (id_str : string)
    (now : Z) (b : OrderBook.t (P := P)) :
  OrderBook.add_limit_order s k quantity id_str now b
  = Some (true, add_scalar s k (to_uint32 quantity) b).
Proof.
  unfold OrderBook.add_limit_order.
  by rewrite process_limit_orders_batch_single.
Qed.
End SideBookFacts.

(** X3.  A limit add through the single-order batch and the four-wide
    update is the scalar add: locate or create the level, add the quantity
    modulo 2^32, count one order. *)
Theorem add_limit_order_is_scalar_add :
  ∀ (P : Type) (O : PriceOrder P) (s : Side) (p : P) (quantity : Z)
    (id_str : string) (now : Z) (b : OrderBook.t (P := P)),
    OrderBook.add_limit_order s p quantity id_str now b
    = Some (true, add_scalar s p (to_uint32 quantity) b).
Proof. intros. apply add_limit_order_scalar. Qed.

(** ** order_book.h: the matching walk *)

Section MatchLoop.
Context {P : Type} `{PriceOrder P}.
Implicit Types (m rest : SideBook (P := P)) (k : P) (level : PriceLevel P)
  (acc : list (MatchResult P)).

Lemma match_loop_stop (id_str : string) m (r : Z) acc :
  r <= 0 → OrderBook.match_loop id_str m r acc = (m, acc).
Proof.
  intros Hr. destruct m as [|[k level] rest]; simpl; [done|].
  destruct (0 <? r) eqn:Hpos; [apply Z.ltb_lt in Hpos; lia | done].
Qed.

Lemma match_loop_empty_level (id_str : string) k level rest (r : Z) acc :
  0 < r → total_quantity level = 0 →
  OrderBook.match_loop id_str ((k, level) :: rest) r acc
  = OrderBook.match_loop id_str rest r acc.
Proof.
  intros Hr Hzero. simpl.
  destruct (0 <? r) eqn:Hpos; [|apply Z.ltb_ge in Hpos; lia].
  rewrite Hzero, Z.min_r by lia. simpl. by rewrite Hzero.
Qed.

Lemma filled_total (matched : Z) level :
  0 <= matched <= total_quantity level → total_quantity level < 2 ^ 32 →
  total_quantity (filled matched level) = total_quantity level - matched.
Proof. intros. unfold filled. simpl. by apply to_uint32_sub_matched. Qed.

Lemma match_loop_drain (id_str : string) k level rest (r : Z) acc :
  0 < total_quantity level <= r → r < 2 ^ 32 →
  OrderBook.match_loop id_str ((k, level) :: rest) r acc
  = OrderBook.match_loop id_str rest (r - total_quantity level)
      (acc ++ [fill_of id_str (total_quantity level) level]).
Proof.
  intros Ht Hr. simpl.
  destruct (0 <? r) eqn:Hpos; [|apply Z.ltb_ge in Hpos; lia].
  rewrite Z.min_r by lia.
  destruct (0 <? total_quantity level) eqn:Hpos'; [|apply Z.ltb_ge in Hpos'; lia].
  fold (filled (total_quantity level) level).
  rewrite filled_total by lia.
  rewrite Z.sub_diag. simpl.
  rewrite to_uint32_id by (unfold is_uint32; lia). reflexivity.
Qed.

Lemma match_loop_partial (id_str : string) k level rest (r : Z) acc :
  0 < r < total_quantity level → total_quantity level < 2 ^ 32 →
  OrderBook.match_loop id_str ((k, level) :: rest) r acc
  = ((k, filled r level) :: rest, acc ++ [fill_of id_str r level]).
Proof.
  intros Hr Ht. simpl.
  destruct (0 <? r) eqn:Hpos; [|apply Z.ltb_ge in Hpos; lia].
  rewrite Z.min_l by lia. rewrite Hpos.
  fold (filled r level).
  pose proof (filled_total r level ltac:(lia) Ht) as Hleft.
  destruct (total_quantity (filled r level) =? 0) eqn:Hz;
    [apply Z.eqb_eq in Hz; lia|].
  rewrite Z.sub_diag. change (to_uint32 0) with 0.
  by rewrite match_loop_stop.
Qed.


(** [match_loop] performs the walk, and appends its fills to the matches
    pushed before. *)
Lemma match_loop_walk (id_str : string) m (r : Z) acc :
  totals_fit m → r < 2 ^ 32 →
  ∃ m' fills,
    OrderBook.match_loop id_str m r acc = (m', acc ++ fills)
    ∧ Walk id_str m r m' fills.
Proof.
  intros Hfit. revert r acc.
  induction Hfit as [|[k level] rest Hlevel Hrest IH]; intros r acc Hr.
  { exists [], []. rewrite app_nil_r. split; [done | constructor]. }
  unfold is_uint32 in Hlevel. simpl in Hlevel.
  destruct (Z.le_gt_cases r 0) as [Hstop|Hpos].
  { exists ((k, level) :: rest), []. rewrite app_nil_r.
    split; [by apply match_loop_stop | by constructor]. }
  destruct (Z.eq_dec (total_quantity level) 0) as [Hzero|Hnz].
  { destruct (IH r acc Hr) as (m' & fills & Hrun & Hwalk).
    exists m', fills. rewrite match_loop_empty_level by (done || lia).
    split; [done | by constructor]. }
  destruct (Z.le_gt_cases (total_quantity level) r) as [Hall|Hpart].
  - destruct (IH (r - total_quantity level)
                (acc ++ [fill_of id_str (total_quantity level) level]))
      as (m' & fills & Hrun & Hwalk); [lia|].
    exists m', (fill_of id_str (total_quantity level) level :: fills).
    rewrite match_loop_drain by lia. rewrite Hrun, <- app_assoc.
    split; [done | constructor; [lia | done]].
  - exists ((k, filled r level) :: rest), [fill_of id_str r level].
    rewrite match_loop_partial by lia.
    split; [done | constructor; lia].
Qed.

Lemma book_total_cons k level rest :
  Trace.book_total ((k, level) :: rest) = total_quantity level + Trace.book_total rest.
Proof. reflexivity. Qed.

Lemma matched_total_cons (f : MatchResult P) (fills : list (MatchResult P)) :
  Trace.matched_total (f :: fills) = match_quantity f + Trace.matched_total fills.
Proof. reflexivity. Qed.

Lemma book_total_nonneg m : totals_fit m → 0 <= Trace.book_total m.
Proof.
  induction 1 as [|[k level] rest Hlevel _ IH]; [done|].
  rewrite book_total_cons. unfold is_uint32 in Hlevel. simpl in Hlevel. lia.
Qed.

Lemma side_wf_totals_fit m : Forall level_wf m → totals_fit m.
Proof. intros Hwf. eapply Forall_impl; [exact Hwf|]. by intros node (_ & ? & _). Qed.

Lemma Walk_sum (id_str : string) m (r : Z) m' fills :
  Walk id_str m r m' fills → totals_fit m → 0 <= r →
  Trace.matched_total fills = Z.min r (Trace.book_total m)
  ∧ Trace.book_total m' = Trace.book_total m - Trace.matched_total fills.
Proof.
  induction 1 as [r|m r Hr|k level rest r m' fills Hr Hz _ IH
                 |k level rest r m' fills Ht _ IH|k level rest r Hr];
    intros Hfit Hpos.
  - change (Trace.matched_total []) with 0. change (Trace.book_total []) with 0. lia.
  - pose proof (book_total_nonneg m Hfit).
    change (Trace.matched_total []) with 0. lia.
  - apply Forall_cons in Hfit as [_ Hfit].
    rewrite book_total_cons, Hz. destruct (IH Hfit Hpos). lia.
  - apply Forall_cons in Hfit as [_ Hfit].
    rewrite book_total_cons, matched_total_cons.
    pose proof (book_total_nonneg rest Hfit).
    destruct (IH Hfit ltac:(lia)). simpl. lia.
  - apply Forall_cons in Hfit as [Hlevel Hfit].
    unfold is_uint32 in Hlevel. simpl in Hlevel.
    pose proof (book_total_nonneg rest Hfit).
    rewrite !book_total_cons, filled_total by lia.
    rewrite matched_total_cons. change (Trace.matched_total []) with 0. simpl. lia.
Qed.

(** With less resting than asked for, the walk empties the book. *)
Lemma Walk_short (id_str : string) m (r : Z) m' fills :
  Walk id_str m r m' fills → totals_fit m → Trace.book_total m < r → m' = [].
Proof.
  induction 1 as [r|m r Hr|k level rest r m' fills Hr Hz _ IH
                 |k level rest r m' fills Ht _ IH|k level rest r Hr];
    intros Hfit Hshort.
  - done.
  - pose proof (book_total_nonneg m Hfit). lia.
  - apply Forall_cons in Hfit as [_ Hfit].
    rewrite book_total_cons in Hshort. apply IH; [done | lia].
  - apply Forall_cons in Hfit as [_ Hfit].
    rewrite book_total_cons in Hshort. apply IH; [done | lia].
  - apply Forall_cons in Hfit as [_ Hfit].
    pose proof (book_total_nonneg rest Hfit).
    rewrite book_total_cons in Hshort. lia.
Qed.

(** With nothing resting, the walk pushes no fill. *)
Lemma Walk_none (id_str : string) m (r : Z) m' fills :
  Walk id_str m r m' fills → totals_fit m → Trace.book_total m = 0 → fills = [].
Proof.
  induction 1 as [r|m r Hr|k level rest r m' fills Hr Hz _ IH
                 |k level rest r m' fills Ht _ IH|k level rest r Hr];
    intros Hfit Hnone; try done.
  - apply Forall_cons in Hfit as [_ Hfit].
    rewrite book_total_cons in Hnone. apply IH; [done | lia].
  - apply Forall_cons in Hfit as [_ Hfit].
    pose proof (book_total_nonneg rest Hfit).
    rewrite book_total_cons in Hnone. lia.
  - apply Forall_cons in Hfit as [_ Hfit].
    pose proof (book_total_nonneg rest Hfit).
    rewrite book_total_cons in Hnone. lia.
Qed.

Lemma filled_wf k (r : Z) level :
  level_wf (k, level) → 0 <= r <= total_quantity level → level_wf (k, filled r level).
Proof.
  intros (Hprice & Htotal & Hcount) Hr. unfold is_uint32 in Htotal. simpl in *.
  split; [done|]. split; [|apply to_uint32_range].
  change (is_uint32 (total_quantity (filled r level))).
  rewrite filled_total by lia. unfold is_uint32. lia.
Qed.

Lemma Walk_wf (id_str : string) m (r : Z) m' fills :
  Walk id_str m r m' fills → Forall level_wf m → Forall level_wf m'.
Proof.
  induction 1 as [r|m r Hr|k level rest r m' fills Hr Hz _ IH
                 |k level rest r m' fills Ht _ IH|k level rest r Hr];
    intros Hwf; try done.
  - apply Forall_cons in Hwf as [_ Hwf]. by apply IH.
  - apply Forall_cons in Hwf as [_ Hwf]. by apply IH.
  - apply Forall_cons in Hwf as [Hlevel Hwf].
    apply Forall_cons. split; [|done]. apply filled_wf; [done | lia].
Qed.

(** The walk deletes levels and rewrites at most one: the keys it leaves
    are a subsequence of the keys it found. *)
Lemma Walk_keys (id_str : string) m (r : Z) m' fills :
  Walk id_str m r m' fills → (fst <$> m') `sublist_of` (fst <$> m).
Proof.
  induction 1 as [r|m r Hr|k level rest r m' fills Hr Hz _ IH
                 |k level rest r m' fills Ht _ IH|k level rest r Hr];
    simpl; try done.
  - by apply sublist_cons.
  - by apply sublist_cons.
Qed.

(** The prices of the fills are keys of the book, in the order of the walk. *)
Lemma Walk_prices (id_str : string) m (r : Z) m' fills :
  Walk id_str m r m' fills → Forall level_wf m →
  (match_price <$> fills) `sublist_of` (fst <$> m).
Proof.
  induction 1 as [r|m r Hr|k level rest r m' fills Hr Hz _ IH
                 |k level rest r m' fills Ht _ IH|k level rest r Hr];
    intros Hwf; simpl.
  - done.
  - apply sublist_nil_l.
  - apply Forall_cons in Hwf as [_ Hwf]. apply sublist_cons. by apply IH.
  - apply Forall_cons in Hwf as [(Hprice & _) Hwf]. simpl in Hprice.
    rewrite Hprice. apply sublist_skip. by apply IH.
  - apply Forall_cons in Hwf as [(Hprice & _) Hwf]. simpl in Hprice.
    rewrite Hprice. apply sublist_skip, sublist_nil_l.
Qed.

Lemma Walk_positive (id_str : string) m (r : Z) m' fills :
  Walk id_str m r m' fills → totals_fit m → totals_positive m → totals_positive m'.
Proof.
  induction 1 as [r|m r Hr|k level rest r m' fills Hr Hz _ IH
                 |k level rest r m' fills Ht _ IH|k level rest r Hr];
    intros Hfit Hpos; try done.
  - apply Forall_cons in Hfit as [_ Hfit]. apply Forall_cons in Hpos as [_ Hpos].
    by apply IH.
  - apply Forall_cons in Hfit as [_ Hfit]. apply Forall_cons in Hpos as [_ Hpos].
    by apply IH.
  - apply Forall_cons in Hfit as [Hlevel Hfit]. apply Forall_cons in Hpos as [_ Hpos].
    unfold is_uint32 in Hlevel. simpl in Hlevel.
    apply Forall_cons. split; [|done].
    change (0 < total_quantity (filled r level)).
    rewrite filled_total by lia. lia.
Qed.

Lemma StronglySorted_sublist {A} (R : relation A) (l1 l2 : list A) :
  l1 `sublist_of` l2 → StronglySorted R l2 → StronglySorted R l1.
Proof.
  induction 1 as [|x l1 l2 Hsub IH|x l1 l2 Hsub IH]; intros Hsorted.
  - constructor.
  - apply StronglySorted_inv in Hsorted as [Hsorted Hall].
    constructor; [by apply IH|].
    rewrite Forall_forall in Hall |- *.
    intros y Hy. apply Hall. by apply (elem_of_sublist l1).
  - apply StronglySorted_inv in Hsorted as [Hsorted _]. by apply IH.
Qed.
End MatchLoop.

(** ** order_book.h: the limit add on one side book *)

Section LimitAdd.
Context {P : Type} `{PriceOrder P}.
Implicit Types (m rest : SideBook (P := P)) (k : P) (level : PriceLevel P).

Lemma level_add_Forall (Q : P * PriceLevel P → Prop) k (q : Z) m :
  Q (k, update_quantity q (fresh_level k)) →
  (∀ level, Q (k, level) → Q (k, update_quantity q level)) →
  Forall Q m → Forall Q (level_add k q m).
Proof.
  intros Hfresh Hupd. induction 1 as [|[k' v'] rest Hnode Hrest IH]; simpl.
  - by repeat constructor.
  - destruct (price_cases k k') as [[-> _]|[[Hlt ->]|(-> & _ & _)]].
    + by repeat constructor.
    + rewrite Hlt. by constructor.
    + rewrite price_lt_irrefl. constructor; [by apply Hupd | done].
Qed.

Lemma level_add_keys_Forall (Q : P → Prop) k (q : Z) m :
  Q k → Forall Q (fst <$> m) → Forall Q (fst <$> level_add k q m).
Proof.
  intros Hk. induction m as [|[k' v'] rest IH]; simpl; intros Hall.
  - by repeat constructor.
  - apply Forall_cons in Hall as [Hk' Hall]. simpl in Hk'.
    destruct (price_lt k k'); [|destruct (price_lt k' k)]; simpl.
    + by repeat constructor.
    + constructor; [done | by apply IH].
    + by constructor.
Qed.

Lemma level_add_keys_ascending k (q : Z) m :
  keys_ascending m → keys_ascending (level_add k q m).
Proof.
  unfold keys_ascending.
  induction m as [|[k' v'] rest IH]; simpl; intros Hsorted.
  - by repeat constructor.
  - apply StronglySorted_inv in Hsorted as [Hsorted Hall].
    destruct (price_lt k k') eqn:Hlt; [|destruct (price_lt k' k) eqn:Hgt]; simpl.
    + constructor; [by constructor|].
      constructor; [done|].
      eapply Forall_impl; [exact Hall|]. intros y Hy. simpl in Hy.
      by apply (price_lt_trans k k' y).
    + constructor; [by apply IH|].
      by apply level_add_keys_Forall.
    + by constructor.
Qed.

Lemma update_quantity_wf k (q : Z) level :
  level_price level = k → level_wf (k, update_quantity q level).
Proof.
  intros Hprice. split; [done|]. split; apply to_uint32_range.
Qed.

Lemma level_add_wf k (q : Z) m : side_wf m → side_wf (level_add k q m).
Proof.
  intros [Hkeys Hwf]. split; [by apply level_add_keys_ascending|].
  apply level_add_Forall; [| |done].
  - by apply update_quantity_wf.
  - intros level (Hprice & _). by apply update_quantity_wf.
Qed.

Lemma level_add_total k (q : Z) m :
  is_uint32 q → resting k m + q < 2 ^ 32 → totals_fit m →
  Trace.book_total (level_add k q m) = Trace.book_total m + q.
Proof.
  unfold is_uint32, resting. intros Hq.
  induction m as [|[k' v'] rest IH]; simpl; intros Hroom Hfit.
  - rewrite book_total_cons. simpl. rewrite to_uint32_id by done.
    change (Trace.book_total []) with 0. lia.
  - apply Forall_cons in Hfit as [Hnode Hfit].
    unfold is_uint32 in Hnode. simpl in Hnode.
    destruct (price_lt k k') eqn:Hlt; [|destruct (price_lt k' k) eqn:Hgt]; simpl in *.
    + rewrite !book_total_cons. simpl. rewrite to_uint32_id by done. lia.
    + rewrite !book_total_cons, IH by done. lia.
    + rewrite !book_total_cons. simpl.
      rewrite to_uint32_id by (unfold is_uint32; lia). lia.
Qed.

Lemma level_add_positive k (q : Z) m :
  0 < q → resting k m + q < 2 ^ 32 → totals_fit m →
  totals_positive m → totals_positive (level_add k q m).
Proof.
  unfold resting. intros Hq.
  induction m as [|[k' v'] rest IH]; simpl; intros Hroom Hfit Hpos.
  - repeat constructor. simpl. rewrite to_uint32_id by (unfold is_uint32; lia). lia.
  - apply Forall_cons in Hfit as [Hnode Hfit].
    apply Forall_cons in Hpos as [Hnode' Hpos].
    unfold is_uint32 in Hnode. simpl in Hnode, Hnode'.
    destruct (price_lt k k') eqn:Hlt; [|destruct (price_lt k' k) eqn:Hgt]; simpl in *.
    + constructor; [|by constructor]. simpl.
      rewrite to_uint32_id by (unfold is_uint32; lia). lia.
    + constructor; [done | by apply IH].
    + constructor; [|done]. simpl.
      rewrite to_uint32_id by (unfold is_uint32; lia). lia.
Qed.
End LimitAdd.

(** ** Runs: what every reachable book satisfies *)

Section RunFacts.
Context {P : Type} `{PriceOrder P}.
Import Trace.
Implicit Types (b : OrderBook.t (P := P)) (s : Side) (ops : list (Op (P := P))).

Lemma side_book_with_side_book s s' (m : SideBook (P := P)) b :
  side_book s (with_side_book s' m b)
  = if Side_eqb s s' then m else side_book s b.
Proof. by destruct s, s'. Qed.

Lemma side_book_add_scalar s s' (k : P) (q : Z) b :
  side_book s (add_scalar s' k q b)
  = if Side_eqb s s' then level_add k q (side_book s b) else side_book s b.
Proof. by destruct s, s'. Qed.

Lemma book_wf_side s b : book_wf b → side_wf (side_book s b).
Proof. intros [? ?]. by destruct s. Qed.

Lemma book_wf_sides b : (∀ s, side_wf (side_book s b)) → book_wf b.
Proof. intros Hall. split; [apply (Hall BUY) | apply (Hall SELL)]. Qed.

Lemma book_wf_empty : book_wf (OrderBook.empty (P := P)).
Proof. split; (split; [constructor | constructor]). Qed.

Lemma level_total_resting s (k : P) b :
  level_total s k b = resting k (side_book s b).
Proof. unfold level_total, resting, OrderBook.deref. simpl. by destruct s, (map_find _ _). Qed.

(** A market order walks the opposing book and touches nothing else. *)
Lemma process_market_order_walk s (quantity : Z) (id_str : string) (now : Z) b :
  book_wf b →
  ∃ m' fills,
    OrderBook.process_market_order s quantity id_str now b
      = (fills, with_side_book (opposite s) m' b)
    ∧ Walk (get_id (set_id id_str empty_id)) (side_book (opposite s) b)
        (to_uint32 quantity) m' fills.
Proof.
  intros Hwf.
  pose proof (book_wf_side (opposite s) b Hwf) as [_ Hlevels].
  destruct (match_loop_walk (get_id (set_id id_str empty_id))
              (side_book (opposite s) b) (to_uint32 quantity) [])
    as (m' & fills & Hrun & Hwalk).
  { by apply side_wf_totals_fit. }
  { apply to_uint32_range. }
  exists m', fills. split; [|done].
  unfold OrderBook.process_market_order, OrderBook.match_market_order_simd.
  destruct s; simpl in *; by rewrite Hrun.
Qed.

Lemma step_add s (k : P) (quantity : Z) (id_str : string) (now : Z) b :
  step (AddLimit s k quantity id_str now) b
  = Some (Added true, add_scalar s k (to_uint32 quantity) b).
Proof. unfold step. by rewrite add_limit_order_scalar. Qed.

Lemma step_market s (quantity : Z) (id_str : string) (now : Z) b :
  step (Market s quantity id_str now) b
  = Some (Matched (OrderBook.process_market_order s quantity id_str now b).1,
          (OrderBook.process_market_order s quantity id_str now b).2).
Proof. unfold step. by destruct (OrderBook.process_market_order _ _ _ _ _). Qed.

Lemma step_total (op : Op) b : is_Some (step op b).
Proof. destruct op; [rewrite step_add | rewrite step_market]; eauto. Qed.

(** Every run of the API returns. *)
Lemma run_total ops b : is_Some (run ops b).
Proof.
  revert b. induction ops as [|op rest IH]; intros b; simpl; [eauto|].
  destruct (step_total op b) as [[reply b1] ->]. simpl.
  destruct (IH b1) as [[events b2] ->]. simpl. eauto.
Qed.

Lemma step_wf (op : Op) (reply : Reply) b b' :
  book_wf b → step op b = Some (reply, b') → book_wf b'.
Proof.
  intros Hwf. destruct op as [s k q id_str now|s q id_str now].
  - rewrite step_add. intros [= _ <-].
    apply book_wf_sides. intros s'. rewrite side_book_add_scalar.
    destruct (Side_eqb s' s); [apply level_add_wf|]; by apply book_wf_side.
  - rewrite step_market.
    destruct (process_market_order_walk s q id_str now b Hwf)
      as (m' & fills & -> & Hwalk).
    simpl. intros [= _ <-].
    apply book_wf_sides. intros s'. rewrite side_book_with_side_book.
    destruct (Side_eqb s' (opposite s)); [|by apply book_wf_side].
    pose proof (book_wf_side (opposite s) b Hwf) as [Hkeys Hlevels].
    split.
    + eapply StronglySorted_sublist; [by eapply Walk_keys | exact Hkeys].
    + by eapply Walk_wf.
Qed.

Lemma run_wf ops b (events : list (Op * Reply)) b' :
  book_wf b → run ops b = Some (events, b') → book_wf b'.
Proof.
  revert b events. induction ops as [|op rest IH]; intros b events Hwf; simpl.
  - by intros [= _ <-].
  - destruct (step op b) as [[reply b1]|] eqn:Hstep; [|done]. simpl.
    destruct (run rest b1) as [[events' b2]|] eqn:Hrun; [|done]. simpl.
    intros [= _ <-]. eapply IH; [|exact Hrun]. by eapply step_wf.
Qed.

(** The books the API builds from the empty book. *)
Lemma run_from_empty ops :
  ∃ events b, run ops (OrderBook.empty (P := P)) = Some (events, b) ∧ book_wf b.
Proof.
  destruct (run_total ops OrderBook.empty) as [[events b] Hrun].
  exists events, b. split; [done|]. eapply run_wf; [apply book_wf_empty | done].
Qed.
End RunFacts.

(** ** Quantity conservation *)

Section Conservation.
Context {P : Type} `{PriceOrder P}.
Import Trace.
Implicit Types (b : OrderBook.t (P := P)) (s : Side) (ops : list (Op (P := P))).

Lemma added_cons s (op : Op (P := P)) ops :
  added s (op :: ops)
  = match op with
    | AddLimit s' _ quantity _ _ => if Side_eqb s s' then to_uint32 quantity else 0
    | Market _ _ _ _ => 0
    end + added s ops.
Proof. reflexivity. Qed.

Lemma consumed_cons s (op : Op (P := P)) (reply : Reply) (events : list (Op * Reply)) :
  consumed s ((op, reply) :: events)
  = match op, reply with
    | Market s' _ _ _, Matched matches =>
        if Side_eqb s (opposite s') then matched_total matches else 0
    | _, _ => 0
    end + consumed s events.
Proof. reflexivity. Qed.

(** One call: the resting quantity of each side moves by what was added
    to it or matched out of it. *)
Lemma step_conserves (op : Op) (reply : Reply) b b' s :
  book_wf b → adds_fit [op] b = true → step op b = Some (reply, b') →
  book_total (side_book s b')
  = book_total (side_book s b) + added s [op] - consumed s [(op, reply)].
Proof.
  intros Hwf Hfit.
  rewrite added_cons, consumed_cons.
  change (added s []) with 0. change (consumed s []) with 0.
  destruct op as [s' k q id_str now|s' q id_str now].
  - rewrite step_add. intros [= <- <-].
    rewrite side_book_add_scalar.
    destruct (Side_eqb s s') eqn:Hs; [|lia].
    assert (s = s') as -> by (by destruct s, s').
    simpl in Hfit. apply andb_true_iff in Hfit as [Hroom _].
    apply Z.ltb_lt in Hroom. rewrite level_total_resting in Hroom.
    rewrite level_add_total; [lia | apply to_uint32_range | done |].
    apply side_wf_totals_fit. by apply (book_wf_side s' b Hwf).
  - rewrite step_market.
    destruct (process_market_order_walk s' q id_str now b Hwf)
      as (m' & fills & -> & Hwalk).
    simpl. intros [= <- <-].
    rewrite side_book_with_side_book.
    destruct (Side_eqb s (opposite s')) eqn:Hs; [|lia].
    assert (s = opposite s') as -> by (by destruct s, s').
    pose proof (book_wf_side (opposite s') b Hwf) as [_ Hlevels].
    apply side_wf_totals_fit in Hlevels.
    destruct (Walk_sum _ _ _ _ _ Hwalk Hlevels) as [_ Htotal].
    { apply to_uint32_range. }
    lia.
Qed.

Lemma conservation_from ops b (events : list (Op * Reply)) b' s :
  book_wf b → adds_fit ops b = true → run ops b = Some (events, b') →
  book_total (side_book s b')
  = book_total (side_book s b) + added s ops - consumed s events.
Proof.
  revert b events. induction ops as [|op rest IH]; intros b events Hwf Hfit.
  - simpl. intros [= <- <-]. change (added s []) with 0.
    change (consumed s []) with 0. lia.
  - cbn [run adds_fit] in *.
    destruct (step op b) as [[reply b1]|] eqn:Hstep; [|by rewrite andb_false_r in Hfit].
    apply andb_true_iff in Hfit as [Hroom Hfit]. simpl.
    destruct (run rest b1) as [[events' b2]|] eqn:Hrun; [|done]. simpl.
    intros [= <- <-].
    rewrite (IH b1 events') by (done || by eapply step_wf).
    rewrite (step_conserves op reply b b1 s Hwf); [|by simpl; rewrite Hroom, Hstep|done].
    rewrite (added_cons s op rest), (consumed_cons s op reply events').
    rewrite added_cons, consumed_cons.
    change (added s []) with 0. change (consumed s []) with 0. lia.
Qed.
End Conservation.

(** C4 (amended).  Quantity conservation: after a run of limit and market
    orders in which no limit order lifts its level to 2^32 or beyond, the
    quantity resting on each side is what was added on that side less what
    was matched out of it. *)
Theorem quantity_conservation :
  ∀ (P : Type) (O : PriceOrder P) (ops : list (Trace.Op (P := P))),
    Trace.adds_fit ops OrderBook.empty = true →
    ∃ events b,
      Trace.run ops OrderBook.empty = Some (events, b)
      ∧ ∀ s, Trace.book_total (Trace.side_book s b)
             = Trace.added s ops - Trace.consumed s events.
Proof.
  intros P O ops Hfit.
  destruct (run_from_empty ops) as (events & b & Hrun & _).
  exists events, b. split; [done|]. intros s.
  rewrite (conservation_from ops OrderBook.empty events b s);
    [|apply book_wf_empty|done|done].
  destruct s; reflexivity.
Qed.

Lemma quantity_conservation_witness :
  ∃ events b,
    Trace.run sweep_run OrderBook.empty = Some (events, b)
    ∧ ∀ s, Trace.book_total (Trace.side_book s b)
           = Trace.added s sweep_run - Trace.consumed s events.
Proof. apply (quantity_conservation Z Z_PriceOrder sweep_run). reflexivity. Defined.

(** C4 as stated fails: two limit buys of 2^31 at the same price wrap the
    level's [uint32_t] total to 0, while 2^32 was added and nothing
    matched. *)
Lemma quantity_conservation_wraps :
  (λ '(events, b),
     (Trace.book_total (Trace.side_book BUY b),
      Trace.added BUY overflow_run - Trace.consumed BUY events))
    <$> Trace.run overflow_run OrderBook.empty
  = Some (0, 4294967296).
Proof. vm_compute. reflexivity. Qed.

Section ConservationMod.
Context {P : Type} `{PriceOrder P}.
Import Trace.
Implicit Types (b : OrderBook.t (P := P)) (s : Side) (ops : list (Op (P := P)))
  (m : SideBook (P := P)).

Lemma to_uint32_shift (a a' d : Z) :
  to_uint32 a = to_uint32 a' → to_uint32 (a + d) = to_uint32 (a' + d).
Proof.
  intros Heq. by rewrite <- (to_uint32_add_l a), Heq, to_uint32_add_l.
Qed.

Lemma level_add_total_mod (k : P) (q : Z) m :
  to_uint32 (book_total (level_add k q m)) = to_uint32 (book_total m + q).
Proof.
  induction m as [|[k' v'] rest IH]; simpl.
  - rewrite book_total_cons. simpl. change (book_total []) with 0.
    rewrite Z.add_0_r, to_uint32_idemp. reflexivity.
  - destruct (price_lt k k'); [|destruct (price_lt k' k)].
    + rewrite !book_total_cons. simpl.
      rewrite to_uint32_add_l. f_equal. lia.
    + rewrite !book_total_cons.
      rewrite (Z.add_comm _ (book_total (level_add k q rest))).
      rewrite (to_uint32_shift _ _ _ IH). f_equal. lia.
    + rewrite !book_total_cons. simpl.
      rewrite to_uint32_add_l. f_equal. lia.
Qed.

Lemma step_conserves_mod (op : Op) (reply : Reply) b b' s :
  book_wf b → step op b = Some (reply, b') →
  to_uint32 (book_total (side_book s b'))
  = to_uint32 (book_total (side_book s b) + added s [op] - consumed s [(op, reply)]).
Proof.
  intros Hwf.
  rewrite added_cons, consumed_cons.
  change (added s []) with 0. change (consumed s []) with 0.
  destruct op as [s' k q id_str now|s' q id_str now].
  - rewrite step_add. intros [= <- <-].
    rewrite side_book_add_scalar.
    destruct (Side_eqb s s') eqn:Hs; [|f_equal; lia].
    rewrite level_add_total_mod. f_equal. lia.
  - rewrite step_market.
    destruct (process_market_order_walk s' q id_str now b Hwf)
      as (m' & fills & -> & Hwalk).
    simpl. intros [= <- <-].
    rewrite side_book_with_side_book.
    destruct (Side_eqb s (opposite s')) eqn:Hs; [|f_equal; lia].
    assert (s = opposite s') as -> by (by destruct s, s').
    pose proof (book_wf_side (opposite s') b Hwf) as [_ Hlevels].
    apply side_wf_totals_fit in Hlevels.
    destruct (Walk_sum _ _ _ _ _ Hwalk Hlevels) as [_ Htotal].
    { apply to_uint32_range. }
    f_equal. lia.
Qed.

Lemma conservation_mod_from ops b (events : list (Op * Reply)) b' s :
  book_wf b → run ops b = Some (events, b') →
  to_uint32 (book_total (side_book s b'))
  = to_uint32 (book_total (side_book s b) + added s ops - consumed s events).
Proof.
  revert b events. induction ops as [|op rest IH]; intros b events Hwf.
  - simpl. intros [= <- <-]. change (added s []) with 0.
    change (consumed s []) with 0. f_equal. lia.
  - cbn [run].
    destruct (step op b) as [[reply b1]|] eqn:Hstep; [|done]. simpl.
    destruct (run rest b1) as [[events' b2]|] eqn:Hrun; [|done]. simpl.
    intros [= <- <-].
    rewrite (IH b1 events') by (done || by eapply step_wf).
    rewrite (added_cons s op rest), (consumed_cons s op reply events').
    pose proof (step_conserves_mod op reply b b1 s Hwf Hstep) as Hone.
    rewrite added_cons, consumed_cons in Hone.
    change (added s []) with 0 in Hone. change (consumed s []) with 0 in Hone.
    transitivity (to_uint32 (book_total (side_book s b1)
                             + (added s rest - consumed s events')));
      [f_equal; lia|].
    rewrite (to_uint32_shift _ _ (added s rest - consumed s events') Hone).
    f_equal. lia.
Qed.
End ConservationMod.

(** X1.  Quantity conservation modulo 2^32: after every run, with or
    without wrap-around, the quantity resting on each side and the
    quantity added on that side less the quantity matched out of it are the
    same [uint32_t]. *)
Theorem quantity_conservation_mod :
  ∀ (P : Type) (O : PriceOrder P) (ops : list (Trace.Op (P := P))),
    ∃ events b,
      Trace.run ops OrderBook.empty = Some (events, b)
      ∧ ∀ s, to_uint32 (Trace.book_total (Trace.side_book s b))
             = to_uint32 (Trace.added s ops - Trace.consumed s events).
Proof.
  intros P O ops.
  destruct (run_from_empty ops) as (events & b & Hrun & _).
  exists events, b. split; [done|]. intros s.
  rewrite (conservation_mod_from ops OrderBook.empty events b s);
    [|apply book_wf_empty|done].
  destruct s; reflexivity.
Qed.

(** ** Level non-emptiness, the match sum and the order of the fills *)

Section Positivity.
Context {P : Type} `{PriceOrder P}.
Import Trace.
Implicit Types (b : OrderBook.t (P := P)) (s : Side) (ops : list (Op (P := P))).

Lemma step_positive (op : Op) (reply : Reply) b b' :
  book_wf b → adds_fit [op] b = true → adds_positive [op] = true →
  step op b = Some (reply, b') →
  (∀ s, totals_positive (side_book s b)) → ∀ s, totals_positive (side_book s b').
Proof.
  intros Hwf Hfit Hadd Hstep Hpos s.
  destruct op as [s' k q id_str now|s' q id_str now].
  - rewrite step_add in Hstep. injection Hstep as _ <-.
    rewrite side_book_add_scalar.
    destruct (Side_eqb s s') eqn:Hs; [|done].
    assert (s = s') as -> by (by destruct s, s').
    simpl in Hfit, Hadd. rewrite !andb_true_r in Hadd.
    apply andb_true_iff in Hfit as [Hroom _].
    apply Z.ltb_lt in Hroom, Hadd. rewrite level_total_resting in Hroom.
    apply level_add_positive; [done | done | | done].
    apply side_wf_totals_fit. by apply (book_wf_side s' b Hwf).
  - rewrite step_market in Hstep.
    destruct (process_market_order_walk s' q id_str now b Hwf)
      as (m' & fills & Hrun & Hwalk).
    rewrite Hrun in Hstep. injection Hstep as _ <-.
    rewrite side_book_with_side_book.
    destruct (Side_eqb s (opposite s')) eqn:Hs; [|done].
    pose proof (book_wf_side (opposite s') b Hwf) as [_ Hlevels].
    eapply Walk_positive; [exact Hwalk | by apply side_wf_totals_fit | done].
Qed.

Lemma positivity_from ops b (events : list (Op * Reply)) b' :
  book_wf b → adds_fit ops b = true → adds_positive ops = true →
  run ops b = Some (events, b') →
  (∀ s, totals_positive (side_book s b)) → ∀ s, totals_positive (side_book s b').
Proof.
  revert b events. induction ops as [|op rest IH]; intros b events Hwf Hfit Hadd.
  - simpl. by intros [= <- <-].
  - cbn [run adds_fit] in *.
    destruct (step op b) as [[reply b1]|] eqn:Hstep; [|by rewrite andb_false_r in Hfit].
    apply andb_true_iff in Hfit as [Hroom Hfit]. simpl.
    destruct (run rest b1) as [[events' b2]|] eqn:Hrun; [|done]. simpl.
    unfold adds_positive in Hadd. simpl in Hadd.
    apply andb_true_iff in Hadd as [Hop Hadd].
    intros [= <- <-] Hpos.
    apply (IH b1 events'); [by eapply step_wf | done | done | done |].
    apply (step_positive op reply b b1); [done | | | done | done].
    + simpl. by rewrite Hroom, Hstep.
    + unfold adds_positive. simpl. by rewrite Hop.
Qed.

(** A market order against a well-formed book. *)
Lemma process_market_order_sum s (quantity : Z) (id_str : string) (now : Z) b :
  book_wf b →
  let result := OrderBook.process_market_order s quantity id_str now b in
  let available := book_total (side_book (opposite s) b) in
  matched_total result.1 = Z.min (to_uint32 quantity) available
  ∧ (available = 0 → result.1 = [])
  ∧ (available < to_uint32 quantity → side_book (opposite s) result.2 = [])
  ∧ side_book s result.2 = side_book s b.
Proof.
  intros Hwf.
  destruct (process_market_order_walk s quantity id_str now b Hwf)
    as (m' & fills & Hrun & Hwalk).
  pose proof (book_wf_side (opposite s) b Hwf) as [_ Hlevels].
  apply side_wf_totals_fit in Hlevels.
  rewrite Hrun. simpl. rewrite !side_book_with_side_book.
  replace (Side_eqb (opposite s) (opposite s)) with true by (by destruct s).
  replace (Side_eqb s (opposite s)) with false by (by destruct s).
  repeat split.
  - apply (Walk_sum _ _ _ _ _ Hwalk Hlevels). apply to_uint32_range.
  - intros Hnone. by eapply Walk_none.
  - intros Hshort. by eapply Walk_short.
Qed.

(** The prices of the fills of any market order, buy or sell, ascend
    strictly: the walk starts at [begin()] on either book. *)
Lemma process_market_order_prices s (quantity : Z) (id_str : string) (now : Z) b :
  book_wf b →
  StronglySorted (λ x y, price_lt x y = true)
    (match_price <$> (OrderBook.process_market_order s quantity id_str now b).1).
Proof.
  intros Hwf.
  destruct (process_market_order_walk s quantity id_str now b Hwf)
    as (m' & fills & -> & Hwalk).
  pose proof (book_wf_side (opposite s) b Hwf) as [Hkeys Hlevels].
  simpl. eapply StronglySorted_sublist; [by eapply Walk_prices | exact Hkeys].
Qed.
End Positivity.

(** C6 (amended).  Level non-emptiness: after a run in which every limit
    order has a quantity above zero and none lifts its level to 2^32 or
    beyond, every level of either side book holds a quantity above zero. *)
Theorem level_non_emptiness :
  ∀ (P : Type) (O : PriceOrder P) (ops : list (Trace.Op (P := P))),
    Trace.adds_positive ops = true →
    Trace.adds_fit ops OrderBook.empty = true →
    ∃ events b,
      Trace.run ops OrderBook.empty = Some (events, b)
      ∧ ∀ s, totals_positive (Trace.side_book s b).
Proof.
  intros P O ops Hadd Hfit.
  destruct (run_from_empty ops) as (events & b & Hrun & _).
  exists events, b. split; [done|].
  apply (positivity_from ops OrderBook.empty events b);
    [apply book_wf_empty | done | done | done |].
  intros []; constructor.
Qed.

Lemma level_non_emptiness_witness :
  ∃ events b,
    Trace.run sweep_run OrderBook.empty = Some (events, b)
    ∧ ∀ s, totals_positive (Trace.side_book s b).
Proof.
  apply (level_non_emptiness Z Z_PriceOrder sweep_run); reflexivity.
Defined.

(** C6 as stated fails: both limit buys of the run have a quantity above
    zero, and the level they leave holds 0. *)
Lemma level_non_emptiness_wraps :
  Trace.adds_positive overflow_run = true
  ∧ (λ '(_, b), (λ node : Z * PriceLevel Z, total_quantity node.2)
                  <$> (Trace.side_book BUY b : list (Z * PriceLevel Z)))
      <$> Trace.run overflow_run OrderBook.empty
    = Some [0].
Proof. split; vm_compute; reflexivity. Qed.

(** C5.  Match sum bound: on every book the API can build, the quantities
    a market order returns sum to the smaller of the requested quantity and
    the quantity resting on the opposing side.  With nothing resting the
    list is empty; with less resting than requested the opposing book is
    left empty and the remainder goes nowhere: the order's own side is
    unchanged. *)
Theorem match_sum_bound :
  ∀ (P : Type) (O : PriceOrder P) (ops : list (Trace.Op (P := P)))
    (s : Side) (quantity : Z) (id_str : string) (now : Z),
    ∃ events b,
      Trace.run ops OrderBook.empty = Some (events, b)
      ∧ let result := OrderBook.process_market_order s quantity id_str now b in
        let available := Trace.book_total (Trace.side_book (Trace.opposite s) b) in
        Trace.matched_total result.1 = Z.min (to_uint32 quantity) available
        ∧ (available = 0 → result.1 = [])
        ∧ (available < to_uint32 quantity
           → Trace.side_book (Trace.opposite s) result.2 = [])
        ∧ Trace.side_book s result.2 = Trace.side_book s b.
Proof.
  intros P O ops s quantity id_str now.
  destruct (run_from_empty ops) as (events & b & Hrun & Hwf).
  exists events, b. split; [done|]. by apply process_market_order_sum.
Qed.

(** C1 (code bug).  Bids at 99 and 100, then a market sell of 700: the walk
    starts at [bids_.begin()], the lowest bid, and the fills come at 99
    and then 100, ascending, where best-price-first asks for 100 and then
    99. *)
Theorem sell_market_order_fills_lowest_bid_first :
  (λ '(_, b), (λ f, (match_quantity f, match_price f))
                <$> (OrderBook.process_market_order SELL 700 "M" 3 b).1)
    <$> Trace.run [Trace.AddLimit BUY 99 500 "A" 1; Trace.AddLimit BUY 100 500 "B" 2]
          OrderBook.empty
  = Some [(500, 99); (200, 100)].
Proof. vm_compute. reflexivity. Qed.

(** X4.  For either side the prices of the fills ascend strictly, on
    every book the API can build: non-decreasing as asked for a buy, and
    the reverse of what is asked for a sell. *)
Lemma match_prices_ascending :
  ∀ (P : Type) (O : PriceOrder P) (ops : list (Trace.Op (P := P)))
    (s : Side) (quantity : Z) (id_str : string) (now : Z),
    ∃ events b,
      Trace.run ops OrderBook.empty = Some (events, b)
      ∧ StronglySorted (λ x y, price_lt x y = true)
          (match_price <$> (OrderBook.process_market_order s quantity id_str now b).1).
Proof.
  intros P O ops s quantity id_str now.
  destruct (run_from_empty ops) as (events & b & Hrun & Hwf).
  exists events, b. split; [done|]. by apply process_market_order_prices.
Qed.

(** ** order_book.h: the limit add under any comparison

    What follows asks of [operator<] only that no price is below itself,
    which holds of [double] with its NaN. *)

Section AnyComparison.
Context {P : Type} `{PriceType P}.
Hypothesis price_irrefl : ∀ a : P, price_lt a a = false.
Implicit Types (m : SideBook (P := P)) (k : P) (v : PriceLevel P)
  (b : OrderBook.t (P := P)).

Lemma find_after_try_emplace k v m :
  map_find k (map_try_emplace k v m) = Some (default v (map_find k m)).
Proof.
  induction m as [|[k' v'] rest IH]; simpl.
  - by rewrite price_irrefl.
  - destruct (price_lt k k') eqn:Hlt; simpl.
    + by rewrite price_irrefl.
    + destruct (price_lt k' k) eqn:Hgt; simpl; rewrite Hlt, Hgt; done.
Qed.

Lemma find_after_assign k v m :
  is_Some (map_find k m) → map_find k (map_assign k v m) = Some v.
Proof.
  induction m as [|[k' v'] rest IH]; simpl; intros [w Hw]; [done|].
  destruct (price_lt k k') eqn:Hlt; [done|].
  destruct (price_lt k' k) eqn:Hgt; simpl; rewrite Hlt, Hgt; eauto.
Qed.

Lemma assign_after_assign k v w m :
  map_assign k v (map_assign k w m) = map_assign k v m.
Proof.
  induction m as [|[k' v'] rest IH]; simpl; [done|].
  destruct (price_lt k k') eqn:Hlt; simpl; [by rewrite Hlt|].
  destruct (price_lt k' k) eqn:Hgt; simpl; rewrite Hlt, Hgt; [by rewrite IH|done].
Qed.

Lemma deref_after_emplace (s : Side) k b :
  OrderBook.deref (s, k) (OrderBook.emplace_level s k b)
  = Some (default (fresh_level k) (OrderBook.deref (s, k) b)).
Proof. destruct s; apply find_after_try_emplace. Qed.

Lemma deref_after_assign (s : Side) k v b :
  is_Some (OrderBook.deref (s, k) b) →
  OrderBook.deref (s, k) (OrderBook.assign (s, k) v b) = Some v.
Proof. destruct s; apply find_after_assign. Qed.

Lemma assign_after_assign_book (s : Side) k v w b :
  OrderBook.assign (s, k) v (OrderBook.assign (s, k) w b)
  = OrderBook.assign (s, k) v b.
Proof.
  destruct s; unfold OrderBook.assign; simpl; by rewrite assign_after_assign.
Qed.

(** A batch of one order: the level is emplaced, read, and written back
    with the quantity added and the count raised. *)
Lemma batch_of_one (order : Order P) b :
  OrderBook.process_limit_orders_batch [order] b
  = Some (OrderBook.assign (side order, price order)
            (update_quantity (quantity order)
               (default (fresh_level (price order))
                  (OrderBook.deref (side order, price order) b)))
            (OrderBook.emplace_level (side order) (price order) b)).
Proof.
  unfold OrderBook.process_limit_orders_batch, OrderBook.batch_step. simpl.
  unfold process_quantity_updates, process_quantity_updates_from, for_loop. simpl.
  unfold load_body, store_body. simpl.
  rewrite !(deref_after_emplace (side order) (price order) b). simpl.
  rewrite deref_after_assign by (rewrite deref_after_emplace; eauto). simpl.
  rewrite assign_after_assign_book, to_uint32_of_int32.
  by rewrite (update_quantity_lanes (quantity order)) by reflexivity.
Qed.

Lemma add_limit_order_unvalidated (s : Side) k (quantity : Z) (id_str : string)
    (now : Z) b :
  ∃ b',
    OrderBook.add_limit_order s k quantity id_str now b = Some (true, b')
    ∧ OrderBook.deref (s, k) b'
      = Some (update_quantity (to_uint32 quantity)
                (default (fresh_level k) (OrderBook.deref (s, k) b))).
Proof.
  unfold OrderBook.add_limit_order. rewrite batch_of_one. simpl.
  eexists. split; [reflexivity|].
  apply deref_after_assign. rewrite deref_after_emplace. eauto.
Qed.
End AnyComparison.

(** C3 (amended).  [add_limit_order] validates nothing.  For every side,
    every price of every price type whose [operator<] puts no price below
    itself (a NaN included), every quantity (zero included) and every
    identifier, on every book, it returns true; and afterwards the level at
    that side and price is there, holding [update_quantity] of the level
    found there, or of a fresh one: a quantity of zero creates or keeps a
    level as any other quantity does. *)
Theorem add_limit_order_returns_true :
  ∀ (P : Type) (T : PriceType P) (s : Side) (p : P) (quantity : Z)
    (id_str : string) (now : Z) (b : OrderBook.t (P := P)),
    (∀ a : P, price_lt a a = false) →
    ∃ b',
      OrderBook.add_limit_order s p quantity id_str now b = Some (true, b')
      ∧ OrderBook.deref (s, p) b'
        = Some (update_quantity (to_uint32 quantity)
                  (default (fresh_level p) (OrderBook.deref (s, p) b))).
Proof.
  intros P T s p quantity id_str now b Hirrefl.
  by apply add_limit_order_unvalidated.
Qed.

Lemma add_limit_order_returns_true_witness :
  let b := {| OrderBook.bids_ := [(Num 99, mkPriceLevel (Num 99) 10 1 0)];
              OrderBook.asks_ := [] |} in
  ∃ b',
    OrderBook.add_limit_order SELL NaN 0 "A" 1 b = Some (true, b')
    ∧ OrderBook.deref (SELL, NaN) b'
      = Some (update_quantity (to_uint32 0)
                (default (fresh_level NaN) (OrderBook.deref (SELL, NaN) b))).
Proof.
  apply (add_limit_order_returns_true NanPrice NanPrice_PriceType SELL NaN 0 "A" 1).
  intros [z|]; [apply Z.ltb_irrefl | reflexivity].
Defined.

(** C3 as stated fails, for both kinds of invalid order: a limit order of
    quantity 0 is accepted and leaves a level that holds nothing, and a
    limit order at a NaN price is accepted and leaves a level under the
    NaN key. *)
Lemma add_limit_order_accepts_invalid_orders :
  OrderBook.add_limit_order BUY 100 0 "A" 1 OrderBook.empty
  = Some (true, {| OrderBook.bids_ := [(100, mkPriceLevel 100 0 1 0)];
                   OrderBook.asks_ := [] |})
  ∧ OrderBook.add_limit_order BUY NaN 10 "B" 2 OrderBook.empty
    = Some (true, {| OrderBook.bids_ := [(NaN, mkPriceLevel NaN 10 1 0)];
                     OrderBook.asks_ := [] |}).
Proof. split; vm_compute; reflexivity. Qed.

(** ** Best prices *)

Section BestPrices.
Context {P : Type} `{PriceOrder P}.
Implicit Types (m rest : SideBook (P := P)) (x y : P * PriceLevel P).

(** [a <= b <= c], with [<=] read as "not above". *)
Lemma price_le_trans (a b c : P) :
  price_lt b a = false → price_lt c b = false → price_lt c a = false.
Proof.
  intros Hab Hbc.
  destruct (price_cases c b) as [[? _]|[[_ Hbc']|(-> & _)]]; [congruence| |done].
  destruct (price_cases b a) as [[? _]|[[_ Hab']|(-> & _)]]; [congruence| |done].
  apply price_lt_asym. by apply (price_lt_trans a b c).
Qed.

Lemma max_element_from_spec x rest :
  max_element_from x rest ∈ x :: rest
  ∧ ∀ y, y ∈ x :: rest → price_lt (max_element_from x rest).1 y.1 = false.
Proof.
  revert x. induction rest as [|z rest IH]; intros x; simpl.
  { split; [apply list_elem_of_here|]. intros y ->%list_elem_of_singleton.
    apply price_lt_irrefl. }
  destruct (IH (if price_lt x.1 z.1 then z else x)) as [Hin Hmax].
  split.
  - apply elem_of_cons in Hin as [->|Hin].
    + destruct (price_lt x.1 z.1); [apply list_elem_of_further|]; apply list_elem_of_here.
    + by do 2 apply list_elem_of_further.
  - intros y Hy.
    pose proof (Hmax _ (list_elem_of_here _ _)) as Hkept.
    apply elem_of_cons in Hy as [->|Hy]; [|apply elem_of_cons in Hy as [->|Hy]].
    + destruct (price_lt x.1 z.1) eqn:Hxz; [|done].
      apply (price_le_trans _ z.1); [by apply price_lt_asym | done].
    + destruct (price_lt x.1 z.1) eqn:Hxz; [done|].
      by apply (price_le_trans _ x.1).
    + apply Hmax. by apply list_elem_of_further.
Qed.

Lemma min_element_from_spec x rest :
  min_element_from x rest ∈ x :: rest
  ∧ ∀ y, y ∈ x :: rest → price_lt y.1 (min_element_from x rest).1 = false.
Proof.
  revert x. induction rest as [|z rest IH]; intros x; simpl.
  { split; [apply list_elem_of_here|]. intros y ->%list_elem_of_singleton.
    apply price_lt_irrefl. }
  destruct (IH (if price_lt z.1 x.1 then z else x)) as [Hin Hmin].
  split.
  - apply elem_of_cons in Hin as [->|Hin].
    + destruct (price_lt z.1 x.1); [apply list_elem_of_further|]; apply list_elem_of_here.
    + by do 2 apply list_elem_of_further.
  - intros y Hy.
    pose proof (Hmin _ (list_elem_of_here _ _)) as Hkept.
    apply elem_of_cons in Hy as [->|Hy]; [|apply elem_of_cons in Hy as [->|Hy]].
    + destruct (price_lt z.1 x.1) eqn:Hzx; [|done].
      apply (price_le_trans _ z.1); [done | by apply price_lt_asym].
    + destruct (price_lt z.1 x.1) eqn:Hzx; [done|].
      by apply (price_le_trans _ x.1).
    + apply Hmin. by apply list_elem_of_further.
Qed.

Lemma get_best_bid_max (b : OrderBook.t (P := P)) :
  best_or_zero is_max_key (OrderBook.get_best_bid b) (OrderBook.bids_ b).
Proof.
  unfold OrderBook.get_best_bid.
  destruct (OrderBook.bids_ b) as [|x rest]; [done|].
  destruct (max_element_from_spec x rest) as [Hin Hmax].
  split.
  - by apply (list_elem_of_fmap_2 fst).
  - intros k (y & -> & Hy)%list_elem_of_fmap. by apply Hmax.
Qed.

Lemma get_best_ask_min (b : OrderBook.t (P := P)) :
  best_or_zero is_min_key (OrderBook.get_best_ask b) (OrderBook.asks_ b).
Proof.
  unfold OrderBook.get_best_ask.
  destruct (OrderBook.asks_ b) as [|x rest]; [done|].
  destruct (min_element_from_spec x rest) as [Hin Hmin].
  split.
  - by apply (list_elem_of_fmap_2 fst).
  - intros k (y & -> & Hy)%list_elem_of_fmap. by apply Hmin.
Qed.
End BestPrices.

(** C7.  Best-price correctness: on every book, [get_best_prices] returns
    the greatest key of the bids and the least key of the asks, with 0 for
    a side that is empty. *)
Theorem get_best_prices_correct :
  ∀ (P : Type) (O : PriceOrder P) (b : OrderBook.t (P := P)),
    best_or_zero is_max_key (OrderBook.get_best_prices b).1 (OrderBook.bids_ b)
    ∧ best_or_zero is_min_key (OrderBook.get_best_prices b).2 (OrderBook.asks_ b).
Proof.
  intros P O b. split; [apply get_best_bid_max | apply get_best_ask_min].
Qed.

(** Scenario S1 of the specification. *)
Example best_prices_after_two_adds :
  (λ '(_, b), OrderBook.get_best_prices b)
    <$> Trace.run [Trace.AddLimit BUY 100 1000 "A" 1; Trace.AddLimit SELL 101 1000 "B" 2]
          OrderBook.empty
  = Some (100, 101).
Proof. vm_compute. reflexivity. Qed.

(** ** Depth snapshots *)

Section SortFacts.
Context {P : Type} `{PriceOrder P}.
Variable comp : P * PriceLevel P → P * PriceLevel P → bool.
Hypothesis comp_asym : ∀ x y, comp x y = true → comp y x = false.
Hypothesis comp_le_trans : ∀ x y z,
  comp y x = false → comp z y = false → comp z x = false.
Implicit Types (l : SideBook (P := P)) (x y : P * PriceLevel P).

Lemma sort_insert_perm x l : sort_insert comp x l ≡ₚ x :: l.
Proof.
  induction l as [|y l IH]; simpl; [done|].
  destruct (comp x y); [done|]. rewrite IH. apply Permutation_swap.
Qed.

Lemma std_sort_perm l : std_sort comp l ≡ₚ l.
Proof.
  induction l as [|x l IH]; simpl; [done|].
  rewrite sort_insert_perm. by constructor.
Qed.

Lemma sort_insert_sorted x l :
  StronglySorted (λ a b, comp b a = false) l →
  StronglySorted (λ a b, comp b a = false) (sort_insert comp x l).
Proof.
  induction l as [|y l IH]; simpl; intros Hsorted.
  { by repeat constructor. }
  pose proof Hsorted as [Hl Hy]%StronglySorted_inv.
  destruct (comp x y) eqn:Hxy.
  - constructor; [done|]. constructor; [by apply comp_asym|].
    eapply Forall_impl; [exact Hy|]. intros z Hz. simpl in Hz.
    apply (comp_le_trans x y z); [by apply comp_asym | done].
  - constructor; [by apply IH|].
    rewrite sort_insert_perm. by constructor.
Qed.

Lemma std_sort_sorted l : StronglySorted (λ a b, comp b a = false) (std_sort comp l).
Proof.
  induction l as [|x l IH]; simpl; [constructor | by apply sort_insert_sorted].
Qed.
End SortFacts.

Section Depth.
Context {P : Type} `{PriceOrder P}.
Import Trace.
Implicit Types (l : SideBook (P := P)) (b : OrderBook.t (P := P)).

Lemma depth_loop_take (n : nat) l : OrderBook.depth_loop n l = snd <$> take n l.
Proof.
  revert l. induction n as [|n IH]; intros [|x l]; simpl; try done.
  by rewrite IH.
Qed.

(** The sorted copy [get_depth] reads from. *)
Lemma get_depth_sorted_copy (s : Side) (n : nat) b :
  ∃ sorted_levels,
    OrderBook.get_depth s n b = snd <$> take n sorted_levels
    ∧ sorted_levels ≡ₚ side_book s b
    ∧ best_first s (fst <$> sorted_levels).
Proof.
  unfold OrderBook.get_depth. rewrite depth_loop_take.
  destruct s; eexists; (split; [reflexivity|]); (split; [apply std_sort_perm|]); simpl.
  - apply (StronglySorted_fmap fst
             (λ x y : P * PriceLevel P, price_lt x.1 y.1 = false)); [done|].
    apply (std_sort_sorted (λ x y, price_lt y.1 x.1)).
    + intros x y. apply price_lt_asym.
    + intros x y z Hxy Hyz. by apply (price_le_trans z.1 y.1 x.1).
  - apply (StronglySorted_fmap fst
             (λ x y : P * PriceLevel P, price_lt y.1 x.1 = false)); [done|].
    apply (std_sort_sorted (λ x y, price_lt x.1 y.1)).
    + intros x y. apply price_lt_asym.
    + intros x y z Hxy Hyz. by apply (price_le_trans x.1 y.1 z.1).
Qed.

Lemma get_depth_of_wf_book (s : Side) (n : nat) b :
  book_wf b →
  let depth := OrderBook.get_depth s n b in
  (length depth ≤ n)%nat
  ∧ length depth = Nat.min n (length (side_book s b))
  ∧ (∀ level, level ∈ depth → level ∈ snd <$> side_book s b)
  ∧ best_first s (level_price <$> depth).
Proof.
  intros Hwf.
  destruct (get_depth_sorted_copy s n b) as (sorted_levels & -> & Hperm & Hbest).
  pose proof (book_wf_side s b Hwf) as [_ Hlevels].
  assert (Hlen : length (snd <$> take n sorted_levels)
                 = Nat.min n (length (side_book s b))).
  { by rewrite length_fmap, length_take, Hperm. }
  cbv zeta. split; [lia|]. split; [done|]. split.
  - intros level (node & -> & Hnode)%list_elem_of_fmap.
    apply list_elem_of_fmap_2. rewrite <- Hperm. by apply (subseteq_take n).
  - rewrite <- list_fmap_compose.
    rewrite <- Hperm in Hlevels.
    assert (Hprices : (level_price ∘ snd) <$> take n sorted_levels
                      = fst <$> take n sorted_levels).
    { apply list_fmap_ext. intros i node Hnode. simpl.
      apply (Forall_forall level_wf sorted_levels); [done|].
      apply (subseteq_take n). by apply list_elem_of_lookup_2 in Hnode. }
    rewrite Hprices, fmap_take.
    destruct s; simpl in *;
      (eapply StronglySorted_sublist; [apply sublist_take | done]).
Qed.
End Depth.

(** Scenario S6 of the specification, with a market sell before the
    snapshot. *)
Example depth_top_two :
  (λ '(_, b), (λ level : PriceLevel Z, (level_price level, total_quantity level))
                <$> OrderBook.get_depth BUY 2 b)
    <$> Trace.run [Trace.AddLimit BUY 100 10 "A" 1; Trace.AddLimit BUY 99 10 "B" 2;
                   Trace.AddLimit BUY 98 10 "C" 3; Trace.Market SELL 4 "M" 4]
          OrderBook.empty
  = Some [(100, 10); (99, 10)].
Proof. vm_compute. reflexivity. Qed.

(** ** The order count of a level *)

Section OrderCount.
Context {P : Type} `{PriceOrder P}.
Import Trace.
Implicit Types (m rest : SideBook (P := P)) (k p : P) (level : PriceLevel P)
  (b : OrderBook.t (P := P)) (s : Side).

Lemma price_eqb_refl p : price_eqb p p = true.
Proof. unfold price_eqb. by rewrite price_lt_irrefl. Qed.

Lemma price_eqb_below k p : price_lt k p = true → price_eqb p k = false.
Proof. unfold price_eqb. intros ->. by rewrite andb_false_r. Qed.

Lemma price_eqb_above k p : price_lt p k = true → price_eqb p k = false.
Proof. unfold price_eqb. by intros ->. Qed.

Lemma map_find_Some_key p m level : map_find p m = Some level → p ∈ fst <$> m.
Proof.
  induction m as [|[k v] rest IH]; simpl; [done|].
  destruct (price_cases p k) as [[-> _]|[[-> ->]|(-> & _)]]; [done | |].
  - intros Hfind. apply list_elem_of_further. by apply IH.
  - intros _. apply list_elem_of_here.
Qed.

Lemma keys_ascending_head k level rest p :
  keys_ascending ((k, level) :: rest) → p ∈ fst <$> rest → price_lt k p = true.
Proof.
  unfold keys_ascending. simpl. intros [_ Hall]%StronglySorted_inv Hp.
  rewrite Forall_forall in Hall. by apply Hall.
Qed.

Lemma map_find_skip k level rest p :
  price_lt k p = true → map_find p ((k, level) :: rest) = map_find p rest.
Proof. intros Hlt. simpl. by rewrite (price_lt_asym k p Hlt), Hlt. Qed.

Lemma side_wf_tail k level rest : side_wf ((k, level) :: rest) → side_wf rest.
Proof.
  intros [Hkeys Hlevels]. split.
  - unfold keys_ascending in *. simpl in Hkeys. by apply StronglySorted_inv in Hkeys as [? _].
  - by apply Forall_cons in Hlevels as [_ ?].
Qed.

(** What the walk did to the level it leaves at [p]: one increment of
    [order_count] when a fill was pushed at [p], nothing otherwise. *)
Lemma Walk_find (id_str : string) m (r : Z) m' (fills : list (MatchResult P)) p level' :
  Walk id_str m r m' fills → side_wf m → map_find p m' = Some level' →
  ∃ level,
    map_find p m = Some level
    ∧ if existsb (λ f, price_eqb p (match_price f)) fills
      then order_count level' = to_uint32 (order_count level + 1)
      else level' = level.
Proof.
  induction 1 as [r|m r Hr|k level rest r m' fills Hr Hz Hwalk IH
                 |k level rest r m' fills Ht Hwalk IH|k level rest r Hr];
    intros Hwf Hfind.
  - done.
  - by exists level'.
  - destruct (IH (side_wf_tail _ _ _ Hwf) Hfind) as (l & Hl & Hcount).
    exists l. split; [|done].
    rewrite map_find_skip; [done|].
    apply (keys_ascending_head k level rest); [apply Hwf|].
    by apply (map_find_Some_key p rest l).
  - destruct (IH (side_wf_tail _ _ _ Hwf) Hfind) as (l & Hl & Hcount).
    assert (Hbelow : price_lt k p = true).
    { apply (keys_ascending_head k level rest); [apply Hwf|].
      by apply (map_find_Some_key p rest l). }
    exists l. split; [by rewrite map_find_skip|].
    destruct Hwf as [_ [(Hprice & _) _]%Forall_cons]. simpl in Hprice.
    simpl. by rewrite Hprice, (price_eqb_below k p Hbelow).
  - destruct Hwf as [_ [(Hprice & _) _]%Forall_cons]. simpl in Hprice.
    simpl in Hfind |- *. rewrite Hprice, orb_false_r.
    destruct (price_cases p k) as [[Hlt _]|[[Hlt Hgt]|(-> & Hlt & _)]].
    + by rewrite Hlt in Hfind.
    + rewrite Hlt, Hgt in Hfind |- *. exists level'.
      by rewrite (price_eqb_below k p Hgt).
    + rewrite Hlt in Hfind |- *. injection Hfind as <-.
      exists level. by rewrite price_eqb_refl.
Qed.

Lemma map_find_level_add p k (q : Z) m :
  map_find p (level_add k q m)
  = if price_eqb p k
    then Some (update_quantity q (default (fresh_level k) (map_find k m)))
    else map_find p m.
Proof.
  induction m as [|[k' v'] rest IH].
  - simpl. unfold price_eqb.
    by destruct (price_lt p k), (price_lt k p).
  - cbn [level_add].
    destruct (price_cases k k') as [[Hlt Hgt]|[[Hlt Hgt]|(<- & Hlt & _)]].
    + rewrite Hlt. cbn [map_find]. rewrite Hlt. simpl.
      destruct (price_cases p k) as [[Hpk Hkp]|[[Hpk Hkp]|(-> & Hpk & _)]].
      * rewrite Hpk, (price_eqb_above k p Hpk).
        by rewrite (price_lt_trans p k k').
      * by rewrite Hpk, Hkp, (price_eqb_below k p Hkp).
      * by rewrite Hpk, price_eqb_refl.
    + rewrite Hlt, Hgt. cbn [map_find]. rewrite Hlt, Hgt, IH.
      destruct (price_cases p k') as [[Hpk Hkp]|[[Hpk Hkp]|(-> & Hpk & _)]].
      * rewrite Hpk. by rewrite (price_eqb_above k p (price_lt_trans p k' k Hpk Hgt)).
      * by rewrite Hpk, Hkp.
      * by rewrite Hpk, (price_eqb_above k k' Hgt).
    + rewrite Hlt. cbn [map_find]. rewrite Hlt. simpl.
      destruct (price_cases p k) as [[Hpk Hkp]|[[Hpk Hkp]|(-> & Hpk & _)]].
      * by rewrite Hpk, (price_eqb_above k p Hpk).
      * by rewrite Hpk, Hkp, (price_eqb_below k p Hkp).
      * by rewrite Hpk, price_eqb_refl.
Qed.

Lemma price_eqb_eq p k : price_eqb p k = true → p = k.
Proof.
  unfold price_eqb. intros [Hpk Hkp]%andb_true_iff.
  apply negb_true_iff in Hpk, Hkp. by apply price_lt_connex.
Qed.

Lemma deref_side_book s p b : OrderBook.deref (s, p) b = map_find p (side_book s b).
Proof. by destruct s. Qed.

(** One call keeps every level and its tally in agreement. *)
Lemma step_tally (op : Op) (reply : Reply) b b' s p (c : option (Z * Z)) :
  book_wf b → step op b = Some (reply, b') →
  count_agrees (OrderBook.deref (s, p) b) c →
  count_agrees (OrderBook.deref (s, p) b') (tally_step s p op reply b' c).
Proof.
  intros Hwf Hstep. rewrite !deref_side_book.
  destruct op as [s' k q id_str now|s' q id_str now].
  - rewrite step_add in Hstep. injection Hstep as <- <-.
    rewrite side_book_add_scalar. cbn [tally_step].
    destruct (Side_eqb s s'); [|done]. simpl.
    rewrite map_find_level_add.
    destruct (price_eqb p k) eqn:Hpk; [|done].
    apply price_eqb_eq in Hpk as ->.
    destruct (map_find k (side_book s b)) as [level|], c as [[adds fills]|]; simpl; try done.
    + intros ->. rewrite to_uint32_add_l. f_equal. lia.
  - rewrite step_market in Hstep.
    destruct (process_market_order_walk s' q id_str now b Hwf)
      as (m' & fills & Hrun & Hwalk).
    rewrite Hrun in Hstep. injection Hstep as <- <-.
    cbn [tally_step fst snd]. rewrite deref_side_book, side_book_with_side_book.
    destruct (Side_eqb s (opposite s')) eqn:Hs; [|done].
    assert (s = opposite s') as -> by (by destruct s, s').
    destruct (map_find p m') as [level'|] eqn:Hfind; [|done].
    destruct (Walk_find _ _ _ _ _ p level' Hwalk (book_wf_side _ b Hwf) Hfind)
      as (level & -> & Hcount).
    destruct c as [[adds n]|]; [|done]. simpl.
    destruct (existsb _ fills); simpl.
    + intros Hlevel. rewrite Hcount, Hlevel, to_uint32_add_l. f_equal. lia.
    + by subst level'.
Qed.

Lemma run_tally ops b (events : list (Op * Reply)) b' s p (c : option (Z * Z)) :
  book_wf b → run ops b = Some (events, b') →
  count_agrees (OrderBook.deref (s, p) b) c →
  count_agrees (OrderBook.deref (s, p) b') (tally s p ops b c).
Proof.
  revert b events c. induction ops as [|op rest IH]; intros b events c Hwf.
  - simpl. by intros [= <- <-].
  - cbn [run tally].
    destruct (step op b) as [[reply b1]|] eqn:Hstep; [|done]. simpl.
    destruct (run rest b1) as [[events' b2]|] eqn:Hrun; [|done]. simpl.
    intros [= <- <-] Hagree.
    apply (IH b1 events'); [by eapply step_wf | done |].
    by apply (step_tally op reply b).
Qed.
End OrderCount.

(** C10 (amended).  After any run, a level that is in the book has an
    [order_count] equal, as a [uint32_t], to the number of limit orders
    added to it since it was created plus the number of market orders
    that filled part of it; a price without a level has no tally. *)
Theorem order_count_tally :
  ∀ (P : Type) (O : PriceOrder P) (ops : list (Trace.Op (P := P)))
    (s : Side) (p : P),
    ∃ events b,
      Trace.run ops OrderBook.empty = Some (events, b)
      ∧ Trace.count_agrees (OrderBook.deref (s, p) b)
          (Trace.tally s p ops OrderBook.empty None).
Proof.
  intros P O ops s p.
  destruct (run_from_empty ops) as (events & b & Hrun & _).
  exists events, b. split; [done|].
  apply (run_tally ops OrderBook.empty events b); [apply book_wf_empty | done |].
  by destruct s.
Qed.

(** Two limit sells at 100 and a market buy that fills part of the level:
    two adds, one partial fill, and an [order_count] of 3. *)
Example order_count_counts_partial_fills :
  let ops := [Trace.AddLimit SELL 100 500 "A" 1; Trace.AddLimit SELL 100 500 "B" 2;
              Trace.Market BUY 300 "M" 3] in
  (λ '(_, b), OrderBook.deref (SELL, 100) b) <$> Trace.run ops OrderBook.empty
  = Some (Some (mkPriceLevel 100 700 3 0))
  ∧ Trace.tally SELL 100 ops OrderBook.empty None = Some (2, 1).
Proof. split; vm_compute; reflexivity. Qed.

Lemma one_more_add (k : Z) :
  Trace.step (Trace.AddLimit BUY 100 1 "A" 0) (book_after_adds k)
  = Some (Trace.Added true, book_after_adds (k + 1)).
Proof.
  rewrite step_add. unfold book_after_adds, add_scalar. simpl.
  unfold update_quantity. simpl.
  change (to_uint32 1) with 1. by rewrite to_uint32_add_l.
Qed.

Lemma many_adds_from (n : nat) (k : Z) :
  snd <$> Trace.run (many_adds n) (book_after_adds k)
  = Some (book_after_adds (k + Z.of_nat n))
  ∧ Trace.tally BUY 100 (many_adds n) (book_after_adds k) (Some (k, 0))
    = Some (k + Z.of_nat n, 0).
Proof.
  revert k. induction n as [|n IH]; intros k.
  - simpl. by rewrite Z.add_0_r.
  - unfold many_adds. cbn [replicate Trace.run Trace.tally].
    fold (many_adds n). rewrite one_more_add.
    destruct (IH (k + 1)) as [Hrun Htally].
    replace (k + Z.of_nat (S n)) with (k + 1 + Z.of_nat n) by lia.
    split.
    + cbn [mbind option_bind].
      destruct (Trace.run (many_adds n) (book_after_adds (k + 1))) as [[events b]|];
        [|done].
      exact Hrun.
    + exact Htally.
Qed.

Lemma many_adds_from_empty (n : nat) :
  (1 ≤ n)%nat →
  snd <$> Trace.run (many_adds n) OrderBook.empty
  = Some (book_after_adds (Z.of_nat n))
  ∧ Trace.tally BUY 100 (many_adds n) OrderBook.empty None
    = Some (Z.of_nat n, 0).
Proof.
  destruct n as [|n]; [lia|]. intros _.
  unfold many_adds. cbn [replicate Trace.run Trace.tally].
  fold (many_adds n). rewrite step_add.
  change (add_scalar BUY 100 (to_uint32 1) OrderBook.empty) with (book_after_adds 1).
  destruct (many_adds_from n 1) as [Hrun Htally].
  replace (Z.of_nat (S n)) with (1 + Z.of_nat n) by lia.
  split.
  - cbn [mbind option_bind].
    destruct (Trace.run (many_adds n) (book_after_adds 1)) as [[events b]|]; [|done].
    exact Hrun.
  - exact Htally.
Qed.

(** C10 as stated fails past the width of the field: after 2^32 limit buys
    at one price the tally of the level is 2^32 adds, and its
    [order_count] is 0. *)
Lemma order_count_wraps :
  snd <$> Trace.run (many_adds (Z.to_nat (2 ^ 32))) OrderBook.empty
  = Some {| OrderBook.bids_ := [(100, mkPriceLevel 100 0 0 0)];
            OrderBook.asks_ := [] |}
  ∧ Trace.tally BUY 100 (many_adds (Z.to_nat (2 ^ 32))) OrderBook.empty None
    = Some (4294967296, 0).
Proof.
  destruct (many_adds_from_empty (Z.to_nat (2 ^ 32))) as [Hrun Htally]; [lia|].
  rewrite Z2Nat.id in Hrun, Htally by lia.
  split; [exact Hrun | exact Htally].
Qed.

(** ** order_types.h: identifiers *)

Lemma c_str_until_NUL (l : list ascii) : c_str l = string_of_list_ascii (until_NUL l).
Proof.
  induction l as [|c rest IH]; simpl; [done|].
  destruct (Ascii.eqb c NUL); simpl; [done | by rewrite IH].
Qed.

Lemma until_NUL_app_NUL (l rest : list ascii) :
  until_NUL (l ++ NUL :: rest) = until_NUL l.
Proof.
  induction l as [|c l IH]; simpl; [done|].
  destruct (Ascii.eqb c NUL); [done | by rewrite IH].
Qed.

Lemma until_NUL_no_NUL (l : list ascii) : NUL ∉ until_NUL l.
Proof.
  induction l as [|c l IH]; simpl; [apply not_elem_of_nil|].
  destruct (Ascii.eqb c NUL) eqn:Hc; [apply not_elem_of_nil|].
  apply not_elem_of_cons. split; [|done].
  intros <-. by rewrite Ascii.eqb_refl in Hc.
Qed.

Lemma until_NUL_id (l : list ascii) : NUL ∉ l → until_NUL l = l.
Proof.
  induction l as [|c l IH]; simpl; [done|].
  intros [Hc Hl]%not_elem_of_cons.
  destruct (Ascii.eqb c NUL) eqn:Heq.
  - apply Ascii.eqb_eq in Heq. congruence.
  - by rewrite IH.
Qed.

Lemma until_NUL_length (l : list ascii) : (length (until_NUL l) ≤ length l)%nat.
Proof.
  induction l as [|c l IH]; simpl; [done|].
  destruct (Ascii.eqb c NUL); simpl; lia.
Qed.

(** [set_id] as one append: the copied characters, the terminator, and
    what the array held behind it. *)
Lemma set_id_app (id_str : string) (id : list ascii) :
  length id = MAX_ID_LENGTH →
  set_id id_str id
  = take 15 (list_ascii_of_string id_str)
    ++ NUL :: drop (S (Nat.min (length (list_ascii_of_string id_str)) 15)) id.
Proof.
  intros Hlen. unfold set_id, MAX_ID_LENGTH in *.
  set (src := list_ascii_of_string id_str).
  change (16 - 1)%nat with 15%nat.
  set (c := Nat.min (length src) 15).
  assert (Htake : take c src = take 15 src).
  { unfold c. destruct (Nat.le_ge_cases (length src) 15) as [Hle|Hge].
    - rewrite Nat.min_l by done. by rewrite !take_ge by lia.
    - by rewrite Nat.min_r by done. }
  assert (Hc : length (take c src) = c).
  { rewrite length_take. unfold c. lia. }
  rewrite insert_app_r_alt by lia. rewrite Hc, Nat.sub_diag, Htake.
  f_equal.
  destruct (drop c id) as [|x rest] eqn:Hdrop.
  - apply (f_equal length) in Hdrop. rewrite length_drop in Hdrop.
    simpl in Hdrop. unfold c in Hdrop. lia.
  - simpl. f_equal.
    replace (S c) with (c + 1)%nat by lia.
    rewrite <- drop_drop, Hdrop. reflexivity.
Qed.

Lemma length_list_ascii (s : string) :
  length (list_ascii_of_string s) = String.length s.
Proof. induction s as [|c s IH]; simpl; [done | by rewrite IH]. Qed.

Lemma get_id_set_id_read (id_str : string) (id : list ascii) :
  length id = MAX_ID_LENGTH →
  get_id (set_id id_str id)
  = string_of_list_ascii (until_NUL (take 15 (list_ascii_of_string id_str))).
Proof.
  intros Hlen. unfold get_id.
  by rewrite set_id_app, c_str_until_NUL, until_NUL_app_NUL.
Qed.

(** An identifier that was read from an array sets and reads back as
    itself. *)
Lemma get_id_set_id_again (id_str : string) :
  get_id (set_id (get_id (set_id id_str empty_id)) empty_id)
  = get_id (set_id id_str empty_id).
Proof.
  rewrite !get_id_set_id_read by reflexivity.
  rewrite list_ascii_of_string_of_list_ascii.
  set (t := until_NUL (take 15 (list_ascii_of_string id_str))).
  assert (Hlen : (length t ≤ 15)%nat).
  { unfold t. etrans; [apply until_NUL_length|]. rewrite length_take. lia. }
  rewrite take_ge by done.
  by rewrite until_NUL_id by apply until_NUL_no_NUL.
Qed.

(** X6.  What [get_id] reads after [set_id], whatever the array held
    before: the first fifteen characters of the string, cut at its first
    NUL.  For a string of at most fifteen characters without NUL this is
    the string itself. *)
Theorem get_id_set_id :
  ∀ (id_str : string) (id : list ascii),
    length id = MAX_ID_LENGTH →
    length (set_id id_str id) = MAX_ID_LENGTH
    ∧ get_id (set_id id_str id)
      = string_of_list_ascii (until_NUL (take 15 (list_ascii_of_string id_str)))
    ∧ ((String.length id_str ≤ 15)%nat → NUL ∉ list_ascii_of_string id_str →
       get_id (set_id id_str id) = id_str).
Proof.
  intros id_str id Hlen.
  pose proof (get_id_set_id_read id_str id Hlen) as Hread.
  split; [|split; [done|]].
  - unfold set_id. rewrite length_insert, length_app, length_take, length_drop.
    unfold MAX_ID_LENGTH in *. lia.
  - intros Hshort Hclean. rewrite Hread.
    rewrite take_ge by (by rewrite length_list_ascii).
    rewrite until_NUL_id by done. apply string_of_list_ascii_of_string.
Qed.

Lemma get_id_set_id_witness :
  length (set_id "ORDER1" empty_id) = MAX_ID_LENGTH
  ∧ get_id (set_id "ORDER1" empty_id)
    = string_of_list_ascii (until_NUL (take 15 (list_ascii_of_string "ORDER1")))
  ∧ ((String.length "ORDER1" ≤ 15)%nat → NUL ∉ list_ascii_of_string "ORDER1" →
     get_id (set_id "ORDER1" empty_id) = "ORDER1"%string).
Proof. apply (get_id_set_id "ORDER1" empty_id). reflexivity. Defined.

Section FillIds.
Context {P : Type} `{PriceOrder P}.

Lemma match_loop_ids (order_id : string) (m : SideBook (P := P)) (r : Z)
    (acc : list (MatchResult P)) :
  Forall (λ f, counterparty_id f = set_id order_id empty_id) acc →
  Forall (λ f, counterparty_id f = set_id order_id empty_id)
    (OrderBook.match_loop order_id m r acc).2.
Proof.
  revert r acc. induction m as [|[k level] rest IH]; intros r acc Hacc; simpl; [done|].
  destruct (0 <? r); [|done].
  destruct (0 <? Z.min r (total_quantity level)).
  - assert (Hacc' : Forall (λ f, counterparty_id f = set_id order_id empty_id)
                      (acc ++ [{| match_quantity := Z.min r (total_quantity level);
                                  match_price := level_price level;
                                  counterparty_id := set_id order_id empty_id |}])).
    { apply Forall_app. split; [done | by repeat constructor]. }
    specialize (IH (to_uint32 (r - Z.min r (total_quantity level))) _ Hacc').
    destruct (total_quantity _ =? 0); [done|].
    by destruct (OrderBook.match_loop _ _ _ _).
  - specialize (IH r acc Hacc).
    destruct (total_quantity level =? 0); [done|].
    by destruct (OrderBook.match_loop _ _ _ _).
Qed.
End FillIds.

(** X7.  Every fill a market order returns carries the order's own
    identifier: reading [counterparty_id] gives what [get_id] gives on
    the order, the first fifteen characters of the caller's string cut at
    its first NUL.  This holds on every book. *)
Theorem market_fills_carry_order_id :
  ∀ (P : Type) (O : PriceOrder P) (s : Side) (quantity : Z) (id_str : string)
    (now : Z) (b : OrderBook.t (P := P)),
    Forall (λ f, get_id (counterparty_id f)
                 = string_of_list_ascii
                     (until_NUL (take 15 (list_ascii_of_string id_str))))
      (OrderBook.process_market_order s quantity id_str now b).1.
Proof.
  intros P O s quantity id_str now b.
  assert (Hids : Forall (λ f, counterparty_id f
                              = set_id (get_id (set_id id_str empty_id)) empty_id)
                   (OrderBook.process_market_order s quantity id_str now b).1).
  { unfold OrderBook.process_market_order, OrderBook.match_market_order_simd. simpl.
    destruct s.
    - pose proof (match_loop_ids (get_id (set_id id_str empty_id))
                    (OrderBook.asks_ b) (to_uint32 quantity) [] (Forall_nil_2 _)) as Hloop.
      by destruct (OrderBook.match_loop _ _ _ _).
    - pose proof (match_loop_ids (get_id (set_id id_str empty_id))
                    (OrderBook.bids_ b) (to_uint32 quantity) [] (Forall_nil_2 _)) as Hloop.
      by destruct (OrderBook.match_loop _ _ _ _). }
  eapply Forall_impl; [exact Hids|]. intros f ->. simpl.
  rewrite get_id_set_id_again. by apply get_id_set_id_read.
Qed.

(** ** lock_free_queue.h: safety, the fresh ring, and the queue a sequenced ring is *)

Section RingFacts.
Context {T : Type}.
Import LockFreeQueue.
Implicit Types (q : LockFreeQueue.t (T := T)) (N : nat).

Lemma land_le_mask (a b : Z) : 0 <= a → 0 <= b → 0 <= Z.land a b <= b.
Proof.
  intros Ha Hb. split; [apply Z.land_nonneg; by left|].
  rewrite <- (Z2N.id a), <- (Z2N.id b) at 1 by done.
  rewrite <- N2Z.inj_land.
  rewrite <- (Z2N.id b) at 2 by done.
  apply N2Z.inj_le, N.land_le_r.
Qed.

Lemma BUFFER_MASK_small N :
  (1 ≤ N)%nat → Z.of_nat N <= 2 ^ 64 → BUFFER_MASK N = Z.of_nat N - 1.
Proof.
  intros HN Hmax. unfold BUFFER_MASK, to_uint64. apply Z.mod_small. lia.
Qed.

(** No ticket indexes past the vector, power of two or not. *)
Lemma slot_of_bound N (ticket : Z) :
  (1 ≤ N)%nat → Z.of_nat N <= 2 ^ 64 → 0 <= ticket → (slot_of N ticket < N)%nat.
Proof.
  intros HN Hmax Hticket. unfold slot_of.
  pose proof (land_le_mask ticket (BUFFER_MASK N) Hticket) as Hland.
  rewrite BUFFER_MASK_small in * by done. lia.
Qed.

Lemma to_uint64_range (z : Z) : 0 <= to_uint64 z < 2 ^ 64.
Proof. unfold to_uint64. apply Z.mod_pos_bound. lia. Qed.

Lemma try_enqueue_shape N (x : T) q :
  (1 ≤ N)%nat → Z.of_nat N <= 2 ^ 64 → ring_shape N q →
  ∃ ok q', try_enqueue N x q = Some (ok, q')
           ∧ ring_shape N q' ∧ head_ q' = head_ q.
Proof.
  intros HN Hmax (Hlen & Hhead & Htail). unfold try_enqueue.
  fold (slot_of N (tail_ q)).
  destruct (lookup_lt_is_Some_2 (buffer_ q) (slot_of N (tail_ q))) as [node ->].
  { rewrite Hlen. apply slot_of_bound; lia. }
  simpl. destruct (sequence node =? tail_ q).
  - eexists _, _. split; [reflexivity|]. split; [|done].
    split; [simpl; by rewrite length_insert|].
    split; [done | apply to_uint64_range].
  - by exists false, q.
Qed.

Lemma try_dequeue_shape N q :
  (1 ≤ N)%nat → Z.of_nat N <= 2 ^ 64 → ring_shape N q →
  ∃ x q', try_dequeue N q = Some (x, q')
          ∧ ring_shape N q' ∧ tail_ q' = tail_ q.
Proof.
  intros HN Hmax (Hlen & Hhead & Htail). unfold try_dequeue.
  fold (slot_of N (head_ q)).
  destruct (lookup_lt_is_Some_2 (buffer_ q) (slot_of N (head_ q))) as [node ->].
  { rewrite Hlen. apply slot_of_bound; lia. }
  simpl. destruct (sequence node =? to_uint64 (head_ q + 1)).
  - eexists _, _. split; [reflexivity|]. split; [|done].
    split; [simpl; by rewrite length_insert|].
    split; [apply to_uint64_range | done].
  - by exists None, q.
Qed.

Lemma new_shape N (d : T) : ring_shape N (new N d).
Proof.
  split; [|split; simpl; lia].
  by rewrite new_buffer, length_replicate.
Qed.

Lemma ring_step_shape N (op : RingOp) q :
  (1 ≤ N)%nat → Z.of_nat N <= 2 ^ 64 → ring_shape N q →
  ∃ reply q', ring_step N op q = Some (reply, q') ∧ ring_shape N q'.
Proof.
  intros HN Hmax Hshape. destruct op as [x|]; simpl.
  - destruct (try_enqueue_shape N x q) as (ok & q' & -> & Hshape' & _); try done.
    simpl. eauto.
  - destruct (try_dequeue_shape N q) as (x & q' & -> & Hshape' & _); try done.
    simpl. eauto.
Qed.

Lemma ring_run_shape N (ops : list RingOp) q :
  (1 ≤ N)%nat → Z.of_nat N <= 2 ^ 64 → ring_shape N q →
  ∃ replies q', ring_run N ops q = Some (replies, q')
                ∧ length replies = length ops ∧ ring_shape N q'.
Proof.
  intros HN Hmax. revert q. induction ops as [|op rest IH]; intros q Hshape; simpl.
  { by exists [], q. }
  destruct (ring_step_shape N op q) as (reply & q1 & -> & Hshape1); try done.
  simpl. destruct (IH q1 Hshape1) as (replies & q2 & -> & Hlen & Hshape2).
  simpl. eexists _, _. split; [reflexivity|]. simpl. by rewrite Hlen.
Qed.
End RingFacts.

(** X8.  [try_enqueue] and [try_dequeue] are memory safe on a ring of any
    capacity from 1 to 2^64, power of two or not: on a vector of [N] slots
    with counters in [uint64_t], every run of attempts returns, one reply
    for each attempt, and leaves a ring of the same shape. *)
Theorem ring_run_in_bounds :
  ∀ (T : Type) (N : nat) (ops : list (RingOp (T := T)))
    (q : LockFreeQueue.t (T := T)),
    (1 ≤ N)%nat → Z.of_nat N <= 2 ^ 64 → ring_shape N q →
    ∃ replies q',
      ring_run N ops q = Some (replies, q')
      ∧ length replies = length ops
      ∧ ring_shape N q'.
Proof. intros T N ops q. apply ring_run_shape. Qed.

Lemma ring_run_in_bounds_witness :
  ∃ replies q',
    ring_run 3 [Enqueue 7%nat; Dequeue; Enqueue 8%nat] (LockFreeQueue.new 3 0%nat)
      = Some (replies, q')
    ∧ length replies = length [Enqueue 7%nat; Dequeue; Enqueue 8%nat]
    ∧ ring_shape 3 q'.
Proof.
  apply (ring_run_in_bounds nat 3 [Enqueue 7%nat; Dequeue; Enqueue 8%nat]
           (LockFreeQueue.new 3 0%nat)).
  - lia.
  - simpl. lia.
  - split; [reflexivity | split; simpl; lia].
Defined.

Section RingStuck.
Context {T : Type}.
Import LockFreeQueue.

Lemma fresh_ring_try_enqueue (n : nat) (d x : T) :
  try_enqueue (S n) x (new (S n) d) = Some (false, new (S n) d).
Proof.
  unfold try_enqueue. rewrite new_buffer.
  change (tail_ (new (S n) d)) with 0.
  rewrite Z.land_0_l. simpl. reflexivity.
Qed.

Lemma fresh_ring_run (n : nat) (d : T) (ops : list (RingOp (T := T))) :
  ring_run (S n) ops (new (S n) d) = Some (refusal <$> ops, new (S n) d).
Proof.
  induction ops as [|op rest IH]; [done|].
  destruct op as [x|]; cbn [ring_run ring_step].
  - rewrite (fresh_ring_try_enqueue n d x). cbn [mbind option_bind].
    by rewrite IH.
  - rewrite (fresh_ring_try_dequeue T n d). cbn [mbind option_bind].
    by rewrite IH.
Qed.

(** One element through an empty ring whose next slot is ready. *)
Lemma enqueue_dequeue_ready (N : nat) (x : T) (q : LockFreeQueue.t (T := T))
    (node : Node) :
  head_ q = tail_ q →
  buffer_ q !! slot_of N (tail_ q) = Some node →
  sequence node = tail_ q →
  ∃ q1 q2,
    try_enqueue N x q = Some (true, q1)
    ∧ try_dequeue N q1 = Some (Some x, q2)
    ∧ head_ q2 = to_uint64 (tail_ q + 1)
    ∧ tail_ q2 = to_uint64 (tail_ q + 1)
    ∧ sequence <$> buffer_ q2 !! slot_of N (tail_ q)
      = Some (to_uint64 (tail_ q + Z.of_nat N)).
Proof.
  destruct q as [h t buf]. cbn [head_ tail_ buffer_]. intros -> Hslot Hseq.
  assert (Hin : (slot_of N t < length buf)%nat).
  { apply lookup_lt_is_Some. eauto. }
  eexists _, _. split; [|split].
  - unfold try_enqueue. cbn [head_ tail_ buffer_]. fold (slot_of N t).
    rewrite Hslot. simpl. rewrite Hseq, Z.eqb_refl. reflexivity.
  - unfold try_dequeue. cbn [head_ tail_ buffer_]. fold (slot_of N t).
    rewrite list_lookup_insert_eq by done. simpl.
    rewrite Z.eqb_refl. reflexivity.
  - cbn [head_ tail_ buffer_].
    rewrite list_lookup_insert_eq by (by rewrite length_insert).
    done.
Qed.
End RingStuck.

(** X9.  A ring as the constructor leaves it never accepts and never
    yields an element: whatever the capacity and whatever the attempts,
    every [try_enqueue] returns false, every [try_dequeue] returns nothing,
    and the ring stays as constructed. *)
Theorem fresh_ring_refuses_every_attempt :
  ∀ (T : Type) (n : nat) (d : T) (ops : list (RingOp (T := T))),
    ring_run (S n) ops (LockFreeQueue.new (S n) d)
    = Some (refusal <$> ops, LockFreeQueue.new (S n) d).
Proof. intros T n d ops. apply fresh_ring_run. Qed.

(** X10.  On a ring of any capacity that is empty ([head_ = tail_]) and
    whose slot for the next ticket is ready (its sequence is the ticket),
    [try_enqueue x] succeeds, the [try_dequeue] that follows returns [x],
    both counters have advanced by one, and the slot is marked for the
    ticket one lap on. *)
Theorem enqueue_then_dequeue_returns_element :
  ∀ (T : Type) (N : nat) (x : T) (q : LockFreeQueue.t (T := T))
    (node : LockFreeQueue.Node (T := T)),
    LockFreeQueue.head_ q = LockFreeQueue.tail_ q →
    LockFreeQueue.buffer_ q !! slot_of N (LockFreeQueue.tail_ q) = Some node →
    LockFreeQueue.sequence node = LockFreeQueue.tail_ q →
    ∃ q1 q2,
      LockFreeQueue.try_enqueue N x q = Some (true, q1)
      ∧ LockFreeQueue.try_dequeue N q1 = Some (Some x, q2)
      ∧ LockFreeQueue.head_ q2 = to_uint64 (LockFreeQueue.tail_ q + 1)
      ∧ LockFreeQueue.tail_ q2 = to_uint64 (LockFreeQueue.tail_ q + 1)
      ∧ LockFreeQueue.sequence
          <$> LockFreeQueue.buffer_ q2 !! slot_of N (LockFreeQueue.tail_ q)
        = Some (to_uint64 (LockFreeQueue.tail_ q + Z.of_nat N)).
Proof. intros T N x q node. apply enqueue_dequeue_ready. Qed.

Lemma enqueue_then_dequeue_witness :
  let q := {| LockFreeQueue.head_ := 5; LockFreeQueue.tail_ := 5;
              LockFreeQueue.buffer_ :=
                [LockFreeQueue.mkNode 0%nat 8; LockFreeQueue.mkNode 0%nat 5;
                 LockFreeQueue.mkNode 0%nat 6; LockFreeQueue.mkNode 0%nat 7] |} in
  ∃ q1 q2,
    LockFreeQueue.try_enqueue 4 42%nat q = Some (true, q1)
    ∧ LockFreeQueue.try_dequeue 4 q1 = Some (Some 42%nat, q2)
    ∧ LockFreeQueue.head_ q2 = to_uint64 (LockFreeQueue.tail_ q + 1)
    ∧ LockFreeQueue.tail_ q2 = to_uint64 (LockFreeQueue.tail_ q + 1)
    ∧ LockFreeQueue.sequence
        <$> LockFreeQueue.buffer_ q2 !! slot_of 4 (LockFreeQueue.tail_ q)
      = Some (to_uint64 (LockFreeQueue.tail_ q + Z.of_nat 4)).
Proof.
  apply (enqueue_then_dequeue_returns_element nat 4 42%nat _
           (LockFreeQueue.mkNode 0%nat 5)); reflexivity.
Defined.

Section RingFifo.
Context {T : Type}.
Import LockFreeQueue.
Variable k : nat.
Hypothesis k_range : (1 ≤ k ≤ 63)%nat.
Local Abbreviation N := (2 ^ k)%nat.

Lemma pow2_capacity : Z.of_nat N = 2 ^ Z.of_nat k ∧ 2 <= Z.of_nat N <= 2 ^ 63.
Proof.
  assert (HN : Z.of_nat N = 2 ^ Z.of_nat k).
  { by rewrite Nat2Z.inj_pow. }
  split; [done|]. rewrite HN. split.
  - change 2 with (2 ^ 1) at 1. apply Z.pow_le_mono_r; lia.
  - apply Z.pow_le_mono_r; lia.
Qed.

(** For a capacity that is a power of two the mask takes the ticket
    modulo the capacity. *)
Lemma slot_of_mod (ticket : Z) : slot_of N ticket = Z.to_nat (ticket mod Z.of_nat N).
Proof.
  destruct pow2_capacity as [HN Hrange].
  unfold slot_of. rewrite BUFFER_MASK_small by lia.
  rewrite HN.
  replace (2 ^ Z.of_nat k - 1) with (Z.ones (Z.of_nat k))
    by (rewrite Z.ones_equiv; lia).
  by rewrite Z.land_ones by lia.
Qed.

Lemma slot_of_lap (ticket : Z) : slot_of N (ticket + Z.of_nat N) = slot_of N ticket.
Proof.
  destruct pow2_capacity as [_ Hrange].
  rewrite !slot_of_mod. f_equal.
  rewrite <- (Z.mul_1_l (Z.of_nat N)) at 1. apply Z.mod_add. lia.
Qed.

(** Two tickets less than a lap apart have different slots. *)
Lemma slot_of_inj (h : Z) (i j : nat) :
  (i < N)%nat → (j < N)%nat →
  slot_of N (h + Z.of_nat i) = slot_of N (h + Z.of_nat j) → i = j.
Proof.
  destruct pow2_capacity as [_ Hrange].
  intros Hi Hj. rewrite !slot_of_mod. intros Heq.
  apply Z2Nat.inj in Heq; [| apply Z.mod_pos_bound; lia | apply Z.mod_pos_bound; lia].
  pose proof (Z.div_mod (h + Z.of_nat i) (Z.of_nat N) ltac:(lia)) as Hdi.
  pose proof (Z.div_mod (h + Z.of_nat j) (Z.of_nat N) ltac:(lia)) as Hdj.
  rewrite Heq in Hdi.
  assert ((h + Z.of_nat i) / Z.of_nat N = (h + Z.of_nat j) / Z.of_nat N) by nia.
  lia.
Qed.

Lemma to_uint64_id (z : Z) : 0 <= z < 2 ^ 64 → to_uint64 z = z.
Proof. intros Hz. unfold to_uint64. apply Z.mod_small. lia. Qed.

Lemma ring_holds_enqueue (x : T) (q : LockFreeQueue.t (T := T)) (l : list T) :
  ring_holds N q l → tail_ q + 1 < 2 ^ 64 →
  ∃ q',
    ring_step N (Enqueue x) q = Some ((fifo_step N (Enqueue x) l).1, q')
    ∧ ring_holds N q' (fifo_step N (Enqueue x) l).2
    ∧ tail_ q' <= tail_ q + 1.
Proof.
  destruct pow2_capacity as [_ Hrange].
  destruct q as [h t buf].
  intros (Hlen & Hh & Ht & Hcap & Hused & Hfree) Hroom.
  cbn [head_ tail_ buffer_] in *. subst t.
  cbn [ring_step fifo_step]. unfold try_enqueue. cbn [head_ tail_ buffer_].
  fold (slot_of N (h + Z.of_nat (length l))).
  destruct (decide (length l < N)%nat) as [Hspace|Hfull]; cbn [fst snd].
  - destruct (Hfree (length l)) as (node & Hnode & Hseq); [lia|].
    assert (Hslot : (slot_of N (h + Z.of_nat (length l)) < length buf)%nat).
    { apply lookup_lt_is_Some. eauto. }
    rewrite Hnode. cbn [mbind option_bind]. rewrite Hseq, Z.eqb_refl.
    rewrite to_uint64_id by lia. cbn [mbind option_bind].
    eexists. split; [reflexivity|]. split; [|cbn [tail_]; lia].
    split; [cbn [buffer_]; by rewrite length_insert|].
    cbn [head_ tail_ buffer_]. rewrite length_app. cbn [length].
    split; [done|]. split; [lia|]. split; [lia|]. split.
    + intros j Hj. destruct (decide (j = length l)) as [->|Hne].
      * eexists. rewrite list_lookup_insert_eq by done.
        split; [reflexivity|]. split; [done|]. cbn [data].
        by rewrite lookup_app_r, Nat.sub_diag by lia.
      * destruct (Hused j) as (node' & Hnode' & Hseq' & Hdata); [lia|].
        exists node'. rewrite list_lookup_insert_ne.
        -- split; [done|]. split; [done|]. by rewrite lookup_app_l by lia.
        -- intros Heq. apply slot_of_inj in Heq; lia.
    + intros j Hj. destruct (Hfree j) as (node' & Hnode' & Hseq'); [lia|].
      exists node'. rewrite list_lookup_insert_ne; [done|].
      intros Heq. apply slot_of_inj in Heq; lia.
  - assert (Hl : length l = N) by lia.
    destruct (Hused 0%nat) as (node & Hnode & Hseq & _); [lia|].
    rewrite Hl, slot_of_lap. rewrite Z.add_0_r in Hnode, Hseq.
    rewrite Hnode. cbn [mbind option_bind]. rewrite Hseq.
    destruct (h + 1 =? h + Z.of_nat N) eqn:Heq; [apply Z.eqb_eq in Heq; lia|].
    cbn [mbind option_bind].
    eexists. split; [reflexivity|]. split; [|cbn [tail_]; lia].
    repeat split; try done. cbn [head_ tail_]. by rewrite Hl.
Qed.

Lemma ring_holds_dequeue (q : LockFreeQueue.t (T := T)) (l : list T) :
  ring_holds N q l → head_ q + Z.of_nat N < 2 ^ 64 →
  ∃ q',
    ring_step N Dequeue q = Some ((fifo_step N Dequeue l).1, q')
    ∧ ring_holds N q' (fifo_step N Dequeue l).2
    ∧ tail_ q' = tail_ q.
Proof.
  destruct pow2_capacity as [_ Hrange].
  destruct q as [h t buf].
  intros (Hlen & Hh & Ht & Hcap & Hused & Hfree) Hroom.
  cbn [head_ tail_ buffer_] in *. subst t.
  cbn [ring_step fifo_step]. unfold try_dequeue. cbn [head_ tail_ buffer_].
  fold (slot_of N h).
  rewrite (to_uint64_id (h + 1)) by lia.
  destruct l as [|y rest]; cbn [fst snd].
  - destruct (Hfree 0%nat) as (node & Hnode & Hseq); [simpl; lia|].
    rewrite Z.add_0_r in Hnode, Hseq.
    rewrite Hnode. cbn [mbind option_bind]. rewrite Hseq.
    destruct (h =? h + 1) eqn:Heq; [apply Z.eqb_eq in Heq; lia|].
    cbn [mbind option_bind].
    eexists. split; [reflexivity|]. split; [|done].
    repeat split; try done.
  - destruct (Hused 0%nat) as (node & Hnode & Hseq & Hdata); [simpl; lia|].
    rewrite Z.add_0_r in Hnode, Hseq. injection Hdata as ->.
    assert (Hslot : (slot_of N h < length buf)%nat).
    { apply lookup_lt_is_Some. eauto. }
    rewrite Hnode. cbn [mbind option_bind]. rewrite Hseq, Z.eqb_refl.
    rewrite to_uint64_id by lia. cbn [mbind option_bind].
    eexists. split; [reflexivity|]. split; [|done].
    cbn [length] in *.
    split; [cbn [buffer_]; by rewrite length_insert|].
    cbn [head_ tail_ buffer_].
    split; [lia|]. split; [lia|]. split; [lia|]. split.
    + intros j Hj. destruct (Hused (S j)) as (node' & Hnode' & Hseq' & Hdata'); [lia|].
      replace (h + 1 + Z.of_nat j) with (h + Z.of_nat (S j)) by lia.
      exists node'. rewrite list_lookup_insert_ne.
      * split; [done|]. split; [lia | done].
      * intros Heq. rewrite <- (Z.add_0_r h) in Heq at 1.
        apply (slot_of_inj h 0 (S j)) in Heq; lia.
    + intros j Hj.
      replace (h + 1 + Z.of_nat j) with (h + Z.of_nat (S j)) by lia.
      destruct (decide (S j = N)) as [Hlap|Hin].
      * rewrite Hlap, slot_of_lap.
        eexists. rewrite list_lookup_insert_eq by done.
        split; [reflexivity|]. cbn [sequence]. lia.
      * destruct (Hfree (S j)) as (node' & Hnode' & Hseq'); [lia|].
        exists node'. rewrite list_lookup_insert_ne; [done|].
        intros Heq. rewrite <- (Z.add_0_r h) in Heq at 1.
        apply (slot_of_inj h 0 (S j)) in Heq; lia.
Qed.

(** The ring performs what the bounded queue performs. *)
Lemma ring_run_fifo (ops : list (RingOp (T := T))) (q : LockFreeQueue.t (T := T))
    (l : list T) :
  ring_holds N q l →
  tail_ q + Z.of_nat (length ops) + Z.of_nat N < 2 ^ 64 →
  ∃ q',
    ring_run N ops q = Some ((fifo_run N ops l).1, q')
    ∧ ring_holds N q' (fifo_run N ops l).2.
Proof.
  destruct pow2_capacity as [_ Hrange].
  revert q l. induction ops as [|op rest IH]; intros q l Hholds Hroom.
  { exists q. by split. }
  cbn [ring_run fifo_run length] in *.
  assert (Hhead : head_ q <= tail_ q).
  { destruct Hholds as (_ & _ & -> & _). lia. }
  assert (Hstep : ∃ q1,
             ring_step N op q = Some ((fifo_step N op l).1, q1)
             ∧ ring_holds N q1 (fifo_step N op l).2
             ∧ tail_ q1 <= tail_ q + 1).
  { destruct op as [x|].
    - apply ring_holds_enqueue; [done | lia].
    - destruct (ring_holds_dequeue q l Hholds) as (q1 & ? & ? & Htl); [lia|].
      exists q1. split; [done|]. split; [done | lia]. }
  destruct Hstep as (q1 & -> & Hholds1 & Htail1).
  destruct (fifo_step N op l) as [reply l1]. cbn [fst snd] in *.
  cbn [mbind option_bind].
  destruct (IH q1 l1 Hholds1) as (q2 & -> & Hholds2); [lia|].
  destruct (fifo_run N rest l1) as [replies l2]. cbn [fst snd] in *.
  cbn [mbind option_bind]. by exists q2.
Qed.
End RingFifo.

(** X11.  On a ring whose capacity is a power of two from 2 to 2^63 and
    whose slots are sequenced as the tickets expect, one thread's
    [try_enqueue] and [try_dequeue] are a first-in first-out queue of that
    capacity: every attempt returns what the bounded queue returns
    (enqueue fails exactly when the ring holds [N] elements, dequeue
    exactly when it holds none, elements leave in the order they came),
    and the ring keeps holding the queue.  The run is short of wrapping the
    64-bit tickets. *)
Theorem ring_is_bounded_fifo :
  ∀ (T : Type) (k : nat) (ops : list (RingOp (T := T)))
    (q : LockFreeQueue.t (T := T)) (l : list T),
    (1 ≤ k ≤ 63)%nat →
    ring_holds (2 ^ k) q l →
    LockFreeQueue.tail_ q + Z.of_nat (length ops) + Z.of_nat (2 ^ k) < 2 ^ 64 →
    ∃ q',
      ring_run (2 ^ k) ops q = Some ((fifo_run (2 ^ k) ops l).1, q')
      ∧ ring_holds (2 ^ k) q' (fifo_run (2 ^ k) ops l).2.
Proof. intros T k ops q l Hk. by apply ring_run_fifo. Qed.

Lemma ring_is_bounded_fifo_witness :
  ∃ q',
    ring_run (2 ^ 2) ring_ops ready_ring = Some ((fifo_run (2 ^ 2) ring_ops []).1, q')
    ∧ ring_holds (2 ^ 2) q' (fifo_run (2 ^ 2) ring_ops []).2.
Proof.
  apply (ring_is_bounded_fifo nat 2 ring_ops ready_ring []).
  - lia.
  - split; [reflexivity|]. split; [simpl; lia|]. split; [reflexivity|].
    split; [simpl; lia|]. split.
    + intros j Hj. simpl in Hj. lia.
    + intros j Hj. simpl in Hj.
      destruct j as [|[|[|[|j]]]]; [| | | |lia];
        (eexists; split; [reflexivity | reflexivity]).
  - simpl. lia.
Defined.

(** What the run of the witness returns. *)
Example ring_ops_replies :
  fst <$> ring_run 4 ring_ops ready_ring
  = Some [Dequeued None; Enqueued true; Enqueued true; Dequeued (Some 1%nat);
          Enqueued true; Enqueued true; Enqueued true; Enqueued false;
          Dequeued (Some 2%nat); Dequeued (Some 3%nat); Dequeued (Some 4%nat);
          Dequeued (Some 5%nat); Dequeued None].
Proof. vm_compute. reflexivity. Qed.

Lemma land_pow2_clear_bit (m i : Z) :
  0 <= i → Z.testbit m i = false → Z.land (2 ^ i) m = 0.
Proof.
  intros Hi Hbit. apply Z.bits_inj'. intros j Hj.
  rewrite Z.land_spec, Z.bits_0, Z.pow2_bits_eqb by done.
  destruct (Z.eqb_spec i j) as [->|_]; [by rewrite Hbit | done].
Qed.

(** X12.  When the mask [N - 1] has a zero bit [i] with [2^i < N], which
    every capacity from 2 on that is not a power of two has, the tickets 0
    and [2^i] are less than a lap apart and fall in the same slot. *)
Theorem mask_with_clear_bit_shares_slots :
  ∀ (N : nat) (i : Z),
    (1 ≤ N)%nat → Z.of_nat N <= 2 ^ 64 →
    0 <= i → 2 ^ i < Z.of_nat N → Z.testbit (Z.of_nat N - 1) i = false →
    slot_of N (2 ^ i) = slot_of N 0.
Proof.
  intros N i HN Hmax Hi Hlap Hbit. unfold slot_of.
  rewrite BUFFER_MASK_small by done.
  by rewrite land_pow2_clear_bit, Z.land_0_l.
Qed.

(** For the ring of the order book, [MAX_ORDERS] = 1000000 slots: bit 6 of
    999999 is clear, and tickets 0 and 64 share slot 0. *)
Lemma mask_with_clear_bit_witness :
  slot_of (Z.to_nat OrderBook.MAX_ORDERS) (2 ^ 6)
  = slot_of (Z.to_nat OrderBook.MAX_ORDERS) 0.
Proof.
  apply (mask_with_clear_bit_shares_slots (Z.to_nat OrderBook.MAX_ORDERS) 6).
  - unfold OrderBook.MAX_ORDERS. lia.
  - rewrite Z2Nat.id by (unfold OrderBook.MAX_ORDERS; lia).
    unfold OrderBook.MAX_ORDERS. lia.
  - lia.
  - rewrite Z2Nat.id by (unfold OrderBook.MAX_ORDERS; lia).
    unfold OrderBook.MAX_ORDERS. lia.
  - rewrite Z2Nat.id by (unfold OrderBook.MAX_ORDERS; lia). reflexivity.
Defined.

(** ** order_book.h: the shape of the book and the read calls *)

(** X13.  The shape of every book the API builds from the empty book: on
    both sides the keys ascend strictly (no price twice), every level is
    filed under its own price, and [total_quantity] and [order_count] are
    within [uint32_t]. *)
Theorem reachable_book_well_formed :
  ∀ (P : Type) (O : PriceOrder P) (ops : list (Trace.Op (P := P))),
    ∃ events b,
      Trace.run ops OrderBook.empty = Some (events, b) ∧ book_wf b.
Proof. intros P O ops. apply run_from_empty. Qed.

(** X14.  A limit add touches one level: afterwards the level at the
    order's price on the order's side is [update_quantity] of what was
    there (of a fresh level when there was none), and every other level of
    either side reads as before.  This holds on every book. *)
Theorem add_limit_order_frame :
  ∀ (P : Type) (O : PriceOrder P) (s : Side) (p : P) (quantity : Z)
    (id_str : string) (now : Z) (b : OrderBook.t (P := P)) (s' : Side) (p' : P),
    ∃ b',
      OrderBook.add_limit_order s p quantity id_str now b = Some (true, b')
      ∧ OrderBook.deref (s', p') b'
        = if Side_eqb s' s && Trace.price_eqb p' p
          then Some (update_quantity (to_uint32 quantity)
                       (default (fresh_level p) (OrderBook.deref (s, p) b)))
          else OrderBook.deref (s', p') b.
Proof.
  intros P O s p quantity id_str now b s' p'.
  rewrite add_limit_order_scalar. eexists. split; [reflexivity|].
  rewrite !deref_side_book, side_book_add_scalar.
  destruct (Side_eqb s' s) eqn:Hs; [|done].
  assert (s' = s) as -> by (by destruct s, s').
  simpl. apply map_find_level_add.
Qed.

Section Endpoints.
Context {P : Type} `{PriceOrder P}.
Implicit Types (m : SideBook (P := P)) (b : OrderBook.t (P := P)).

Lemma keys_ascending_cons (x : P * PriceLevel P) m :
  keys_ascending (x :: m) →
  keys_ascending m ∧ Forall (λ y, price_lt x.1 y.1 = true) m.
Proof.
  unfold keys_ascending. simpl. intros [Hm Hall]%StronglySorted_inv.
  split; [done|]. by rewrite Forall_fmap in Hall.
Qed.

Lemma min_element_from_ascending (x : P * PriceLevel P) m :
  keys_ascending (x :: m) → (min_element_from x m).1 = x.1.
Proof.
  intros [_ Hall]%keys_ascending_cons.
  destruct (min_element_from_spec x m) as [Hin Hmin].
  apply elem_of_cons in Hin as [->|Hin]; [done|].
  rewrite Forall_forall in Hall.
  pose proof (Hmin x (list_elem_of_here _ _)) as Hle.
  by rewrite (Hall _ Hin) in Hle.
Qed.

Lemma max_element_from_ascending (x z : P * PriceLevel P) m :
  keys_ascending (x :: m) → last (x :: m) = Some z →
  (max_element_from x m).1 = z.1.
Proof.
  intros Hkeys [front Hfront]%last_Some.
  destruct (max_element_from_spec x m) as [Hin Hmax].
  rewrite Hfront in Hin, Hkeys, Hmax.
  apply elem_of_app in Hin as [Hin|Hin];
    [|by apply list_elem_of_singleton in Hin as ->].
  unfold keys_ascending in Hkeys. rewrite fmap_app in Hkeys.
  assert (Hlt : price_lt (max_element_from x m).1 z.1 = true).
  { apply (StronglySorted_app_1_elem_of _ _ _ _ _ Hkeys);
      [by apply list_elem_of_fmap_2 | apply list_elem_of_here]. }
  rewrite (Hmax z) in Hlt; [done|].
  apply elem_of_app. right. apply list_elem_of_here.
Qed.

(** The best prices are the two ends of the ordered maps. *)
Lemma best_prices_endpoints b :
  book_wf b →
  OrderBook.get_best_bid b = default price_zero (last (fst <$> OrderBook.bids_ b))
  ∧ OrderBook.get_best_ask b = default price_zero (head (fst <$> OrderBook.asks_ b)).
Proof.
  intros [[Hbids _] [Hasks _]]. split.
  - unfold OrderBook.get_best_bid.
    destruct (OrderBook.bids_ b) as [|x m]; [done|].
    rewrite fmap_last.
    destruct (last (x :: m)) as [z|] eqn:Hlast.
    + simpl. exact (max_element_from_ascending x z m Hbids Hlast).
    + assert (Hsome : is_Some (last (x :: m))) by (by apply last_is_Some).
      rewrite Hlast in Hsome. by destruct Hsome.
  - unfold OrderBook.get_best_ask.
    destruct (OrderBook.asks_ b) as [|x m]; [done|].
    simpl. by apply min_element_from_ascending.
Qed.

Lemma sort_insert_first (comp : P * PriceLevel P → P * PriceLevel P → bool)
    (x : P * PriceLevel P) m :
  Forall (λ y, comp x y = true) m → sort_insert comp x m = x :: m.
Proof. destruct 1 as [|y m Hy _]; simpl; [done | by rewrite Hy]. Qed.

Lemma sort_insert_last (comp : P * PriceLevel P → P * PriceLevel P → bool)
    (x : P * PriceLevel P) m :
  Forall (λ y, comp x y = false) m → sort_insert comp x m = m ++ [x].
Proof. induction 1 as [|y m Hy _ IH]; simpl; [done | by rewrite Hy, IH]. Qed.

Lemma std_sort_ascending m :
  keys_ascending m → std_sort (λ x y, price_lt x.1 y.1) m = m.
Proof.
  induction m as [|x m IH]; [done|].
  intros [Hm Hall]%keys_ascending_cons. simpl.
  fold (std_sort (λ x y : P * PriceLevel P, price_lt x.1 y.1) m).
  rewrite IH by done. by apply sort_insert_first.
Qed.

Lemma std_sort_descending m :
  keys_ascending m → std_sort (λ x y, price_lt y.1 x.1) m = reverse m.
Proof.
  induction m as [|x m IH]; [done|].
  intros [Hm Hall]%keys_ascending_cons. simpl.
  fold (std_sort (λ x y : P * PriceLevel P, price_lt y.1 x.1) m).
  rewrite IH, reverse_cons by done. apply sort_insert_last.
  apply Forall_reverse. eapply Forall_impl; [exact Hall|].
  intros y Hy. by apply price_lt_asym.
Qed.

Lemma get_depth_top b (s : Side) (n : nat) :
  book_wf b →
  OrderBook.get_depth s n b
  = snd <$> take n (match s with
                    | BUY => reverse (OrderBook.bids_ b)
                    | SELL => OrderBook.asks_ b
                    end).
Proof.
  intros [[Hbids _] [Hasks _]]. unfold OrderBook.get_depth.
  rewrite depth_loop_take.
  destruct s; [by rewrite std_sort_descending | by rewrite std_sort_ascending].
Qed.
End Endpoints.

(** C8.  [get_depth] is a function of the book alone and returns records,
    not handles.  On every book the API can build it returns at most
    [levels] records (all of them when the side has fewer), each a level of
    the requested side, with prices weakly decreasing for bids and weakly
    increasing for asks; and the records are the top of the book, no other:
    the first [levels] asks from [begin()] on, the first [levels] bids from
    [rbegin()] back. *)
Theorem get_depth_best_first :
  ∀ (P : Type) (O : PriceOrder P) (ops : list (Trace.Op (P := P)))
    (s : Side) (levels : nat),
    ∃ events b,
      Trace.run ops OrderBook.empty = Some (events, b)
      ∧ let depth := OrderBook.get_depth s levels b in
        (length depth ≤ levels)%nat
        ∧ length depth = Nat.min levels (length (Trace.side_book s b))
        ∧ (∀ level, level ∈ depth → level ∈ snd <$> Trace.side_book s b)
        ∧ best_first s (level_price <$> depth)
        ∧ depth = snd <$> take levels (match s with
                                       | BUY => reverse (Trace.side_book BUY b)
                                       | SELL => Trace.side_book SELL b
                                       end).
Proof.
  intros P O ops s levels.
  destruct (run_from_empty ops) as (events & b & Hrun & Hwf).
  exists events, b. split; [done|].
  destruct (get_depth_of_wf_book s levels b Hwf) as (Hmost & Hlen & Hin & Hbest).
  repeat split; try done.
  by apply get_depth_top.
Qed.

(** X15.  On every book the API can build, [get_best_prices] is what the
    ends of the two maps give: the key at [rbegin()] of the bids and the
    key at [begin()] of the asks, 0 for an empty side.  The linear scans
    with [max_element] and [min_element] find nothing else. *)
Theorem best_prices_are_map_endpoints :
  ∀ (P : Type) (O : PriceOrder P) (ops : list (Trace.Op (P := P))),
    ∃ events b,
      Trace.run ops OrderBook.empty = Some (events, b)
      ∧ OrderBook.get_best_prices b
        = (default price_zero (last (fst <$> OrderBook.bids_ b)),
           default price_zero (head (fst <$> OrderBook.asks_ b))).
Proof.
  intros P O ops.
  destruct (run_from_empty ops) as (events & b & Hrun & Hwf).
  exists events, b. split; [done|].
  destruct (best_prices_endpoints b Hwf) as [Hbid Hask].
  unfold OrderBook.get_best_prices. by rewrite Hbid, Hask.
Qed.

(** X16.  On every book the API can build, [get_depth] returns exactly
    the first [levels] levels of the side in best-first order: the asks
    from [begin()] on, the bids from [rbegin()] back. *)
Theorem get_depth_is_top_of_book :
  ∀ (P : Type) (O : PriceOrder P) (ops : list (Trace.Op (P := P)))
    (levels : nat),
    ∃ events b,
      Trace.run ops OrderBook.empty = Some (events, b)
      ∧ OrderBook.get_depth SELL levels b = snd <$> take levels (OrderBook.asks_ b)
      ∧ OrderBook.get_depth BUY levels b
        = snd <$> take levels (reverse (OrderBook.bids_ b)).
Proof.
  intros P O ops levels.
  destruct (run_from_empty ops) as (events & b & Hrun & Hwf).
  exists events, b. split; [done|].
  split; [apply (get_depth_top b SELL) | apply (get_depth_top b BUY)]; done.
Qed.

Section TopOfDepth.
Context {P : Type} `{PriceOrder P}.

Lemma depth_head_is_best (b : OrderBook.t (P := P)) (s : Side) (n : nat) :
  book_wf b →
  match Trace.side_book s b with
  | [] => OrderBook.get_depth s (S n) b = []
  | _ :: _ =>
      head (level_price <$> OrderBook.get_depth s (S n) b)
      = Some (match s with
              | BUY => (OrderBook.get_best_prices b).1
              | SELL => (OrderBook.get_best_prices b).2
              end)
  end.
Proof.
  intros Hwf.
  destruct (best_prices_endpoints b Hwf) as [Hbid Hask].
  rewrite (get_depth_top b s (S n) Hwf).
  unfold OrderBook.get_best_prices. cbn [fst snd]. rewrite Hbid, Hask.
  pose proof (book_wf_side s b Hwf) as [_ Hlevels].
  destruct s; cbn [Trace.side_book] in *.
  - destruct (OrderBook.bids_ b) as [|x m] eqn:Hm; [done|].
    assert (Hlast : is_Some (last (x :: m))) by (by apply last_is_Some).
    destruct Hlast as [z Hlast].
    rewrite fmap_last, Hlast. cbn [default fmap option_fmap option_map].
    apply last_Some in Hlast as [front Hfront]. rewrite Hfront in *.
    rewrite reverse_snoc. cbn [take fmap list_fmap head].
    apply Forall_app in Hlevels as [_ [(Hprice & _) _]%Forall_cons].
    by rewrite Hprice.
  - destruct (OrderBook.asks_ b) as [|x m] eqn:Hm; [done|].
    cbn [take fmap list_fmap head default].
    apply Forall_cons in Hlevels as [(Hprice & _) _].
    by rewrite Hprice.
Qed.
End TopOfDepth.

(** X17.  The two read calls agree: on every book the API can build, the
    first record of a depth snapshot of one level or more carries the best
    price [get_best_prices] reports for that side, and the snapshot of an
    empty side is empty. *)
Theorem depth_starts_at_best_price :
  ∀ (P : Type) (O : PriceOrder P) (ops : list (Trace.Op (P := P)))
    (s : Side) (n : nat),
    ∃ events b,
      Trace.run ops OrderBook.empty = Some (events, b)
      ∧ match Trace.side_book s b with
        | [] => OrderBook.get_depth s (S n) b = []
        | _ :: _ =>
            head (level_price <$> OrderBook.get_depth s (S n) b)
            = Some (match s with
                    | BUY => (OrderBook.get_best_prices b).1
                    | SELL => (OrderBook.get_best_prices b).2
                    end)
        end.
Proof.
  intros P O ops s n.
  destruct (run_from_empty ops) as (events & b & Hrun & Hwf).
  exists events, b. split; [done|]. by apply depth_head_is_best.
Qed.

(** ** order_book.h: what a market order takes and leaves *)

Section Fills.
Context {P : Type} `{PriceOrder P}.
Import Trace.
Implicit Types (m rest : SideBook (P := P)) (b : OrderBook.t (P := P)).

(** Each fill takes a positive quantity, no more than was asked for and
    no more than the level it names was holding. *)
Lemma Walk_fills (id_str : string) m (r : Z) m' (fills : list (MatchResult P)) :
  Walk id_str m r m' fills → totals_fit m →
  Forall (λ f, 0 < match_quantity f <= r
               ∧ ∃ k level, (k, level) ∈ m
                            ∧ match_price f = level_price level
                            ∧ match_quantity f <= total_quantity level) fills.
Proof.
  induction 1 as [r|m r Hr|k level rest r m' fills Hr Hz _ IH
                 |k level rest r m' fills Ht _ IH|k level rest r Hr];
    intros Hfit; try by constructor.
  - apply Forall_cons in Hfit as [_ Hfit].
    eapply Forall_impl; [by apply IH|]. intros f (Hq & k' & level' & Hin & Hrest).
    split; [done|]. exists k', level'. split; [by apply list_elem_of_further | done].
  - apply Forall_cons in Hfit as [Hlevel Hfit].
    unfold is_uint32 in Hlevel. simpl in Hlevel.
    constructor.
    + simpl. split; [lia|]. exists k, level.
      split; [apply list_elem_of_here | split; [done | lia]].
    + eapply Forall_impl; [by apply IH|]. intros f (Hq & k' & level' & Hin & Hrest).
      split; [lia|]. exists k', level'.
      split; [by apply list_elem_of_further | done].
  - constructor; [|constructor]. simpl. split; [lia|]. exists k, level.
    split; [apply list_elem_of_here | split; [done | lia]].
Qed.

(** The walk consumes a prefix of the book: what it leaves is the end of
    the book it found, with at most the first level rewritten. *)
Lemma Walk_suffix (id_str : string) m (r : Z) m' (fills : list (MatchResult P)) :
  Walk id_str m r m' fills →
  (fst <$> m') `suffix_of` (fst <$> m) ∧ tail m' `suffix_of` m.
Proof.
  induction 1 as [r|m r Hr|k level rest r m' fills Hr Hz _ IH
                 |k level rest r m' fills Ht _ IH|k level rest r Hr].
  - done.
  - split; [done|]. destruct m as [|x m]; [done|]. by apply suffix_cons_r.
  - destruct IH as [Hkeys Htail]. split; by apply suffix_cons_r.
  - destruct IH as [Hkeys Htail]. split; by apply suffix_cons_r.
  - split; [done|]. simpl. by apply suffix_cons_r.
Qed.

Lemma process_market_order_fills (s : Side) (quantity : Z) (id_str : string)
    (now : Z) b :
  book_wf b →
  let result := OrderBook.process_market_order s quantity id_str now b in
  let opposing := side_book (opposite s) b in
  Forall (λ f, 0 < match_quantity f <= to_uint32 quantity
               ∧ ∃ level, (match_price f, level) ∈ opposing
                          ∧ match_quantity f <= total_quantity level) result.1
  ∧ (fst <$> side_book (opposite s) result.2) `suffix_of` (fst <$> opposing)
  ∧ tail (side_book (opposite s) result.2) `suffix_of` opposing.
Proof.
  intros Hwf.
  destruct (process_market_order_walk s quantity id_str now b Hwf)
    as (m' & fills & Hrun & Hwalk).
  pose proof (book_wf_side (opposite s) b Hwf) as [_ Hlevels].
  rewrite Hrun. cbn [fst snd]. rewrite side_book_with_side_book.
  replace (Side_eqb (opposite s) (opposite s)) with true by (by destruct s).
  split; [|by eapply Walk_suffix].
  eapply Forall_impl;
    [apply (Walk_fills _ _ _ _ _ Hwalk); by apply side_wf_totals_fit|].
  intros f (Hq & k & level & Hin & Hprice & Hle). split; [done|].
  exists level. split; [|done].
  rewrite Forall_forall in Hlevels. destruct (Hlevels _ Hin) as (Hkey & _).
  simpl in Hkey. by rewrite Hprice, Hkey.
Qed.

(** A market order for nothing, or against an empty side, does nothing. *)
Lemma process_market_order_nothing (s : Side) (q : Z) (id_str : string)
    (now : Z) b :
  to_uint32 q = 0 ∨ side_book (opposite s) b = [] →
  OrderBook.process_market_order s q id_str now b = ([], b).
Proof.
  unfold OrderBook.process_market_order, OrderBook.match_market_order_simd.
  destruct b as [bids asks]. cbn [side quantity id].
  intros [Hzero|Hempty].
  - rewrite Hzero. destruct s; by rewrite match_loop_stop.
  - destruct s; cbn [opposite side_book OrderBook.bids_ OrderBook.asks_] in *;
      by rewrite Hempty.
Qed.
End Fills.

(** X18.  On every book the API can build, each fill of a market order
    has a quantity above zero, at most the requested quantity (as the
    32-bit value the call receives) and at most what the level at its
    price was holding on the opposing side before the call. *)
Theorem market_fills_are_bounded_by_levels :
  ∀ (P : Type) (O : PriceOrder P) (ops : list (Trace.Op (P := P)))
    (s : Side) (quantity : Z) (id_str : string) (now : Z),
    ∃ events b,
      Trace.run ops OrderBook.empty = Some (events, b)
      ∧ Forall (λ f, 0 < match_quantity f <= to_uint32 quantity
                     ∧ ∃ level,
                         (match_price f, level)
                           ∈ Trace.side_book (Trace.opposite s) b
                         ∧ match_quantity f <= total_quantity level)
          (OrderBook.process_market_order s quantity id_str now b).1.
Proof.
  intros P O ops s quantity id_str now.
  destruct (run_from_empty ops) as (events & b & Hrun & Hwf).
  exists events, b. split; [done|].
  by apply (process_market_order_fills s quantity id_str now b Hwf).
Qed.

(** X19.  On every book the API can build, a market order consumes a
    prefix of the opposing side in map order: the prices it leaves are the
    end of the prices it found, and every level behind the first one left
    is exactly as it was.  The side of the order itself is not touched. *)
Theorem market_order_consumes_a_prefix :
  ∀ (P : Type) (O : PriceOrder P) (ops : list (Trace.Op (P := P)))
    (s : Side) (quantity : Z) (id_str : string) (now : Z),
    ∃ events b,
      Trace.run ops OrderBook.empty = Some (events, b)
      ∧ let after := (OrderBook.process_market_order s quantity id_str now b).2 in
        (fst <$> Trace.side_book (Trace.opposite s) after)
          `suffix_of` (fst <$> Trace.side_book (Trace.opposite s) b)
        ∧ tail (Trace.side_book (Trace.opposite s) after)
            `suffix_of` Trace.side_book (Trace.opposite s) b
        ∧ Trace.side_book s after = Trace.side_book s b.
Proof.
  intros P O ops s quantity id_str now.
  destruct (run_from_empty ops) as (events & b & Hrun & Hwf).
  exists events, b. split; [done|].
  destruct (process_market_order_fills s quantity id_str now b Hwf)
    as (_ & Hkeys & Htail).
  split; [done|]. split; [done|].
  destruct (process_market_order_walk s quantity id_str now b Hwf)
    as (m' & fills & Hcall & _).
  rewrite Hcall. cbn [snd]. rewrite side_book_with_side_book. by destruct s.
Qed.

(** X20.  A market order whose quantity is 0, or whose opposing side has
    no level, returns no fill and leaves the book, both sides, exactly as
    it was.  This holds on every book. *)
Theorem market_order_for_nothing :
  ∀ (P : Type) (O : PriceOrder P) (s : Side) (quantity : Z) (id_str : string)
    (now : Z) (b : OrderBook.t (P := P)),
    to_uint32 quantity = 0 ∨ Trace.side_book (Trace.opposite s) b = [] →
    OrderBook.process_market_order s quantity id_str now b = ([], b).
Proof. intros P O s quantity id_str now b. apply process_market_order_nothing. Qed.

Lemma market_order_for_nothing_witness :
  OrderBook.process_market_order BUY 0 "M" 9
    {| OrderBook.bids_ := [(99, mkPriceLevel 99 10 1 0)];
       OrderBook.asks_ := [(101, mkPriceLevel 101 5 1 0)] |}
  = ([], {| OrderBook.bids_ := [(99, mkPriceLevel 99 10 1 0)];
            OrderBook.asks_ := [(101, mkPriceLevel 101 5 1 0)] |}).
Proof.
  apply (market_order_for_nothing Z Z_PriceOrder BUY 0 "M" 9). left. reflexivity.
Defined.

(** ** order_book.h: headroom below 2^32 *)

Section Headroom.
Context {P : Type} `{PriceOrder P}.
Import Trace.
Implicit Types (m rest : SideBook (P := P)) (b : OrderBook.t (P := P))
  (ops : list (Op (P := P))).

Lemma resting_le_book_total (k : P) m :
  totals_fit m → 0 <= resting k m <= book_total m.
Proof.
  unfold resting.
  induction 1 as [|[k' level] rest Hlevel Hrest IH]; [done|].
  rewrite book_total_cons. unfold is_uint32 in Hlevel. simpl in Hlevel.
  pose proof (book_total_nonneg rest Hrest).
  simpl. destruct (price_lt k k'); [simpl; lia|].
  destruct (price_lt k' k); [lia | simpl; lia].
Qed.

Lemma added_nonneg s ops : 0 <= added s ops.
Proof.
  induction ops as [|op rest IH]; [done|].
  rewrite added_cons.
  destruct op as [s' k q id_str now|s' q id_str now]; [|lia].
  destruct (Side_eqb s s'); [|lia].
  pose proof (to_uint32_range q). unfold is_uint32 in *. lia.
Qed.

Lemma book_wf_total_nonneg s b : book_wf b → 0 <= book_total (side_book s b).
Proof.
  intros Hwf. apply book_total_nonneg, side_wf_totals_fit.
  by apply (book_wf_side s b Hwf).
Qed.

(** Headroom on each side is enough for no level to wrap. *)
Lemma adds_fit_headroom ops b :
  book_wf b → (∀ s, book_total (side_book s b) + added s ops < 2 ^ 32) →
  adds_fit ops b = true.
Proof.
  revert b. induction ops as [|op rest IH]; intros b Hwf Hroom; [done|].
  assert (Hhere : adds_fit [op] b = true).
  { simpl. destruct (step_total op b) as [[reply b1] ->].
    rewrite andb_true_r.
    destruct op as [s k q id_str now|s q id_str now]; [|done].
    apply Z.ltb_lt. rewrite level_total_resting.
    pose proof (resting_le_book_total k (side_book s b)
                  (side_wf_totals_fit _ (proj2 (book_wf_side s b Hwf)))).
    specialize (Hroom s). rewrite added_cons in Hroom.
    replace (Side_eqb s s) with true in Hroom by (by destruct s).
    pose proof (added_nonneg s rest). lia. }
  destruct (step_total op b) as [[reply b1] Hstep].
  pose proof Hhere as Hhere'. simpl in Hhere'. rewrite Hstep in Hhere'.
  rewrite andb_true_r in Hhere'.
  simpl. rewrite Hstep, Hhere'. simpl.
  apply IH; [by eapply step_wf|]. intros s.
  rewrite (step_conserves op reply b b1 s Hwf Hhere Hstep).
  specialize (Hroom s). rewrite (added_cons s op rest) in Hroom.
  rewrite added_cons, consumed_cons.
  change (added s []) with 0. change (consumed s []) with 0.
  assert (0 <= match op, reply with
               | Market s' _ _ _, Matched matches =>
                   if Side_eqb s (opposite s') then matched_total matches else 0
               | _, _ => 0
               end); [|lia].
  destruct op as [s' k q id_str now|s' q id_str now]; [done|].
  rewrite step_market in Hstep. injection Hstep as <- <-.
  destruct (Side_eqb s (opposite s')); [|done].
  destruct (process_market_order_walk s' q id_str now b Hwf)
    as (m' & fills & -> & Hwalk).
  pose proof (to_uint32_range q) as Hq. unfold is_uint32 in Hq.
  pose proof (side_wf_totals_fit _ (proj2 (book_wf_side (opposite s') b Hwf))) as Hfit.
  destruct (Walk_sum _ _ _ _ _ Hwalk Hfit) as [Hsum _]; [lia|].
  pose proof (book_total_nonneg _ Hfit). cbn [fst]. lia.
Qed.
End Headroom.

(** X21.  While fewer than 2^32 units in all have been added on a side,
    no counter of that side can wrap: if both sides of a run stay under
    that total, what rests on a side afterwards is exactly what was added
    there less what market orders took out, and market orders never took
    out more than was added. *)
Theorem conservation_below_total_bound :
  ∀ (P : Type) (O : PriceOrder P) (ops : list (Trace.Op (P := P))),
    (∀ s, Trace.added s ops < 2 ^ 32) →
    ∃ events b,
      Trace.run ops OrderBook.empty = Some (events, b)
      ∧ ∀ s, Trace.book_total (Trace.side_book s b)
             = Trace.added s ops - Trace.consumed s events
             ∧ Trace.consumed s events <= Trace.added s ops.
Proof.
  intros P O ops Hroom.
  destruct (run_from_empty ops) as (events & b & Hrun & Hwf).
  exists events, b. split; [done|]. intros s.
  assert (Hfit : Trace.adds_fit ops OrderBook.empty = true).
  { apply adds_fit_headroom; [apply book_wf_empty|].
    intros s'. specialize (Hroom s'). by destruct s'. }
  pose proof (conservation_from ops OrderBook.empty events b s
                book_wf_empty Hfit Hrun) as Htotal.
  pose proof (book_wf_total_nonneg s b Hwf) as Hnonneg.
  replace (Trace.book_total (Trace.side_book s OrderBook.empty)) with 0 in Htotal
    by (by destruct s).
  lia.
Qed.

Lemma conservation_below_total_bound_witness :
  ∃ events b,
    Trace.run sweep_run OrderBook.empty = Some (events, b)
    ∧ ∀ s, Trace.book_total (Trace.side_book s b)
           = Trace.added s sweep_run - Trace.consumed s events
           ∧ Trace.consumed s events <= Trace.added s sweep_run.
Proof.
  apply (conservation_below_total_bound Z Z_PriceOrder sweep_run).
  intros []; vm_compute; reflexivity.
Defined.

(** ** order_book.h: add, then take *)

Section RoundTrip.
Context {P : Type} `{PriceOrder P}.
Import Trace.
Implicit Types (m rest : SideBook (P := P)) (b : OrderBook.t (P := P)).

Lemma level_add_front (p : P) (q : Z) m :
  (∀ k, head (fst <$> m) = Some k → price_lt p k = true) →
  level_add p q m = (p, update_quantity q (fresh_level p)) :: m.
Proof.
  destruct m as [|[k level] rest]; [done|]. intros Hfront. simpl.
  by rewrite (Hfront k eq_refl).
Qed.

Lemma match_loop_take_front (id_str : string) (p : P) (q : Z) m :
  0 < q < 2 ^ 32 →
  OrderBook.match_loop id_str ((p, update_quantity q (fresh_level p)) :: m) q []
  = (m, [fill_of id_str q (update_quantity q (fresh_level p))]).
Proof.
  intros Hq.
  assert (Htotal : total_quantity (update_quantity q (fresh_level p)) = q).
  { simpl. apply to_uint32_id. unfold is_uint32. lia. }
  rewrite match_loop_drain by (rewrite ?Htotal; lia).
  rewrite Htotal, Z.sub_diag. by rewrite match_loop_stop.
Qed.

Lemma add_then_take (s : Side) (p : P) (q : Z) (id1 id2 : string)
    (now1 now2 : Z) b :
  0 < to_uint32 q →
  (∀ k, head (fst <$> side_book s b) = Some k → price_lt p k = true) →
  OrderBook.process_market_order (opposite s) q id2 now2
    (add_scalar s p (to_uint32 q) b)
  = ([{| match_quantity := to_uint32 q;
         match_price := p;
         counterparty_id := set_id (get_id (set_id id2 empty_id)) empty_id |}], b).
Proof.
  intros Hq Hfront.
  pose proof (to_uint32_range q) as Hrange. unfold is_uint32 in Hrange.
  unfold OrderBook.process_market_order, OrderBook.match_market_order_simd.
  destruct b as [bids asks].
  destruct s; cbn [opposite side quantity id add_scalar side_book
                   OrderBook.bids_ OrderBook.asks_] in *;
    rewrite (level_add_front p _ _ Hfront), match_loop_take_front by lia;
    reflexivity.
Qed.
End RoundTrip.

(** X22.  Add, then take.  A limit order with a quantity above zero at a
    price below the first level of its side (or on an empty side), followed
    by a market order of the other side for the same quantity, gives one
    fill of that quantity at that price, and the book is again what it was
    before the limit order. *)
Theorem add_then_take_restores_book :
  ∀ (P : Type) (O : PriceOrder P) (s : Side) (p : P) (quantity : Z)
    (id1 id2 : string) (now1 now2 : Z) (b : OrderBook.t (P := P)),
    0 < to_uint32 quantity →
    (∀ k, head (fst <$> Trace.side_book s b) = Some k → price_lt p k = true) →
    ∃ b1,
      OrderBook.add_limit_order s p quantity id1 now1 b = Some (true, b1)
      ∧ OrderBook.process_market_order (Trace.opposite s) quantity id2 now2 b1
        = ([{| match_quantity := to_uint32 quantity;
               match_price := p;
               counterparty_id := set_id (get_id (set_id id2 empty_id)) empty_id |}],
           b).
Proof.
  intros P O s p quantity id1 id2 now1 now2 b Hq Hfront.
  exists (add_scalar s p (to_uint32 quantity) b).
  split; [apply add_limit_order_scalar | by apply add_then_take].
Qed.

Lemma add_then_take_restores_book_witness :
  let b := {| OrderBook.bids_ := [(99, mkPriceLevel 99 10 1 0)];
              OrderBook.asks_ := [(101, mkPriceLevel 101 5 1 0)] |} in
  ∃ b1,
    OrderBook.add_limit_order SELL 100 7 "A" 1 b = Some (true, b1)
    ∧ OrderBook.process_market_order (Trace.opposite SELL) 7 "M" 2 b1
      = ([{| match_quantity := to_uint32 7;
             match_price := 100;
             counterparty_id := set_id (get_id (set_id "M" empty_id)) empty_id |}],
         b).
Proof.
  apply (add_then_take_restores_book Z Z_PriceOrder SELL 100 7 "A" "M" 1 2).
  - reflexivity.
  - intros k [= <-]. reflexivity.
Defined.

(** ** order_types.h and order_book.h: batches of more than one pair *)

Section SnapshotFacts.
Context {P Mem Ptr : Type}.
Variable deref : Ptr → Mem → option (PriceLevel P).
Variable assign : Ptr → PriceLevel P → Mem → Mem.
Variable ptr_dec : ∀ p p' : Ptr, {p = p'} + {p ≠ p'}.
Hypothesis deref_assign_eq :
  ∀ p v m, is_Some (deref p m) → deref p (assign p v m) = Some v.
Hypothesis deref_assign_ne :
  ∀ p p' v m, p ≠ p' → deref p (assign p' v m) = deref p m.
Hypothesis assign_twice :
  ∀ p v w m, assign p v (assign p w m) = assign p v m.
Implicit Types (levels : list (option Ptr)) (m : Mem).

Lemma snapshot_load_loop levels m (junk_q junk_c : list Z) (count : nat) :
  length levels = 4%nat → length junk_q = 4%nat → length junk_c = 4%nat →
  (count ≤ 4)%nat →
  (∀ i p, (i < count)%nat → levels !! i = Some (Some p) → is_Some (deref p m)) →
  ∃ quantities counts,
    for_loop count (load_body deref levels m) (junk_q, junk_c)
      = Some (quantities, counts)
    ∧ length quantities = 4%nat ∧ length counts = 4%nat
    ∧ ∀ i p level, (i < count)%nat → levels !! i = Some (Some p) →
        deref p m = Some level →
        quantities !! i = Some (total_quantity level)
        ∧ counts !! i = Some (order_count level).
Proof.
  intros Hlev Hq Hc Hle Hvalid.
  induction count as [|k IH].
  { exists junk_q, junk_c. repeat split; try done; lia. }
  destruct IH as (Q & C & Hrun & HQ & HC & Hlanes); [lia | |].
  { intros i p Hi. apply Hvalid. lia. }
  rewrite for_loop_S, Hrun. simpl.
  destruct (decide (k < 4)%nat) as [_|]; [|lia].
  destruct (lookup_lt_is_Some_2 levels k) as [h Hh]; [lia|].
  rewrite Hh. simpl.
  destruct h as [p|].
  - destruct (Hvalid k p) as [level Hlevel]; [lia | done |].
    rewrite Hlevel. simpl.
    eexists _, _. split; [reflexivity|].
    rewrite !length_insert. split; [done|]. split; [done|].
    intros i p' level' Hi Hi' Hp'.
    destruct (decide (i = k)) as [->|Hne].
    + rewrite !list_lookup_insert_eq by lia.
      assert (p' = p) as -> by congruence.
      assert (level' = level) as -> by congruence. done.
    + rewrite !list_lookup_insert_ne by lia. apply (Hlanes i p'); [lia|done|done].
  - eexists _, _. split; [reflexivity|].
    rewrite !length_insert. split; [done|]. split; [done|].
    intros i p' level' Hi Hi' Hp'.
    destruct (decide (i = k)) as [->|Hne]; [congruence|].
    rewrite !list_lookup_insert_ne by lia. apply (Hlanes i p'); [lia|done|done].
Qed.

Lemma update_quantity_fields (delta q c : Z) (entry cur : PriceLevel P) :
  level_price cur = level_price entry → padding cur = padding entry →
  q = to_uint32 (total_quantity entry + to_uint32 delta) →
  c = to_uint32 (order_count entry + 1) →
  set_order_count c (set_total_quantity q cur) = update_quantity delta entry.
Proof.
  intros Hprice Hpad -> ->.
  unfold update_quantity, set_order_count, set_total_quantity. simpl.
  by rewrite to_uint32_add_r, Hprice, Hpad.
Qed.

Lemma snapshot_store_loop levels (deltas quantities counts : list Z) m (count : nat) :
  length levels = 4%nat → length deltas = 4%nat →
  length quantities = 4%nat → length counts = 4%nat →
  (count ≤ 4)%nat →
  (∀ i p, (i < count)%nat → levels !! i = Some (Some p) → is_Some (deref p m)) →
  (∀ i p level, (i < count)%nat → levels !! i = Some (Some p) →
     deref p m = Some level →
     quantities !! i = Some (total_quantity level)
     ∧ counts !! i = Some (order_count level)) →
  ∃ m',
    for_loop count
      (store_body deref assign levels
         (vaddq_u32 quantities (vreinterpretq_u32_s32 deltas))
         (vaddq_u32 counts (vdupq_n_u32 1))) m = Some m'
    ∧ snapshot_quantity_updates deref assign levels deltas count m = Some m'
    ∧ ∀ p entry, deref p m = Some entry →
        ∃ cur, deref p m' = Some cur
               ∧ level_price cur = level_price entry
               ∧ padding cur = padding entry.
Proof.
  intros Hlev Hdel HQ HC Hle Hvalid Hlanes.
  unfold snapshot_quantity_updates.
  induction count as [|k IH].
  { exists m. repeat split; try done. intros p entry Hp. by exists entry. }
  destruct IH as (mk & Hstore & Hsnap & Hkeep); [lia | | |].
  { intros i p Hi. apply Hvalid. lia. }
  { intros i p level Hi. apply Hlanes. lia. }
  rewrite !for_loop_S, Hstore, Hsnap. simpl.
  unfold store_body, snapshot_body.
  destruct (decide (k < 4)%nat) as [_|]; [|lia].
  destruct (lookup_lt_is_Some_2 levels k) as [h Hh]; [lia|].
  destruct (lookup_lt_is_Some_2 deltas k) as [d Hd]; [lia|].
  rewrite Hh, Hd. simpl.
  destruct h as [p|]; simpl.
  2:{ exists mk. repeat split; done. }
  destruct (Hvalid k p) as [entry Hentry]; [lia | done |].
  destruct (Hkeep p entry Hentry) as (cur & Hcur & Hprice & Hpad).
  destruct (Hlanes k p entry) as [Hqk Hck]; [lia|done|done|].
  unfold vaddq_u32, vreinterpretq_u32_s32, vdupq_n_u32.
  rewrite !lookup_zip_with, Hqk, Hck, list_lookup_fmap, Hd.
  rewrite lookup_replicate_2 by lia. simpl.
  rewrite Hcur, Hentry. simpl.
  rewrite deref_assign_eq by eauto. simpl.
  rewrite assign_twice.
  rewrite (update_quantity_fields d _ _ entry cur) by done.
  eexists. split; [reflexivity|]. split; [reflexivity|].
  intros p' entry' Hp'.
  destruct (ptr_dec p' p) as [->|Hne].
  - rewrite deref_assign_eq by eauto.
    assert (entry' = entry) as -> by congruence.
    by exists (update_quantity d entry).
  - rewrite deref_assign_ne by done. by apply Hkeep.
Qed.

(** The four-wide path on valid handles is the snapshot loop. *)
Lemma process_quantity_updates_snapshot levels (deltas junk_q junk_c : list Z)
    m (count : nat) :
  length levels = 4%nat → length deltas = 4%nat →
  length junk_q = 4%nat → length junk_c = 4%nat →
  (count ≤ 4)%nat →
  (∀ i p, (i < count)%nat → levels !! i = Some (Some p) → is_Some (deref p m)) →
  ∃ m',
    process_quantity_updates_from deref assign junk_q junk_c levels deltas count m
      = Some m'
    ∧ snapshot_quantity_updates deref assign levels deltas count m = Some m'.
Proof.
  intros Hlev Hdel Hq Hc Hle Hvalid.
  destruct (snapshot_load_loop levels m junk_q junk_c count)
    as (Q & C & Hload & HQ & HC & Hlanes); try done.
  destruct (snapshot_store_loop levels deltas Q C m count)
    as (m' & Hstore & Hsnap & _); try done.
  exists m'. split; [|done].
  unfold process_quantity_updates_from. rewrite Hload. simpl. exact Hstore.
Qed.

(** With no handle repeated, the snapshot loop is the scalar loop. *)
Lemma snapshot_is_scalar levels (deltas : list Z) m (count : nat) :
  (∀ i j p, (i < count)%nat → (j < count)%nat →
     levels !! i = Some (Some p) → levels !! j = Some (Some p) → i = j) →
  snapshot_quantity_updates deref assign levels deltas count m
  = scalar_quantity_updates deref assign levels deltas count m.
Proof.
  intros Hdistinct.
  unfold snapshot_quantity_updates, scalar_quantity_updates.
  assert (Hboth :
    for_loop count (snapshot_body deref assign levels deltas m) m
    = for_loop count (scalar_body deref assign levels deltas) m
    ∧ ∀ m', for_loop count (scalar_body deref assign levels deltas) m = Some m' →
        ∀ p, (∀ i, (i < count)%nat → levels !! i ≠ Some (Some p)) →
          deref p m' = deref p m); [|by destruct Hboth].
  induction count as [|k IH].
  { split; [done|]. by intros m' [= <-]. }
  destruct IH as [Heq Hframe].
  { intros i j p Hi Hj. apply Hdistinct; lia. }
  rewrite !for_loop_S, Heq.
  destruct (for_loop k (scalar_body deref assign levels deltas) m) as [mk|];
    [|done].
  specialize (Hframe mk eq_refl). simpl.
  unfold snapshot_body, scalar_body.
  destruct (levels !! k) as [h|] eqn:Hh; [|done]. simpl.
  destruct (deltas !! k) as [d|]; [|done]. simpl.
  destruct h as [p|].
  - assert (Hp : deref p mk = deref p m).
    { apply Hframe. intros i Hi Hip.
      assert (i = k) by (apply (Hdistinct i k p); [lia | lia | done | done]). lia. }
    rewrite Hp. split; [done|].
    destruct (deref p m) as [level|]; [|done]. simpl. intros m' [= <-] p' Hp'.
    rewrite deref_assign_ne.
    + apply Hframe. intros i Hi. apply Hp'. lia.
    + intros ->. by apply (Hp' k); [lia|].
  - split; [done|]. intros m' [= <-] p' Hp'. apply Hframe.
    intros i Hi. apply Hp'. lia.
Qed.
End SnapshotFacts.

Section HeapSnapshot.
Context {P : Type}.
Implicit Types (m : list (PriceLevel P)) (levels : list (option nat)).

Lemma heap_deref_assign_eq (p : nat) (v : PriceLevel P) m :
  is_Some (heap_deref p m) → heap_deref p (heap_assign p v m) = Some v.
Proof.
  unfold heap_deref, heap_assign. intros Hp.
  apply list_lookup_insert_eq. by apply lookup_lt_is_Some.
Qed.

Lemma heap_deref_assign_ne (p p' : nat) (v : PriceLevel P) m :
  p ≠ p' → heap_deref p (heap_assign p' v m) = heap_deref p m.
Proof. unfold heap_deref, heap_assign. intros Hne. by apply list_lookup_insert_ne. Qed.

Lemma heap_assign_twice (p : nat) (v w : PriceLevel P) m :
  heap_assign p v (heap_assign p w m) = heap_assign p v m.
Proof. apply list_insert_insert_eq. Qed.

(** What the snapshot loop leaves in a flat array: a level no pair names
    is untouched, and a level some pair names holds the update of the last
    such pair, applied to the record it held on entry. *)
Lemma heap_snapshot_last levels (deltas : list Z) m (count : nat) m' :
  snapshot_quantity_updates heap_deref heap_assign levels deltas count m = Some m' →
  length m' = length m
  ∧ (∀ p, (∀ i, (i < count)%nat → levels !! i ≠ Some (Some p)) → m' !! p = m !! p)
  ∧ (∀ j p d level, (j < count)%nat →
       levels !! j = Some (Some p) → deltas !! j = Some d →
       (∀ i, (j < i < count)%nat → levels !! i ≠ Some (Some p)) →
       m !! p = Some level → m' !! p = Some (update_quantity d level)).
Proof.
  unfold snapshot_quantity_updates. revert m'.
  induction count as [|k IH]; intros m'.
  { intros [= <-]. split; [done|]. split; [done|]. intros; lia. }
  rewrite for_loop_S.
  destruct (for_loop k (snapshot_body heap_deref heap_assign levels deltas m) m)
    as [mk|]; [|done].
  destruct (IH mk eq_refl) as (Hlen & Hout & Hlast). simpl.
  unfold snapshot_body.
  destruct (levels !! k) as [h|] eqn:Hh; [|done]. simpl.
  destruct (deltas !! k) as [dk|] eqn:Hd; [|done]. simpl.
  destruct h as [pk|].
  - unfold heap_deref at 1.
    destruct (m !! pk) as [entry|] eqn:Hentry; [|done]. simpl.
    intros [= <-]. unfold heap_assign.
    split; [by rewrite length_insert|]. split.
    + intros p Hp. rewrite list_lookup_insert_ne.
      * apply Hout. intros i Hi. apply Hp. lia.
      * intros ->. by apply (Hp k); [lia|].
    + intros j p d level Hj Hjp Hjd Hlater Hlevel.
      destruct (decide (j = k)) as [->|Hne].
      * assert (p = pk) as -> by congruence.
        assert (d = dk) as -> by congruence.
        assert (level = entry) as -> by congruence.
        apply list_lookup_insert_eq. rewrite Hlen.
        apply lookup_lt_is_Some. eauto.
      * rewrite list_lookup_insert_ne.
        -- apply (Hlast j p d level); try done; [lia|].
           intros i Hi. apply Hlater. lia.
        -- intros ->. by apply (Hlater k); [lia|].
  - intros [= <-]. split; [done|]. split.
    + intros p Hp. apply Hout. intros i Hi. apply Hp. lia.
    + intros j p d level Hj Hjp Hjd Hlater Hlevel.
      destruct (decide (j = k)) as [->|Hne]; [congruence|].
      apply (Hlast j p d level); try done; [lia|].
      intros i Hi. apply Hlater. lia.
Qed.
End HeapSnapshot.

(** X23.  The four-wide update reads every level before it writes any.
    On valid handles it returns; a level no pair points to is untouched;
    and a level some pair points to ends as [update_quantity] of the LAST
    such pair applied to the record it held on entry, whatever the earlier
    pairs for that level asked for. *)
Theorem four_wide_update_last_pair_wins :
  ∀ (P : Type) (levels : list (option nat)) (deltas : list Z)
    (m : list (PriceLevel P)) (count : nat),
    length levels = 4%nat → length deltas = 4%nat → (count ≤ 4)%nat →
    handles_valid levels count m →
    ∃ m',
      process_quantity_updates heap_deref heap_assign levels deltas count m = Some m'
      ∧ length m' = length m
      ∧ (∀ p, (∀ i, (i < count)%nat → levels !! i ≠ Some (Some p)) →
           m' !! p = m !! p)
      ∧ (∀ j p d level, (j < count)%nat →
           levels !! j = Some (Some p) → deltas !! j = Some d →
           (∀ i, (j < i < count)%nat → levels !! i ≠ Some (Some p)) →
           m !! p = Some level → m' !! p = Some (update_quantity d level)).
Proof.
  intros P levels deltas m count Hlev Hdel Hle Hvalid.
  destruct (process_quantity_updates_snapshot heap_deref heap_assign Nat.eq_dec
              heap_deref_assign_eq heap_deref_assign_ne heap_assign_twice
              levels deltas (replicate 4 0) (replicate 4 0) m count)
    as (m' & Hwide & Hsnap); try done.
  exists m'. split; [exact Hwide|]. by apply (heap_snapshot_last levels deltas m count).
Qed.

Lemma four_wide_update_last_pair_wins_witness :
  let levels := [Some 0%nat; Some 1%nat; Some 0%nat; None] in
  let deltas := [5; 9; 7; 0] in
  let m := [mkPriceLevel 100 10 1 0; mkPriceLevel 101 20 2 0;
            mkPriceLevel 102 30 3 0] in
  ∃ m',
    process_quantity_updates heap_deref heap_assign levels deltas 4 m = Some m'
    ∧ length m' = length m
    ∧ (∀ p, (∀ i, (i < 4)%nat → levels !! i ≠ Some (Some p)) → m' !! p = m !! p)
    ∧ (∀ j p d level, (j < 4)%nat →
         levels !! j = Some (Some p) → deltas !! j = Some d →
         (∀ i, (j < i < 4)%nat → levels !! i ≠ Some (Some p)) →
         m !! p = Some level → m' !! p = Some (update_quantity d level)).
Proof.
  apply (four_wide_update_last_pair_wins Z); try reflexivity.
  intros i p Hi. destruct i as [|[|[|[|i]]]]; simpl; intros [= <-]; eauto; lia.
Defined.

Section BookMemory.
Context {P : Type} `{PriceOrder P}.
Implicit Types (m : SideBook (P := P)) (k : P) (v : PriceLevel P)
  (b : OrderBook.t (P := P)) (h : OrderBook.Handle (P := P)).

Lemma map_find_assign_ne k k' v m :
  k ≠ k' → map_find k (map_assign k' v m) = map_find k m.
Proof.
  intros Hne. induction m as [|[k0 v0] rest IH]; simpl; [done|].
  destruct (price_lt k' k0) eqn:Hlt; [done|].
  destruct (price_lt k0 k') eqn:Hgt; simpl.
  - by rewrite IH.
  - assert (k' = k0) as -> by (by apply price_lt_connex).
    destruct (price_lt k k0) eqn:Hlt'; [done|].
    destruct (price_lt k0 k) eqn:Hgt'; [done|].
    destruct Hne. by apply price_lt_connex.
Qed.

Lemma map_find_try_emplace_ne k k' v m :
  k ≠ k' → map_find k (map_try_emplace k' v m) = map_find k m.
Proof.
  intros Hne. induction m as [|[k0 v0] rest IH]; simpl.
  - destruct (price_lt k k') eqn:Hlt; [done|].
    destruct (price_lt k' k) eqn:Hgt; [done|].
    destruct Hne. by apply price_lt_connex.
  - destruct (price_lt k' k0) eqn:Hlt; simpl.
    + destruct (price_lt k k') eqn:Hlt'.
      { by rewrite (price_lt_trans k k' k0). }
      destruct (price_lt k' k) eqn:Hgt'; [done|].
      destruct Hne. by apply price_lt_connex.
    + destruct (price_lt k0 k') eqn:Hgt; simpl; [|done].
      by rewrite IH.
Qed.

Lemma map_assign_try_emplace_comm k k' v w m :
  k ≠ k' →
  map_assign k v (map_try_emplace k' w m) = map_try_emplace k' w (map_assign k v m).
Proof.
  intros Hne. induction m as [|[k0 v0] rest IH]; simpl.
  - destruct (price_lt k k') eqn:Hlt; [done|].
    destruct (price_lt k' k) eqn:Hgt; [done|].
    destruct Hne. by apply price_lt_connex.
  - destruct (price_lt k' k0) eqn:Hlt0, (price_lt k k0) eqn:Hlt1; simpl.
    + rewrite Hlt0. destruct (price_lt k k') eqn:Hlt; [done|].
      destruct (price_lt k' k) eqn:Hgt; simpl; [by rewrite Hlt1|].
      destruct Hne. by apply price_lt_connex.
    + destruct (price_lt k k') eqn:Hlt.
      { by rewrite (price_lt_trans k k' k0) in Hlt1. }
      destruct (price_lt k' k) eqn:Hgt.
      2:{ destruct Hne. by apply price_lt_connex. }
      simpl. rewrite Hlt1.
      destruct (price_lt k0 k) eqn:Hgt1; simpl; by rewrite Hlt0.
    + destruct (price_lt k0 k') eqn:Hgt0; simpl; by rewrite ?Hlt1, ?Hlt0, ?Hgt0.
    + destruct (price_lt k0 k') eqn:Hgt0, (price_lt k0 k) eqn:Hgt1; simpl;
        rewrite ?Hlt0, ?Hlt1, ?Hgt0, ?Hgt1; try done.
      by rewrite IH.
Qed.

Lemma map_try_emplace_idem k v m :
  map_try_emplace k v (map_try_emplace k v m) = map_try_emplace k v m.
Proof.
  induction m as [|[k0 v0] rest IH]; simpl.
  - by rewrite price_lt_irrefl.
  - destruct (price_lt k k0) eqn:Hlt; simpl.
    + by rewrite price_lt_irrefl.
    + destruct (price_lt k0 k) eqn:Hgt; simpl; rewrite Hlt, Hgt; [by rewrite IH|done].
Qed.

Lemma handle_dec h h' : {h = h'} + {h ≠ h'}.
Proof.
  destruct h as [s k], h' as [s' k'].
  destruct (price_lt k k') eqn:Hlt.
  { right. intros [= _ ->]. by rewrite price_lt_irrefl in Hlt. }
  destruct (price_lt k' k) eqn:Hgt.
  { right. intros [= _ ->]. by rewrite price_lt_irrefl in Hgt. }
  assert (k = k') as -> by (by apply price_lt_connex).
  destruct s, s'; (by left) || (right; congruence).
Qed.

Lemma book_deref_assign_eq h v b :
  is_Some (OrderBook.deref h b) → OrderBook.deref h (OrderBook.assign h v b) = Some v.
Proof. destruct h as [s k]. apply deref_assign. Qed.

Lemma book_deref_assign_ne h h' v b :
  h ≠ h' → OrderBook.deref h (OrderBook.assign h' v b) = OrderBook.deref h b.
Proof.
  destruct h as [s k], h' as [s' k']. intros Hne.
  unfold OrderBook.deref, OrderBook.assign.
  destruct s, s'; simpl; try done; apply map_find_assign_ne; congruence.
Qed.

Lemma book_assign_twice h v w b :
  OrderBook.assign h v (OrderBook.assign h w b) = OrderBook.assign h v b.
Proof. destruct h as [s k]. apply assign_assign. Qed.

Lemma deref_emplace_order_ne h (order : Order P) b :
  h ≠ handle_of order → OrderBook.deref h (emplace_order b order) = OrderBook.deref h b.
Proof.
  destruct h as [s k], order as [i k' q s' ty ts]. unfold handle_of. simpl. intros Hne.
  unfold OrderBook.deref, emplace_order, OrderBook.emplace_level.
  destruct s, s'; simpl; try done; apply map_find_try_emplace_ne; congruence.
Qed.

Lemma assign_emplace_order_comm h v (order : Order P) b :
  h ≠ handle_of order →
  OrderBook.assign h v (emplace_order b order)
  = emplace_order (OrderBook.assign h v b) order.
Proof.
  destruct h as [s k], order as [i k' q s' ty ts]. unfold handle_of. simpl. intros Hne.
  unfold OrderBook.assign, emplace_order, OrderBook.emplace_level.
  destruct s, s'; simpl; try done; f_equal; apply map_assign_try_emplace_comm;
    congruence.
Qed.

Lemma emplace_order_idem (order order' : Order P) b :
  handle_of order = handle_of order' →
  emplace_order (emplace_order b order) order' = emplace_order b order.
Proof.
  destruct order as [i k q s ty ts], order' as [i' k' q' s' ty' ts'].
  unfold handle_of. simpl. intros [= -> ->].
  unfold emplace_order, OrderBook.emplace_level.
  destruct s'; simpl; f_equal; apply map_try_emplace_idem.
Qed.

Lemma deref_emplace_order (order : Order P) b :
  OrderBook.deref (handle_of order) (emplace_order b order)
  = Some (default (fresh_level (price order))
            (map_find (price order) (Trace.side_book (side order) b))).
Proof. apply deref_emplace_level. Qed.

Lemma deref_emplace_order_is_Some h (order : Order P) b :
  is_Some (OrderBook.deref h b) → is_Some (OrderBook.deref h (emplace_order b order)).
Proof.
  intros Hsome. destruct (handle_dec h (handle_of order)) as [->|Hne].
  - rewrite deref_emplace_order. eauto.
  - by rewrite deref_emplace_order_ne.
Qed.

Lemma deref_emplaced_ne h (extra : list (Order P)) b :
  h ∉ handle_of <$> extra →
  OrderBook.deref h (foldl emplace_order b extra) = OrderBook.deref h b.
Proof.
  revert b. induction extra as [|o extra IH]; intros b Hnotin; [done|].
  simpl. rewrite IH.
  - apply deref_emplace_order_ne. intros ->. apply Hnotin. simpl. apply list_elem_of_here.
  - intros Hin. apply Hnotin. simpl. by apply list_elem_of_further.
Qed.

Lemma assign_emplaced_comm h v (extra : list (Order P)) b :
  h ∉ handle_of <$> extra →
  OrderBook.assign h v (foldl emplace_order b extra)
  = foldl emplace_order (OrderBook.assign h v b) extra.
Proof.
  revert b. induction extra as [|o extra IH]; intros b Hnotin; [done|].
  simpl. rewrite IH.
  - f_equal. apply assign_emplace_order_comm. intros ->. apply Hnotin.
    simpl. apply list_elem_of_here.
  - intros Hin. apply Hnotin. simpl. by apply list_elem_of_further.
Qed.

Lemma deref_emplaced_is_Some (order : Order P) (os : list (Order P)) b :
  order ∈ os → is_Some (OrderBook.deref (handle_of order) (foldl emplace_order b os)).
Proof.
  induction os as [|o os IH] using rev_ind; intros Hin.
  { by apply elem_of_nil in Hin. }
  rewrite foldl_app. simpl.
  apply elem_of_app in Hin as [Hin|Hin].
  - by apply deref_emplace_order_is_Some, IH.
  - apply list_elem_of_singleton in Hin as ->. rewrite deref_emplace_order. eauto.
Qed.

Lemma update_quantity_int32 (q : Z) v :
  update_quantity (to_int32 q) v = update_quantity q v.
Proof. unfold update_quantity. by rewrite to_uint32_add_int32. Qed.

Lemma assign_emplace_order (order : Order P) b :
  OrderBook.assign (handle_of order)
    (update_quantity (to_int32 (quantity order))
       (default (fresh_level (price order))
          (map_find (price order) (Trace.side_book (side order) b))))
    (emplace_order b order)
  = add_order b order.
Proof. rewrite update_quantity_int32. apply assign_emplace_level. Qed.

(** The scalar loop over the handles of [os], on a book in which the
    levels of [os] and of [extra] have been emplaced, is the sequence of
    adds of [os]. *)
Lemma scalar_on_emplaced (os extra : list (Order P)) b
    (levels : list (option OrderBook.Handle)) (deltas : list Z) :
  NoDup (handle_of <$> (os ++ extra)) →
  (∀ i o, os !! i = Some o →
     levels !! i = Some (Some (handle_of o))
     ∧ deltas !! i = Some (to_int32 (quantity o))) →
  scalar_quantity_updates OrderBook.deref OrderBook.assign levels deltas (length os)
    (foldl emplace_order (foldl emplace_order b os) extra)
  = Some (foldl emplace_order (foldl add_order b os) extra).
Proof.
  unfold scalar_quantity_updates.
  revert extra. induction os as [|o os IH] using rev_ind; intros extra Hnodup Harrays.
  { done. }
  rewrite length_app, Nat.add_1_r, for_loop_S.
  rewrite !foldl_app. simpl.
  change (foldl emplace_order (emplace_order (foldl emplace_order b os) o) extra)
    with (foldl emplace_order (foldl emplace_order b os) (o :: extra)).
  rewrite IH.
  2:{ by rewrite <- app_assoc in Hnodup. }
  2:{ intros i o' Hi. apply Harrays. by apply lookup_app_l_Some. }
  simpl. unfold scalar_body.
  destruct (Harrays (length os) o) as [-> ->].
  { rewrite lookup_app_r by done. by rewrite Nat.sub_diag. }
  simpl.
  assert (Hnotin : handle_of o ∉ handle_of <$> extra).
  { rewrite fmap_app, fmap_app in Hnodup.
    apply NoDup_app in Hnodup as (Hleft & Hdisj & _).
    apply Hdisj. apply elem_of_app. right. simpl. apply list_elem_of_here. }
  rewrite deref_emplaced_ne, deref_emplace_order by done. simpl.
  rewrite assign_emplaced_comm by done.
  by rewrite assign_emplace_order.
Qed.
End BookMemory.

Section BatchRuns.
Context {P : Type} `{PriceOrder P}.
Implicit Types (b : OrderBook.t (P := P)) (orders pending : list (Order P)).

(** One call of the batch updater on the handles of a group whose levels
    have been emplaced and are pairwise distinct. *)
Lemma group_update pending b (levels : list (option OrderBook.Handle))
    (deltas : list Z) :
  NoDup (handle_of <$> pending) → (length pending ≤ 4)%nat →
  length levels = 4%nat → length deltas = 4%nat →
  (∀ i o, pending !! i = Some o →
     levels !! i = Some (Some (handle_of o))
     ∧ deltas !! i = Some (to_int32 (quantity o))) →
  process_quantity_updates OrderBook.deref OrderBook.assign levels deltas
    (length pending) (foldl emplace_order b pending)
  = Some (foldl add_order b pending).
Proof.
  intros Hnodup Hle Hlev Hdel Harrays.
  assert (Hhandle : ∀ i p, (i < length pending)%nat → levels !! i = Some (Some p) →
            ∃ o, pending !! i = Some o ∧ p = handle_of o).
  { intros i p Hi Hp. destruct (lookup_lt_is_Some_2 pending i Hi) as [o Ho].
    exists o. split; [done|]. destruct (Harrays i o Ho) as [Hl _]. congruence. }
  destruct (process_quantity_updates_snapshot OrderBook.deref OrderBook.assign
              handle_dec book_deref_assign_eq book_deref_assign_ne book_assign_twice
              levels deltas (replicate 4 0) (replicate 4 0)
              (foldl emplace_order b pending) (length pending))
    as (m' & Hwide & Hsnap); try done.
  { intros i p Hi Hp. destruct (Hhandle i p Hi Hp) as (o & Ho & ->).
    apply deref_emplaced_is_Some. by eapply list_elem_of_lookup_2. }
  unfold process_quantity_updates. rewrite Hwide, <- Hsnap.
  rewrite (snapshot_is_scalar OrderBook.deref OrderBook.assign book_deref_assign_ne).
  - apply (scalar_on_emplaced pending [] b levels deltas); [|done].
    by rewrite app_nil_r.
  - intros i j p Hi Hj Hpi Hpj.
    destruct (Hhandle i p Hi Hpi) as (oi & Hoi & ->).
    destruct (Hhandle j _ Hj Hpj) as (oj & Hoj & Heq).
    apply (NoDup_lookup _ i j (handle_of oi) Hnodup);
      rewrite list_lookup_fmap; [by rewrite Hoi | by rewrite Hoj, Heq].
Qed.

(** The loop of [process_limit_orders_batch] over orders at pairwise
    distinct levels: the groups of four already sent are added, the orders
    of the group being filled are emplaced and recorded in the arrays. *)
Lemma batch_loop orders b :
  NoDup (handle_of <$> orders) →
  ∃ sent pending st,
    orders = sent ++ pending ∧ (length pending < 4)%nat
    ∧ foldl (λ acc order, acc ≫= λ st, OrderBook.batch_step st order)
        (Some {| OrderBook.book := b;
                 OrderBook.levels := replicate OrderBook.SIMD_WIDTH None;
                 OrderBook.deltas := replicate OrderBook.SIMD_WIDTH 0;
                 OrderBook.batch_size := 0%nat |}) orders = Some st
    ∧ OrderBook.book st = foldl emplace_order (foldl add_order b sent) pending
    ∧ OrderBook.batch_size st = length pending
    ∧ length (OrderBook.levels st) = 4%nat ∧ length (OrderBook.deltas st) = 4%nat
    ∧ ∀ i o, pending !! i = Some o →
        OrderBook.levels st !! i = Some (Some (handle_of o))
        ∧ OrderBook.deltas st !! i = Some (to_int32 (quantity o)).
Proof.
  induction orders as [|o orders IH] using rev_ind; intros Hnodup.
  { exists [], []. eexists. split; [done|]. split; [simpl; lia|].
    split; [reflexivity|]. simpl. repeat split; done. }
  rewrite fmap_app in Hnodup.
  pose proof Hnodup as Hall.
  apply NoDup_app in Hnodup as (Hnodup & Hdisj & _).
  destruct (IH Hnodup) as (sent & pending & st & -> & Hlen & Hrun & Hbook & Hsize
                           & Hlev & Hdel & Harrays).
  rewrite foldl_app, Hrun. simpl.
  unfold OrderBook.batch_step, OrderBook.SIMD_WIDTH.
  rewrite Hsize.
  destruct (decide (length pending < 4)%nat) as [_|]; [|lia].
  fold (emplace_order (OrderBook.book st) o). fold (handle_of o).
  assert (Hpending : NoDup (handle_of <$> (pending ++ [o]))).
  { rewrite fmap_app. rewrite fmap_app in Hall.
    rewrite <- app_assoc in Hall. by apply NoDup_app in Hall as (_ & _ & Hright). }
  assert (Harrays' : ∀ i o', (pending ++ [o]) !! i = Some o' →
            <[length pending := Some (handle_of o)]> (OrderBook.levels st) !! i
              = Some (Some (handle_of o'))
            ∧ <[length pending := to_int32 (quantity o)]> (OrderBook.deltas st) !! i
              = Some (to_int32 (quantity o'))).
  { intros i o' Hi. apply lookup_app_Some in Hi as [Hi|[Hge Hi]].
    - assert (i < length pending)%nat by (apply lookup_lt_is_Some; eauto).
      rewrite !list_lookup_insert_ne by lia. by apply Harrays.
    - apply list_lookup_singleton_Some in Hi as [Hi ->].
      assert (i = length pending) as -> by lia.
      rewrite !list_lookup_insert_eq by lia. done. }
  destruct (decide (S (length pending) = 4)%nat) as [Hfull|Hpart].
  - rewrite Hbook.
    change (emplace_order (foldl emplace_order (foldl add_order b sent) pending) o)
      with (foldl emplace_order (foldl emplace_order (foldl add_order b sent) pending) [o]).
    rewrite <- foldl_app.
    pose proof (group_update (pending ++ [o]) (foldl add_order b sent)
                  (<[length pending := Some (handle_of o)]> (OrderBook.levels st))
                  (<[length pending := to_int32 (quantity o)]> (OrderBook.deltas st))
                  Hpending) as Hgroup.
    rewrite length_app, !length_insert in Hgroup. simpl in Hgroup.
    replace (length pending + 1)%nat with 4%nat in Hgroup by lia.
    specialize (Hgroup ltac:(lia) Hlev Hdel Harrays').
    exists (sent ++ pending ++ [o]), []. eexists.
    split; [by rewrite app_nil_r, app_assoc|]. split; [simpl; lia|].
    unfold OrderBook.Handle in *. rewrite Hgroup. simpl.
    split; [reflexivity|]. simpl.
    split; [by rewrite <- foldl_app|]. split; [done|].
    rewrite !length_insert. repeat split; done.
  - exists sent, (pending ++ [o]). eexists.
    split; [by rewrite app_assoc|].
    split; [rewrite length_app; simpl; lia|].
    split; [reflexivity|]. simpl.
    split; [by rewrite foldl_app, Hbook|].
    split; [rewrite length_app; simpl; lia|].
    rewrite !length_insert. repeat split; try done; by apply Harrays'.
Qed.

Lemma process_limit_orders_batch_distinct orders b :
  NoDup (handle_of <$> orders) →
  OrderBook.process_limit_orders_batch orders b = Some (foldl add_order b orders).
Proof.
  intros Hnodup.
  destruct (batch_loop orders b Hnodup)
    as (sent & pending & st & -> & Hlen & Hrun & Hbook & Hsize & Hlev & Hdel & Harrays).
  unfold OrderBook.process_limit_orders_batch. rewrite Hrun. simpl.
  rewrite Hsize, Hbook, foldl_app.
  destruct (decide (0 < length pending)%nat) as [Hpos|Hzero].
  - apply group_update; try done; [|lia].
    rewrite fmap_app in Hnodup. by apply NoDup_app in Hnodup as (_ & _ & Hright).
  - by destruct pending; [|simpl in Hzero; lia].
Qed.

(** Two orders at one level in one batch: both loads see the level as
    it was, and the second store overwrites the first. *)
Lemma process_limit_orders_batch_shared (o1 o2 : Order P) b :
  handle_of o1 = handle_of o2 →
  OrderBook.process_limit_orders_batch [o1; o2] b = Some (add_order b o2).
Proof.
  intros Hsame.
  unfold OrderBook.process_limit_orders_batch. simpl.
  unfold OrderBook.batch_step. simpl.
  change (process_quantity_updates OrderBook.deref OrderBook.assign
            [Some (handle_of o1); Some (handle_of o2); None; None]
            [to_int32 (quantity o1); to_int32 (quantity o2); 0; 0] 2
            (emplace_order (emplace_order b o1) o2) = Some (add_order b o2)).
  rewrite emplace_order_idem by done.
  destruct (process_quantity_updates_snapshot OrderBook.deref OrderBook.assign
              handle_dec book_deref_assign_eq book_deref_assign_ne book_assign_twice
              [Some (handle_of o1); Some (handle_of o2); None; None]
              [to_int32 (quantity o1); to_int32 (quantity o2); 0; 0]
              (replicate 4 0) (replicate 4 0) (emplace_order b o1) 2)
    as (m' & Hwide & Hsnap); try done; [lia| |].
  { intros i p Hi. destruct i as [|[|i]]; simpl; try lia; intros [= <-];
      rewrite <- ?Hsame, deref_emplace_order; eauto. }
  unfold process_quantity_updates. etrans; [exact Hwide|]. rewrite <- Hsnap.
  unfold snapshot_quantity_updates, for_loop. simpl.
  unfold snapshot_body. simpl.
  rewrite <- Hsame, deref_emplace_order. simpl.
  rewrite book_assign_twice. f_equal.
  assert (Hprice : price o1 = price o2) by (by injection Hsame).
  assert (Hside : side o1 = side o2) by (by injection Hsame).
  rewrite <- (assign_emplace_order o2 b). rewrite <- Hsame.
  unfold emplace_order. by rewrite Hprice, Hside.
Qed.
End BatchRuns.

(** X24.  A batch of limit orders at pairwise distinct levels (side and
    price) goes through the groups of four and the four-wide update to the
    same book as adding the orders one after the other: for each, locate or
    create the level, add the quantity modulo 2^32 and count one order. *)
Theorem batch_at_distinct_levels_is_sequential :
  ∀ (P : Type) (O : PriceOrder P) (orders : list (Order P))
    (b : OrderBook.t (P := P)),
    NoDup (handle_of <$> orders) →
    OrderBook.process_limit_orders_batch orders b
    = Some (foldl add_order b orders).
Proof. intros P O orders b. apply process_limit_orders_batch_distinct. Qed.

Lemma batch_at_distinct_levels_witness :
  let orders :=
    [mkOrder empty_id 100 5 BUY LIMIT 1; mkOrder empty_id 101 6 SELL LIMIT 2;
     mkOrder empty_id 100 7 SELL LIMIT 3; mkOrder empty_id 99 8 BUY LIMIT 4;
     mkOrder empty_id 98 9 BUY LIMIT 5] in
  OrderBook.process_limit_orders_batch orders (OrderBook.empty (P := Z))
  = Some (foldl add_order OrderBook.empty orders).
Proof.
  apply (batch_at_distinct_levels_is_sequential Z Z_PriceOrder).
  simpl.
  repeat (apply NoDup_cons_2;
          [intros Hin;
           repeat (apply elem_of_cons in Hin as [Hin|Hin]; [discriminate Hin|]);
           by apply elem_of_nil in Hin|]).
  apply NoDup_nil_2.
Defined.

(** X25.  Two limit orders at the same side and price in one batch: the
    batch leaves the book as if only the second had been sent.  The first
    order's quantity and its count are lost, because the four-wide update
    loads the level once per order before it stores any. *)
Theorem batch_at_shared_level_keeps_last :
  ∀ (P : Type) (O : PriceOrder P) (o1 o2 : Order P) (b : OrderBook.t (P := P)),
    handle_of o1 = handle_of o2 →
    OrderBook.process_limit_orders_batch [o1; o2] b = Some (add_order b o2).
Proof. intros P O o1 o2 b. apply process_limit_orders_batch_shared. Qed.

Lemma batch_at_shared_level_witness :
  OrderBook.process_limit_orders_batch
    [mkOrder empty_id 100 5 BUY LIMIT 1; mkOrder empty_id 100 7 BUY LIMIT 2]
    (OrderBook.empty (P := Z))
  = Some (add_order OrderBook.empty (mkOrder empty_id 100 7 BUY LIMIT 2)).
Proof.
  apply (batch_at_shared_level_keeps_last Z Z_PriceOrder). reflexivity.
Defined.
